(** * English_to_Amharic: the text utilities and the PDF translation pipeline

    A shallow embedding of [app/utils.py] ([clean_text], [split_text],
    [is_valid_file], [create_required_directories]), of
    [app/pdf_handler.py] ([extract_text_with_positions],
    [create_pdf_with_layout], [translate_pdf]), of [Translator.translate]
    of [app/translator.py] and of the text tab and the progress callback
    of [app/main.py], followed by the properties the specification states
    about them and by further properties of the code.

    Layout of the file: the data model and the embedded functions come
    first, the lemmas and theorems second. *)

From Stdlib Require Import ZArith NArith QArith Qabs Lia Lqa.
From Stdlib Require Import PrimFloat Uint63 Floats.
From Stdlib Require Import String Ascii DecimalString.
From stdpp Require Import base option list gmap sorting.

Local Open Scope Z_scope.

(* ===================================================================== *)
(** * Part I: definitions *)
(* ===================================================================== *)

(** ** Python strings

    A Python [str] is a sequence of Unicode code points; [len] counts code
    points.  Code points are kept as [N]. *)

Abbreviation pystr := (list N).

(** ASCII literals of the source, written as Rocq strings. *)
Definition py (s : string) : pystr :=
  List.map N_of_ascii (list_ascii_of_string s).

(** [len(s)] as a Python integer. *)
Definition len {A} (l : list A) : Z := Z.of_nat (length l).

(** [Py_UNICODE_ISSPACE], the test used by [str.split()] and [str.strip()]
    when called without an argument: the ASCII table
    ([\t \n \v \f \r], 0x1C..0x1F, space) and the Unicode characters of
    category Zs or of bidirectional class WS, B or S. *)
Definition isspace (c : N) : bool :=
  ((0x09 <=? c) && (c <=? 0x0D) ||
   (0x1C <=? c) && (c <=? 0x20) ||
   (c =? 0x85) || (c =? 0xA0) || (c =? 0x1680) ||
   (0x2000 <=? c) && (c <=? 0x200A) ||
   (c =? 0x2028) || (c =? 0x2029) || (c =? 0x202F) ||
   (c =? 0x205F) || (c =? 0x3000))%N.

Definition space : N := 0x20%N.

(** [text.split()]: maximal runs of non-whitespace characters, left to
    right.  [cur] is the word being scanned. *)
Fixpoint split_from (cur : pystr) (s : pystr) : list pystr :=
  match s with
  | [] => match cur with [] => [] | _ => [cur] end
  | c :: s' =>
      if isspace c then
        match cur with
        | [] => split_from [] s'
        | _ => cur :: split_from [] s'
        end
      else split_from (cur ++ [c]) s'
  end.

Definition split (s : pystr) : list pystr := split_from [] s.

(** [sep.join(parts)]. *)
Fixpoint join (sep : pystr) (parts : list pystr) : pystr :=
  match parts with
  | [] => []
  | [p] => p
  | p :: ps => p ++ sep ++ join sep ps
  end.

(** [s.lstrip()], [s.rstrip()] and [s.strip()]. *)
Fixpoint lstrip (s : pystr) : pystr :=
  match s with
  | c :: s' => if isspace c then lstrip s' else s
  | [] => []
  end.

Definition rstrip (s : pystr) : pystr := rev (lstrip (rev s)).

Definition strip (s : pystr) : pystr := rstrip (lstrip s).

(** [s.startswith(p)] and [p in s] (substring test). *)
Fixpoint startswith (s p : pystr) : bool :=
  match p, s with
  | [], _ => true
  | _ :: _, [] => false
  | a :: p', b :: s' => (a =? b)%N && startswith s' p'
  end.

Fixpoint contains (p s : pystr) : bool :=
  startswith s p ||
  match s with
  | [] => false
  | _ :: s' => contains p s'
  end.

(** ** [pathlib] and [str.lower]

    [Path(filename).name] on a POSIX system: the last component of the
    path that is neither empty nor a single dot, the empty string when
    there is none.  [Path(filename).suffix] as CPython defines it up to
    version 3.13: the part of the name from its last dot on, unless that
    dot is the first or the last character of the name. *)
Definition dot : N := 0x2E%N.

(** [s.split(sep)] for a separator of one character. *)
Definition split_on (sep : N) (s : pystr) : list pystr :=
  foldr (fun c parts =>
           if (c =? sep)%N then [] :: parts
           else match parts with
                | part :: rest => (c :: part) :: rest
                | [] => [[c]]
                end) [[]] s.

Definition path_name (p : pystr) : pystr :=
  default []
    (last (List.filter
             (fun part => negb (bool_decide (part = []))
                          && negb (bool_decide (part = [dot])))
             (split_on 0x2F%N p))).

(** [s.rfind(c)]: the index of the last [c] in [s], [-1] without one. *)
Definition rfind (c : N) (s : pystr) : Z :=
  (foldl (fun '(i, found) d => (i + 1, if (d =? c)%N then i else found))
     (0, -1) s).2.

Definition suffix (p : pystr) : pystr :=
  let name := path_name p in
  let i := rfind dot name in
  if (0 <? i) && (i <? len name - 1) then drop (Z.to_nat i) name else [].

(** [s.lower()].  On a string of ASCII characters it maps [A]..[Z] to
    [a]..[z]; on any other string it follows the case tables of Unicode,
    which are not part of this development and are taken as
    [unicode_lower]. *)
Definition is_ascii (c : N) : bool := (c <? 128)%N.

Definition ascii_lower (c : N) : N :=
  if ((0x41 <=? c) && (c <=? 0x5A))%N then (c + 32)%N else c.

Definition lower (unicode_lower : pystr -> pystr) (s : pystr) : pystr :=
  if forallb is_ascii s then List.map ascii_lower s else unicode_lower s.

(** ** Directories

    What [create_required_directories] sees of the file system: the entries
    of the working directory, each a regular file or a directory.
    [os.mkdir(name)] raises [FileExistsError] when [name] exists, may be
    refused by the system for another reason ([mkdir_refused]: permissions,
    a read-only file system, ...) and creates the directory otherwise.
    [os.makedirs(name, exist_ok=True)], for a name of one component, calls
    [os.mkdir(name)] and ignores its [OSError] when [name] is a
    directory. *)
Inductive Node := RegularFile | Directory.

Abbreviation FileSystem := (gmap pystr Node).

Section Directories.
Context (mkdir_refused : FileSystem -> pystr -> option pystr).

Definition mkdir (name : pystr) (fs : FileSystem)
    : (pystr + unit) * FileSystem :=
  match fs !! name with
  | Some _ => (inl (py "FileExistsError"), fs)
  | None =>
      match mkdir_refused fs name with
      | Some e => (inl e, fs)
      | None => (inr tt, <[name := Directory]> fs)
      end
  end.

Definition makedirs_exist_ok (name : pystr) (fs : FileSystem)
    : (pystr + unit) * FileSystem :=
  match mkdir name fs with
  | (inr tt, fs') => (inr tt, fs')
  | (inl e, fs') =>
      match fs' !! name with
      | Some Directory => (inr tt, fs')
      | _ => (inl e, fs')
      end
  end.

End Directories.

(** ** [app/utils.py] *)

Module Utils.

(** [clean_text]: [" ".join(text.split())]. *)
Definition clean_text (text : pystr) : pystr :=
  join [space] (split text).

(** One iteration of the [for word in words] loop of [split_text]; the
    loop state is [(chunks, current_chunk)]. *)
Definition split_step (max_length : Z) (st : list pystr * list pystr)
    (word : pystr) : list pystr * list pystr :=
  let '(chunks, current_chunk) := st in
  let current_chunk := current_chunk ++ [word] in
  if len (join [space] current_chunk) >? max_length then
    let current_chunk :=
      if len current_chunk >? 1 then removelast current_chunk
      else current_chunk in
    (chunks ++ [join [space] current_chunk], [word])
  else (chunks, current_chunk).

Definition split_text (text : pystr) (max_length : Z) : list pystr :=
  let words := split text in
  let '(chunks, current_chunk) :=
    fold_left (split_step max_length) words ([], []) in
  match current_chunk with
  | [] => chunks
  | _ => chunks ++ [join [space] current_chunk]
  end.

(** [is_valid_file]: [Path(filename).suffix.lower() in allowed_extensions];
    the default of [allowed_extensions] is [{'.pdf'}]. *)
Definition is_valid_file (unicode_lower : pystr -> pystr) (filename : pystr)
    (allowed_extensions : gset pystr) : bool :=
  bool_decide (lower unicode_lower (suffix filename) ∈ allowed_extensions).

Definition default_extensions : gset pystr := {[ py ".pdf" ]}.

Definition required_directories : list pystr :=
  [py "uploads"; py "models"; py "static"].

(** [create_required_directories]: the loop stops at the first call that
    raises and leaves what it has created. *)
Definition create_required_directories
    (mkdir_refused : FileSystem -> pystr -> option pystr) (fs : FileSystem)
    : (pystr + unit) * FileSystem :=
  foldl (fun st directory =>
           match st with
           | (inr tt, fs) => makedirs_exist_ok mkdir_refused directory fs
           | (inl e, fs) => (inl e, fs)
           end) (inr tt, fs) required_directories.

End Utils.

(** ** Python floats

    Positions, font sizes and progress fractions are Python [float]s.  The
    pipeline only adds, subtracts, multiplies, divides, negates, takes
    absolute values and compares them, so it is written once over this
    interface and read at two instances: [binary64], the IEEE 754 double
    arithmetic Python runs, and [exact], the same formulas over the
    rationals. *)

Class PyFloat (F : Type) := {
  fadd : F -> F -> F;
  fsub : F -> F -> F;
  fmul : F -> F -> F;
  fdiv : F -> F -> F;
  fneg : F -> F;
  fabs : F -> F;
  fltb : F -> F -> bool;      (* x < y *)
  feqb : F -> F -> bool;      (* x == y *)
  of_int : Z -> F;            (* float(n) *)
}.

Declare Scope pyfloat_scope.
Delimit Scope pyfloat_scope with py.
Infix "+" := fadd : pyfloat_scope.
Infix "-" := fsub : pyfloat_scope.
Infix "*" := fmul : pyfloat_scope.
Infix "/" := fdiv : pyfloat_scope.
Notation "- x" := (fneg x) : pyfloat_scope.
Infix "<?" := fltb : pyfloat_scope.
Infix "=?" := feqb : pyfloat_scope.

(** The decimal literal [m * 10^-e] of the source text, e.g. [lit 12 1] for
    [1.2].  At [binary64] the correctly rounded quotient of two exactly
    represented integers is the double nearest to the decimal, which is the
    value Python gives the literal. *)
Definition lit {F} `{PyFloat F} (m : Z) (e : nat) : F :=
  (of_int m / of_int (10 ^ Z.of_nat e))%py.

(** [float(n)] at binary64: exact up to 2^53 and rounded to nearest up to
    2^63, which covers every length and counter of the program. *)
Definition float_of_int (z : Z) : float :=
  if z <? 0 then PrimFloat.opp (PrimFloat.of_uint63 (Uint63.of_Z (- z)))
  else PrimFloat.of_uint63 (Uint63.of_Z z).

#[export] Instance binary64 : PyFloat float := {|
  fadd := PrimFloat.add;
  fsub := PrimFloat.sub;
  fmul := PrimFloat.mul;
  fdiv := PrimFloat.div;
  fneg := PrimFloat.opp;
  fabs := PrimFloat.abs;
  fltb := PrimFloat.ltb;
  feqb := PrimFloat.eqb;
  of_int := float_of_int;
|}.

Definition Qltb (a b : Q) : bool := negb (Qle_bool b a).

#[export] Instance exact : PyFloat Q := {|
  fadd := Qplus;
  fsub := Qminus;
  fmul := Qmult;
  fdiv := Qdiv;
  fneg := Qopp;
  fabs := Qabs;
  fltb := Qltb;
  feqb := Qeq_bool;
  of_int := inject_Z;
|}.

(** [sorted(l, key=...)] compared with [<] on the keys: a stable insertion
    sort.  Python's sort is stable and only ever asks [<]; on keys that [<]
    orders totally (no NaN) every stable sort returns the same list. *)
Section Sorted.
Context {A : Type} (lt : A -> A -> bool).

Fixpoint insert_sorted (a : A) (l : list A) : list A :=
  match l with
  | [] => [a]
  | b :: l' => if lt b a then b :: insert_sorted a l' else a :: l
  end.

Definition sorted (l : list A) : list A := foldr insert_sorted [] l.

End Sorted.

(** ** Exceptions

    An exception is kept as its message, [str(e)].  A computation that may
    raise returns [inl e] when it does.  Every exception is an instance of
    [Exception], the class the [except] clauses of the module catch. *)
Abbreviation exn := (list N).
Abbreviation bytes := (list Byte.byte).

(** A block of statements that works on local variables and on an object
    runs to its end, or is left by an exception that nothing in it catches.
    Either way the variables and the object keep what they hold at that
    point, so both cases carry the state. *)
Inductive Ended (S : Type) :=
| Completed (s : S)
| Raised (s : S).

Arguments Completed {S} s.
Arguments Raised {S} s.

Definition state_of {S} (e : Ended S) : S :=
  match e with
  | Completed s | Raised s => s
  end.

(** [for a in l: body], started in state [s]: an exception that leaves the
    body leaves the loop. *)
Fixpoint for_each {S A} (body : S -> A -> Ended S) (l : list A) (s : S)
    : Ended S :=
  match l with
  | [] => Completed s
  | a :: l' =>
      match body s a with
      | Completed s' => for_each body l' s'
      | Raised s' => Raised s'
      end
  end.

(** ** [app/pdf_handler.py]: the data model *)

Section Pipeline.
Context {F : Type} {num : PyFloat F}.

(** One entry of [text_content]: the dictionary built by [visitor_body]. *)
Record TextRun := {
  r_text : pystr;
  r_x : F;
  r_y : F;
  r_fontSize : F;
  r_font : pystr;
  r_rotation : F;
  r_width : F;
  r_height : F;
}.

(** One entry of [pages_content]. *)
Record Page := {
  p_width : F;
  p_height : F;
  p_rotation : F;
  p_content : list TextRun;
  p_page_number : Z;
}.

(** What PyPDF2 shows of the input.  [PdfReader(pdf_file)] either raises
    ([Unparsable]) or yields pages; for each page the reader gives the media
    box, the optional [/Rotate] entry and, during [page.extract_text], one
    call of the visitor per text operation; [rp_raises] marks a page on which
    the library raises while being processed. *)
Record VisitorCall := {
  v_text : pystr;
  v_tm4 : F;
  v_tm5 : F;
  v_fontDict : option (option pystr);  (* None: falsy fontDict;
                                          Some None: no /BaseFont *)
  v_fontSize : F;
}.

Record RawPage := {
  rp_width : F;
  rp_height : F;
  rp_rotate : option F;
  rp_visits : list VisitorCall;
  rp_raises : bool;
}.

Inductive PdfFile :=
| Unparsable
| Parsed (pages : list RawPage).

(** ** [extract_text_with_positions] *)

(** [visitor_body], closed over the page's [rotation], [page_width],
    [page_height] and appending to [text_content]. *)
Definition visitor_body (rotation page_width page_height : F)
    (text_content : list TextRun) (v : VisitorCall) : list TextRun :=
  match strip (v_text v) with
  | [] => text_content
  | _ =>
      let font_name :=
        match v_fontDict v with
        | Some fontDict => default (py "Helvetica") fontDict
        | None => py "Helvetica"
        end in
      let font_size :=
        if (v_fontSize v =? of_int 0)%py then of_int 12 else v_fontSize v in
      text_content ++
        [{| r_text := strip (v_text v);
            r_x := v_tm4 v;
            r_y := v_tm5 v;
            r_fontSize := font_size;
            r_font := font_name;
            r_rotation := rotation;
            r_width := page_width;
            r_height := page_height |}]
  end.

(** The sort key [(-x!'y', x!'x')] of the extractor, compared as Python
    compares tuples: the first components decide unless they are equal. *)
Definition extract_key_lt (a b : TextRun) : bool :=
  if (- r_y a =? - r_y b)%py then (r_x a <? r_x b)%py
  else (- r_y a <? - r_y b)%py.

(** The body of the page loop for the page of 0-based index [page_num]:
    [None] when the page has no run and is left out. *)
Definition extract_page (page_num : Z) (page : RawPage) : option Page :=
  let page_width := rp_width page in
  let page_height := rp_height page in
  let rotation := default (of_int 0) (rp_rotate page) in
  let text_content :=
    foldl (visitor_body rotation page_width page_height) []
      (rp_visits page) in
  match text_content with
  | [] => None
  | _ =>
      Some {| p_width := page_width;
              p_height := page_height;
              p_rotation := rotation;
              p_content := sorted extract_key_lt text_content;
              p_page_number := page_num + 1 |}
  end.

(** The loop [for page_num, page in enumerate(reader.pages)]; [inl] when
    the library raises on a page. *)
Fixpoint extract_loop (page_num : Z) (pages : list RawPage)
    (pages_content : list Page) : exn + list Page :=
  match pages with
  | [] => inr pages_content
  | page :: rest =>
      if rp_raises page then inl (py "PdfReadError")
      else
        extract_loop (page_num + 1) rest
          (match extract_page page_num page with
           | Some p => pages_content ++ [p]
           | None => pages_content
           end)
  end.

Definition extract_text_with_positions (pdf_file : PdfFile) : list Page :=
  match pdf_file with
  | Unparsable => []
  | Parsed pages =>
      match extract_loop 0 pages [] with
      | inr pages_content => pages_content
      | inl _ => []
      end
  end.

(** ** The canvas of reportlab

    The renderer talks to a [canvas.Canvas].  The canvas is kept as the list
    of the calls it has accepted, oldest first; whether a call raises is up
    to the library ([canvas_raises], given the calls accepted so far), and
    so are the bytes the buffer holds in the end ([getvalue]).  The rest of
    the environment of one [translate_pdf] call is here as well:
    - [nyala], the font file looked up under [fonts/];
    - [stdout_encodes], the console: the code points beyond ASCII that the
      encoding of [sys.stdout] has.  A [StringIO], to which [main.py]
      redirects the output, has them all; a UTF-8 console has all but the
      surrogates;
    - [open_rb], the file opened for reading;
    - [write_wb] and [left_wb], the outcome of
      [with open(output_path, 'wb') as file: file.write(pdf_content)]:
      whether the statement raises, and when it does what it leaves at the
      path, [None] when [open] raised, so that no file was created or
      changed, and [Some n] when [open] had created or truncated the file
      and [n] bytes of the content reached it before [write] or the closing
      of the file raised. *)
Inductive CanvasOp :=
| OpCanvas (width height : F)
| OpSetTitle (s : pystr)
| OpSetProducer (s : pystr)
| OpSetAuthor (s : pystr)
| OpSetPageSize (width height : F)
| OpRotate (theta : F)
| OpSetFont (name : pystr) (size : F)
| OpDrawString (x y : F) (text : pystr)
| OpShowPage
| OpSave.

Abbreviation Canvas := (list CanvasOp).

Inductive FontFile := FontMissing | FontLoads | FontBroken.

Record Env := {
  canvas_raises : Canvas -> CanvasOp -> bool;
  getvalue : Canvas -> bytes;
  nyala : FontFile;
  stdout_encodes : N -> bool;
  open_rb : pystr -> exn + PdfFile;
  write_wb : pystr -> bytes -> option exn;
  left_wb : pystr -> bytes -> option nat;
}.

Context (env : Env).

(** One call on the canvas: [None] when it raises. *)
Definition canvas_call (c : Canvas) (op : CanvasOp) : option Canvas :=
  if canvas_raises env c op then None else Some (c ++ [op]).

(** ** The console

    [print(line)] encodes the line for [sys.stdout] and raises
    [UnicodeEncodeError] when the line has a character the console cannot
    encode.  The renderer prints the text of a run and its translation when
    it does not draw the run; these are the [print] calls that are kept.
    Everything else the module prints is made of literals, numbers and the
    messages of exceptions ([str(e)]), which are taken to be printable, so
    that those calls return and are left out. *)
Definition stdout_accepts (s : pystr) : bool :=
  forallb (fun ch => is_ascii ch || stdout_encodes env ch) s.

Definition print_raises (line : pystr) : bool := negb (stdout_accepts line).

(** ** [create_pdf_with_layout] *)

(** [reportlab.lib.units]: [inch = 72.0], [cm = inch / 2.54],
    [mm = cm * 0.1]. *)
Definition inch : F := of_int 72.
Definition cm : F := (inch / lit 254 2)%py.
Definition mm : F := (cm * lit 1 1)%py.

(** [2 * mm], the minimum spacing between lines. *)
Definition min_y_spacing : F := (of_int 2 * mm)%py.

(** [s.encode('utf-8')] raises exactly on a surrogate code point; when it
    does not, decoding the result gives [s] back. *)
Definition utf8_encodable (s : pystr) : bool :=
  forallb (fun c => negb ((0xD800 <=? c) && (c <=? 0xDFFF))%N) s.

(** The y at which a run stored at [y] is placed, given [last_y]. *)
Definition place_y (last_y : option F) (adjusted_font_size y : F) : F :=
  match last_y with
  | Some last =>
      if (fabs (y - last) <? min_y_spacing)%py
      then (last - adjusted_font_size - min_y_spacing)%py
      else y
  | None => y
  end.

(** The body of [for content_num, content in enumerate(sorted_content, 1)];
    the loop state is the canvas and [last_y].  [continue] ends the body
    with the state as it is at that point.  A run whose translation is
    empty is announced by a [print] of its text before the [continue].
    The [except] clause prints the exception, the text of the run and
    [translated_text], and continues.  A [print] that raises inside the
    [try] block leads to the [except] clause like any other exception; a
    [print] that raises inside the [except] clause leaves the body and the
    loop.  On a UTF-8 console the latter happens for every
    [translated_text] that [encode('utf-8')] has just refused. *)
Definition draw_run (font_name : pystr) (translations : gmap pystr pystr)
    (st : Canvas * option F) (content : TextRun)
    : Ended (Canvas * option F) :=
  let '(c, last_y) := st in
  let text := r_text content in
  match text with
  | [] => Completed (c, last_y)
  | _ =>
      let translated_text := default text (translations !! text) in
      let except (c : Canvas) :=
        if print_raises (py "Text content: " ++ text)
        then Raised (c, last_y)
        else if print_raises (py "Translation: " ++ translated_text)
        then Raised (c, last_y)
        else Completed (c, last_y) in
      match translated_text with
      | [] =>
          if print_raises (py "Warning: Empty translation for text: " ++ text)
          then except c
          else Completed (c, last_y)
      | _ =>
          if negb (utf8_encodable translated_text) then except c
          else
            let original_font_size := r_fontSize content in
            let adjusted_font_size :=
              (original_font_size * lit 12 1)%py in
            match canvas_call c (OpSetFont font_name adjusted_font_size) with
            | None => except c
            | Some c =>
                let x := r_x content in
                let y := r_y content in
                let y := place_y last_y adjusted_font_size y in
                match canvas_call c (OpDrawString x y translated_text) with
                | None => except c
                | Some c => Completed (c, Some y)
                end
            end
      end
  end.

(** The sort key of the renderer, [-x!'y'].  The source gives the key
    [float('-inf')] to an entry without ['y']; a [TextRun] always has one,
    as every entry the extractor builds does, and for the same reason the
    defaults of [content.get('fontSize', 12)], [content.get('x', 0)] and
    [content.get('y', 0)] are never taken. *)
Definition render_key_lt (a b : TextRun) : bool :=
  (- r_y a <? - r_y b)%py.

(** The body of [for page_num, page in enumerate(pages_content, 1)]; an
    exception anywhere in it, the loop over the runs included, abandons
    the page before [showPage] and goes on with the next. *)
Definition render_page (font_name : pystr) (translations : gmap pystr pystr)
    (c : Canvas) (page : Page) : Canvas :=
  match canvas_call c (OpSetPageSize (p_width page) (p_height page)) with
  | None => c
  | Some c =>
      match (if negb (p_rotation page =? of_int 0)%py
             then canvas_call c (OpRotate (p_rotation page))
             else Some c) with
      | None => c
      | Some c =>
          let last_y : option F := None in
          let sorted_content := sorted render_key_lt (p_content page) in
          match for_each (draw_run font_name translations) sorted_content
                  (c, last_y) with
          | Raised (c, _) => c
          | Completed (c, _) =>
              match canvas_call c OpShowPage with
              | None => c
              | Some c => c
              end
          end
      end
  end.

Definition choose_font : pystr :=
  match nyala env with
  | FontLoads => py "Nyala"
  | FontMissing | FontBroken => py "Helvetica"
  end.

(** The [try] block of [create_pdf_with_layout] up to [c.save()]: the
    canvas after the last call, or [None] when an exception reaches the
    outer [except]. *)
Definition render_document (pages_content : list Page)
    (translations : gmap pystr pystr) : option Canvas :=
  match pages_content with
  | [] => None
  | first_page :: _ =>
      c ← canvas_call [] (OpCanvas (p_width first_page) (p_height first_page));
      c ← canvas_call c (OpSetTitle (py "Translated Document"));
      c ← canvas_call c (OpSetProducer (py "English to Amharic Translator"));
      c ← canvas_call c (OpSetAuthor (py "Amharic Translator"));
      let font_name := choose_font in
      let c := foldl (render_page font_name translations) c pages_content in
      canvas_call c OpSave
  end.

Definition create_pdf_with_layout (pages_content : list Page)
    (translations : gmap pystr pystr) : bytes :=
  match render_document pages_content translations with
  | Some c => getvalue env c
  | None => []
  end.

(** ** [translate_pdf]

    The orchestrator calls the translator (an object with a state of its
    own, whose [translate] returns or raises), reports progress and writes
    a file.  These effects are threaded through [Eff]: the progress
    callback's calls, the calls of [translate] with their outcomes, the
    translator's state and the files written (each with what it holds
    once written), each list oldest first. *)
Context {TS : Type} (translate : TS -> pystr -> (exn + pystr) * TS).
Context (upload_dir : pystr).

Record Eff := {
  progress : list (F * pystr);
  calls : list (pystr * (exn + pystr));
  tstate : TS;
  files : list (pystr * bytes);
}.

(** Computations that read and write [Eff] and may raise. *)
Definition M (A : Type) : Type := Eff -> (exn + A) * Eff.

Definition ret {A} (a : A) : M A := fun s => (inr a, s).

Definition raise {A} (e : exn) : M A := fun s => (inl e, s).

Definition bind {A B} (m : M A) (k : A -> M B) : M B :=
  fun s =>
    match m s with
    | (inr a, s') => k a s'
    | (inl e, s') => (inl e, s')
    end.

(** [try: m  except Exception as e: h e]. *)
Definition try_except {A} (m : M A) (h : exn -> M A) : M A :=
  fun s =>
    match m s with
    | (inl e, s') => h e s'
    | (inr a, s') => (inr a, s')
    end.

#[local] Instance M_ret : MRet M := @ret.
#[local] Instance M_bind : MBind M := fun A B k m => bind m k.

Fixpoint foldM {A B} (f : B -> A -> M B) (l : list A) (b : B) : M B :=
  match l with
  | [] => ret b
  | a :: l' => b' ← f b a; foldM f l' b'
  end.

(** [if progress_callback: progress_callback(fraction, message)]. *)
Definition progress_callback (has_callback : bool) (fraction : F)
    (message : pystr) : M unit :=
  fun s =>
    if has_callback then
      (inr tt, {| progress := progress s ++ [(fraction, message)];
                  calls := calls s;
                  tstate := tstate s;
                  files := files s |})
    else (inr tt, s).

(** [translator.translate(text)]. *)
Definition call_translate (text : pystr) : M pystr :=
  fun s =>
    let '(r, ts) := translate (tstate s) text in
    (r, {| progress := progress s;
           calls := calls s ++ [(text, r)];
           tstate := ts;
           files := files s |}).

(** [with open(pdf_path, 'rb') as file: ...] up to what the reader sees. *)
Definition open_pdf (pdf_path : pystr) : M PdfFile :=
  fun s => (open_rb env pdf_path, s).

(** [with open(output_path, 'wb') as file: file.write(pdf_content)].
    [files] records what the statement leaves at the path: the content, or
    what had reached the file when the statement raised after [open]. *)
Definition write_file (output_path : pystr) (pdf_content : bytes) : M unit :=
  fun s =>
    let holding (content : bytes) :=
      {| progress := progress s;
         calls := calls s;
         tstate := tstate s;
         files := files s ++ [(output_path, content)] |} in
    match write_wb env output_path pdf_content with
    | Some e =>
        match left_wb env output_path pdf_content with
        | Some n => (inl e, holding (take n pdf_content))
        | None => (inl e, s)
        end
    | None => (inr tt, holding pdf_content)
    end.

(** [str(n)] for an integer. *)
Definition str_of_int (n : Z) : pystr :=
  py (NilZero.string_of_int (Z.to_int n)).

(** [os.path.basename] and [os.path.join] as [posixpath] defines them
    (the separator is the slash). *)
Definition slash : N := 0x2F%N.

Definition basename (p : pystr) : pystr :=
  foldl (fun tail c => if (c =? slash)%N then [] else tail ++ [c]) [] p.

Definition path_join (a b : pystr) : pystr :=
  if startswith b [slash] then b
  else
    match last a with
    | None => b
    | Some c => if (c =? slash)%N then a ++ b else a ++ [slash] ++ b
    end.

(** [sum(len(page!'content') for page in pages_content)]. *)
Definition total_items_of (pages_content : list Page) : Z :=
  foldl (fun n page => n + len (p_content page)) 0 pages_content.

(** The progress reported after [items_processed] of [total_items] runs:
    [0.2 + (0.6 * items_processed / total_items)]. *)
Definition mapping_progress (items_processed total_items : Z) : F :=
  (lit 2 1 + (lit 6 1 * of_int items_processed / of_int total_items))%py.

(** The body of [for content in page!'content']; the loop state is
    [(translations, items_processed)]. *)
Definition translate_run (has_callback : bool) (total_items : Z)
    (page : Page) (st : gmap pystr pystr * Z) (content : TextRun)
    : M (gmap pystr pystr * Z) :=
  let '(translations, items_processed) := st in
  let text := r_text content in
  translations ←
    match text, translations !! text with
    | _ :: _, None =>
        translated ←
          try_except (call_translate text)
            (fun e => raise (py "Translation failed: " ++ e));
        ret (<[text := translated]> translations)
    | _, _ => ret translations
    end;
  let items_processed := items_processed + 1 in
  _ ← progress_callback has_callback
        (mapping_progress items_processed total_items)
        (py "Translating page " ++ str_of_int (p_page_number page)
           ++ py "...");
  ret (translations, items_processed).

Definition translate_page (has_callback : bool) (total_items : Z)
    (st : gmap pystr pystr * Z) (page : Page) : M (gmap pystr pystr * Z) :=
  foldM (translate_run has_callback total_items page) (p_content page) st.

(** The two nested loops that fill [translations]. *)
Definition build_translations (has_callback : bool)
    (pages_content : list Page) : M (gmap pystr pystr) :=
  let translations : gmap pystr pystr := ∅ in
  let total_items := total_items_of pages_content in
  let items_processed := 0 in
  _ ← progress_callback has_callback (lit 2 1) (py "Translating text...");
  '(translations, _) ←
    foldM (translate_page has_callback total_items) pages_content
      (translations, items_processed);
  ret translations.

Definition no_text_message : pystr :=
  py "No extractable text found in PDF. Please ensure the PDF contains text and not just images.".

Definition create_failed_message : pystr :=
  py "Failed to create PDF with translated text. Please try again with a different PDF.".

(** The [try] block of [translate_pdf]. *)
Definition translate_pdf_body (pdf_path : pystr) (has_callback : bool)
    : M pystr :=
  _ ← progress_callback has_callback (lit 1 1)
        (py "Extracting text from PDF...");
  file ← open_pdf pdf_path;
  let pages_content := extract_text_with_positions file in
  _ ← match pages_content with
      | [] => raise no_text_message
      | _ => ret tt
      end;
  translations ← build_translations has_callback pages_content;
  _ ← progress_callback has_callback (lit 8 1)
        (py "Creating translated PDF...");
  let pdf_content := create_pdf_with_layout pages_content translations in
  _ ← match pdf_content with
      | [] => raise create_failed_message
      | _ => ret tt
      end;
  _ ← progress_callback has_callback (lit 9 1)
        (py "Saving translated PDF...");
  let output_path :=
    path_join upload_dir (py "translated_" ++ basename pdf_path) in
  _ ← write_file output_path pdf_content;
  _ ← progress_callback has_callback (lit 10 1) (py "Translation complete!");
  ret output_path.

(** The message the [except] clause derives from [str(e)]. *)
Definition error_message (e : exn) : pystr :=
  if contains (py "No extractable text") e then
    py "Could not extract text from PDF. Please ensure the PDF contains text and not just images."
  else if contains (py "Translation failed") e then
    py "Translation failed. Please try again or check your internet connection."
  else if contains (py "Failed to create PDF") e then
    py "Could not create translated PDF. The file might be corrupted or in an unsupported format."
  else py "PDF translation error: " ++ e.

(** The [except Exception as e] clause of [translate_pdf]: report
    [(-1, error_msg)] and return the empty string. *)
Definition translate_pdf_except (has_callback : bool) (e : exn) : M pystr :=
  let error_msg := error_message e in
  _ ← progress_callback has_callback (of_int (-1)) error_msg;
  ret [].

Definition translate_pdf (pdf_path : pystr) (has_callback : bool) : M pystr :=
  try_except (translate_pdf_body pdf_path has_callback)
    (translate_pdf_except has_callback).

End Pipeline.

Arguments TextRun : clear implicits.
Arguments Page : clear implicits.
Arguments VisitorCall : clear implicits.
Arguments RawPage : clear implicits.
Arguments PdfFile : clear implicits.
Arguments CanvasOp : clear implicits.
Abbreviation Canvas F := (list (CanvasOp F)).
Arguments Env : clear implicits.
Arguments Eff : clear implicits.

(** ** [app/translator.py]

    [Translator.translate] runs the tokenizer and the model inside a [try]
    block and turns any exception into a [RuntimeError] whose message is
    [Translation error: ] followed by the message of that exception.  What
    the block does with the libraries (tokenize [text], generate at most
    [max_length] tokens, decode the first output) is [run_model]: it
    returns the decoded text or raises, and may change the state [TS] of
    the libraries. *)
Module Translator.
Section Translate.
Context {TS : Type} (run_model : TS -> pystr -> Z -> (exn + pystr) * TS).

Definition translate (max_length : Z) (ts : TS) (text : pystr)
    : (exn + pystr) * TS :=
  match run_model ts text max_length with
  | (inr translated_text, ts') => (inr translated_text, ts')
  | (inl e, ts') => (inl (py "Translation error: " ++ e), ts')
  end.

(** [translator.translate(text)], with the default [max_length = 512];
    [__call__] is the same. *)
Definition translate_default (ts : TS) (text : pystr)
    : (exn + pystr) * TS :=
  translate 512 ts text.

Definition call (ts : TS) (text : pystr) : (exn + pystr) * TS :=
  translate_default ts text.

End Translate.
End Translator.

(** ** [app/main.py]

    The page is drawn with Streamlit.  Of its calls, those that show
    progress, status, warnings and errors are kept as the list of events
    they leave, oldest first; the widgets that only lay out the page are
    left out, and none of them is taken to raise.  A progress bar takes an
    integer percentage ([st.progress(0)], [progress_bar.progress(100)]) or
    a float between 0 and 1. *)
Module Main.
Section App.
Context {F : Type} {num : PyFloat F}.

Inductive UiEvent :=
| BarPercent (percent : Z)
| BarFraction (value : F)
| BarEmpty
| StatusText (message : pystr)
| ErrorBox (message : pystr)
| WarningBox (message : pystr).

(** [update_progress], the callback [handle_pdf_translation] passes to
    [translate_pdf]. *)
Definition update_progress (progress : F) (message : pystr)
    : list UiEvent :=
  if (progress <? of_int 0)%py then [ErrorBox message; BarEmpty]
  else [BarFraction progress; StatusText message].

(** What the page shows for the events [translate_pdf] has reported. *)
Definition shown (events : list (F * pystr)) : list UiEvent :=
  concat ((fun ev : F * pystr => update_progress ev.1 ev.2) <$> events).

Context {TS : Type} (translate : TS -> pystr -> (exn + pystr) * TS).

(** The state the text tab works on: the translator, the calls of
    [translate] made so far with their outcomes, the events shown and
    [st.session_state.last_translation] ([None] while it is not set). *)
Record Session := {
  translator : TS;
  translated : list (pystr * (exn + pystr));
  screen : list UiEvent;
  last_translation : option pystr;
}.

Definition show_event (ev : UiEvent) (st : Session) : Session :=
  {| translator := translator st;
     translated := translated st;
     screen := screen st ++ [ev];
     last_translation := last_translation st |}.

(** The loop [for i, chunk in enumerate(chunks)] from index [i] on;
    [total] is [len(chunks)] and [translated_chunks] the list built so
    far.  An exception of [translate] leaves the loop at once. *)
Fixpoint translate_chunks (total i : Z) (chunks translated_chunks : list pystr)
    (st : Session) : (exn + list pystr) * Session :=
  match chunks with
  | [] => (inr translated_chunks, st)
  | chunk :: rest =>
      let '(outcome, ts) := translate (translator st) chunk in
      let st :=
        {| translator := ts;
           translated := translated st ++ [(chunk, outcome)];
           screen := screen st;
           last_translation := last_translation st |} in
      match outcome with
      | inl e => (inl e, st)
      | inr translated_chunk =>
          let translated_chunks := translated_chunks ++ [translated_chunk] in
          let st :=
            show_event (BarFraction (of_int (i + 1) / of_int total)%py) st in
          translate_chunks total (i + 1) rest translated_chunks st
      end
  end.

(** What [handle_text_translation] does when the button [Translate Text]
    is pressed with [input_text] in the text area. *)
Definition translate_text (input_text : pystr) (st : Session)
    : (exn + unit) * Session :=
  match input_text with
  | [] =>
      (inr tt,
       show_event (WarningBox (py "Please enter some text to translate")) st)
  | _ =>
      let cleaned_text := Utils.clean_text input_text in
      let chunks := Utils.split_text cleaned_text 512 in
      let st := show_event (BarPercent 0) st in
      match translate_chunks (len chunks) 0 chunks [] st with
      | (inl e, st) => (inl e, st)
      | (inr translated_chunks, st) =>
          let final_translation := join [space] translated_chunks in
          let st :=
            {| translator := translator st;
               translated := translated st;
               screen := screen st;
               last_translation := Some final_translation |} in
          (inr tt, show_event (BarPercent 100) st)
      end
  end.

End App.
End Main.

Arguments Main.UiEvent : clear implicits.
Arguments Main.Session : clear implicits.

(** ** Vocabulary of the statements *)

(** No character of [w] is whitespace. *)
Definition nospace (w : pystr) : bool :=
  forallb (fun c => negb (isspace c)) w.

(** A word: what [split] returns as one element. *)
Definition is_word (w : pystr) : Prop := w <> [] /\ nospace w = true.

(** The loop invariant of [split_text] once a first word has been taken
    without overflow: the sealed chunks are the joins of non-empty groups of
    words, and these groups followed by the open chunk are the words read so
    far, in order. *)
Definition split_inv (seen : list pystr) (st : list pystr * list pystr)
    : Prop :=
  let (chunks, cur) := st in
  exists groups : list (list pystr),
    Forall (fun g => g <> []) groups /\
    chunks = List.map (join [space]) groups /\
    concat groups ++ cur = seen /\
    cur <> [].

(** [s], read from a position that follows a whitespace character or
    starts the string ([after_space]), holds only single spaces between
    characters that are not whitespace, and does not end in a space. *)
Fixpoint spaced_from (after_space : bool) (s : pystr) : bool :=
  match s with
  | [] => negb after_space
  | c :: s' =>
      if isspace c
      then (c =? space)%N && negb after_space && spaced_from true s'
      else spaced_from false s'
  end.

(** Every whitespace character of [s] is a space (U+0020) that is neither
    first nor last nor next to another whitespace character. *)
Definition single_spaced (s : pystr) : bool :=
  match s with
  | [] => true
  | _ => spaced_from true s
  end.

(** [s] holds nothing but whitespace. *)
Definition blank (s : pystr) : bool := forallb isspace s.

(** The loop invariant of [split_text] after its first iteration, with the
    sizes: [groups] are the words of the sealed chunks and [cur] those of
    the open one; together they are the words [seen]; a group of more than
    one word fits in [max_length]; and no group fits together with the
    first word of the group after it. *)
Definition split_groups (max_length : Z) (seen : list pystr)
    (st : list pystr * list pystr) : Prop :=
  let (chunks, cur) := st in
  exists groups : list (list pystr),
    chunks = List.map (join [space]) groups /\
    concat groups ++ cur = seen /\
    Forall (fun g => g <> []) (groups ++ [cur]) /\
    Forall (fun g => len (join [space] g) <= max_length \/ length g = 1%nat)
      (groups ++ [cur]) /\
    Sorted (fun g h => max_length < len (join [space] (g ++ take 1 h)))
      (groups ++ [cur]).

(** The words [split_text] hands out when the text has the words [words]:
    all of them in order, the first one twice when it is longer than
    [max_length]. *)
Definition words_out (max_length : Z) (words : list pystr) : list pystr :=
  match words with
  | [] => []
  | w :: rest => if len w >? max_length then w :: w :: rest else w :: rest
  end.

(** A binary64 value, seen through its specification, that is NaN or
    carries the sign bit 0: it is not below zero. *)
Definition sf_pos (r : spec_float) : Prop :=
  match r with
  | S754_nan => True
  | S754_zero s | S754_infinity s | S754_finite s _ _ => s = false
  end.

Section Vocabulary.
Context {F : Type} {num : PyFloat F}.

(** A PDF without extractable text: the reader cannot parse it, or no
    visitor call of any page carries text that is not blank. *)
Definition no_runs (pdf : PdfFile F) : Prop :=
  match pdf with
  | Unparsable => True
  | Parsed pages =>
      Forall (fun page =>
                Forall (fun v => strip (v_text v) = []) (rp_visits page))
        pages
  end.

(** The runs of a document in the order the mapping stage visits them. *)
Definition all_runs (pages_content : list (Page F)) : list (TextRun F) :=
  concat (List.map p_content pages_content).

(** The y of the last [drawString] among [ops], if there is one. *)
Definition last_draw_y (ops : list (CanvasOp F)) : option F :=
  foldl (fun found op =>
           match op with
           | OpDrawString _ y _ => Some y
           | _ => found
           end) None ops.

(** The string the renderer resolves a run to:
    [translations.get(text, text)]. *)
Definition resolved (translations : gmap pystr pystr) (content : TextRun F)
    : pystr :=
  default (r_text content) (translations !! r_text content).

(** The fractions the stages of [translate_pdf] report when nothing fails,
    for a document of [total_items] runs. *)
Definition mapping_fractions (first count total_items : Z) : list F :=
  (fun k => mapping_progress k total_items) <$> seqZ first count.

Definition success_fractions (total_items : Z) : list F :=
  [lit 1 1; lit 2 1] ++ mapping_fractions 1 total_items total_items
    ++ [lit 8 1; lit 9 1; lit 10 1].

(** No element of [l] is below the one before it; each element is above
    the one before it. *)
Fixpoint ascending (l : list F) : bool :=
  match l with
  | a :: (b :: _) as rest => negb (b <? a)%py && ascending rest
  | _ => true
  end.

Fixpoint strictly_ascending (l : list F) : bool :=
  match l with
  | a :: (b :: _) as rest => (a <? b)%py && strictly_ascending rest
  | _ => true
  end.

(** A fraction one of the stages reports. *)
Definition stage_fraction (total_items : Z) (f : F) : Prop :=
  f ∈ [lit 1 1; lit 2 1; lit 8 1; lit 9 1; lit 10 1] \/
  exists k, 1 <= k <= total_items /\ f = mapping_progress k total_items.

(** The calls of [translate] made between two states. *)
Definition new_calls {TS} (s s' : Eff F TS)
    : list (pystr * (exn + pystr)) :=
  drop (length (calls s)) (calls s').

(** The progress events reported between two states. *)
Definition new_progress {TS} (s s' : Eff F TS) : list (F * pystr) :=
  drop (length (progress s)) (progress s').

(** [translate] was called exactly once on each text of [texts]. *)
Definition invoked_once_each (texts : list pystr)
    (new : list (pystr * (exn + pystr))) : Prop :=
  forall text, text ∈ texts ->
    length (filter (fun call => call.1 = text) new) = 1%nat.

(** What holds of the calls [new] of the mapping loop whether or not it
    fails: no text was passed to [translate] twice, and every text passed
    is the text of one of the runs [seen]. *)
Definition calls_inv (seen : list pystr)
    (new : list (pystr * (exn + pystr))) : Prop :=
  NoDup new.*1 /\ (forall text outcome, (text, outcome) ∈ new -> text ∈ seen).

(** One of the calls [new] of [translate] raised. *)
Definition raised (new : list (pystr * (exn + pystr))) : Prop :=
  exists text e, (text, inl e) ∈ new.

(** Every call among [new] returned. *)
Definition all_returned (new : list (pystr * (exn + pystr))) : Prop :=
  forall text outcome, (text, outcome) ∈ new -> exists r, outcome = inr r.

(** The strings drawn on a canvas, with their positions, oldest first. *)
Definition drawn_strings (c : Canvas F) : list (F * F * pystr) :=
  omap (fun op =>
          match op with
          | OpDrawString x y text => Some (x, y, text)
          | _ => None
          end) c.

(** What the mapping loop maintains, [new] being the calls made since it
    started and [seen] the texts of the runs it has gone through: no text
    was translated twice, every call returned, the calls are on texts of
    runs, and the dictionary holds exactly what the calls returned. *)
Definition map_inv (seen : list pystr)
    (new : list (pystr * (exn + pystr)))
    (translations : gmap pystr pystr) : Prop :=
  NoDup new.*1 /\
  (forall text outcome, (text, outcome) ∈ new ->
     text ∈ seen /\ text <> [] /\ exists r, outcome = inr r) /\
  (forall text r, translations !! text = Some r <-> (text, inr r) ∈ new) /\
  (forall text, text ∈ seen -> text <> [] -> text ∈ new.*1).

(** What a stretch of the mapping loop over [count] runs does, from state
    [s] with [items_processed = k] to state [s'] with result [res]:
    [calls0] are the calls made before the mapping started and [seen] the
    texts of the runs gone through by the end of the stretch.  It reports
    one fraction per run it completes, [m] of them. *)
Definition mapping_post {TS} (has_callback : bool) (total_items : Z)
    (calls0 : list (pystr * (exn + pystr))) (seen : list pystr)
    (k count : Z) (s : Eff F TS) (res : exn + gmap pystr pystr * Z)
    (s' : Eff F TS) : Prop :=
  exists new m evs,
    calls s' = calls0 ++ new /\
    files s' = files s /\
    progress s' = progress s ++ evs /\
    evs.*1 = (if has_callback
              then mapping_fractions (k + 1) m total_items
              else []) /\
    0 <= m <= count /\
    match res with
    | inr (translations, k') =>
        m = count /\ k' = k + m /\ map_inv seen new translations
    | inl e => calls_inv seen new /\ raised new
    end.

End Vocabulary.

(** The order of the extractor's sort key [(-y, x)] on exact numbers:
    [a] may come before [b] when it is higher on the page, or as high and
    not further right. *)
Definition reading_order (a b : TextRun Q) : Prop :=
  (r_y b < r_y a)%Q \/ (r_y a == r_y b /\ r_x a <= r_x b)%Q.

Section RenderVocabulary.
Context {F : Type} {num : PyFloat F}.

(** The number of [showPage] calls among [c]: the pages of the document
    the canvas holds. *)
Definition page_breaks (c : Canvas F) : nat :=
  length (List.filter (fun op => match op with
                                 | OpShowPage => true
                                 | _ => false
                                 end) c).

(** A page of the input on which some text operation shows more than
    whitespace. *)
Definition has_text (page : RawPage F) : bool :=
  existsb (fun v => negb (bool_decide (strip (v_text v) = [])))
    (rp_visits page).

(** The y coordinates of the strings drawn on a canvas, oldest first. *)
Definition drawn_ys (c : Canvas F) : list F :=
  (fun p : F * F * pystr => p.1.2) <$> drawn_strings c.

End RenderVocabulary.

Section TraceVocabulary.
Context {F : Type} {num : PyFloat F}.

(** The runs of a document, each with the page it is on, in the order in
    which the mapping stage visits them. *)
Definition runs_with_pages (pages_content : list (Page F))
    : list (Page F * TextRun F) :=
  pg ← pages_content; (fun run => (pg, run)) <$> p_content pg.

(** The texts among [texts] that are not empty, each the first time it
    occurs and unless it is among [seen]. *)
Fixpoint distinct_from (seen texts : list pystr) : list pystr :=
  match texts with
  | [] => []
  | text :: rest =>
      if bool_decide (text = []) || bool_decide (text ∈ seen)
      then distinct_from seen rest
      else text :: distinct_from (seen ++ [text]) rest
  end.

Definition first_occurrences (texts : list pystr) : list pystr :=
  distinct_from [] texts.

(** The message reported with the progress of a run on page
    [page_number]. *)
Definition page_message (page_number : Z) : pystr :=
  py "Translating page " ++ str_of_int page_number ++ py "...".

(** The events of the mapping stage for runs on the pages [page_numbers],
    after [items_processed] runs of [total_items]. *)
Fixpoint mapping_events (total_items items_processed : Z)
    (page_numbers : list Z) : list (F * pystr) :=
  match page_numbers with
  | [] => []
  | n :: rest =>
      (mapping_progress (items_processed + 1) total_items, page_message n)
        :: mapping_events total_items (items_processed + 1) rest
  end.

(** Everything a run of [translate_pdf] reports when nothing fails. *)
Definition success_events (pages_content : list (Page F))
    : list (F * pystr) :=
  [(lit 1 1, py "Extracting text from PDF...");
   (lit 2 1, py "Translating text...")]
    ++ mapping_events (len (all_runs pages_content)) 0
         ((fun pr : Page F * TextRun F => p_page_number pr.1)
            <$> runs_with_pages pages_content)
    ++ [(lit 8 1, py "Creating translated PDF...");
        (lit 9 1, py "Saving translated PDF...");
        (lit 10 1, py "Translation complete!")].

(** Every call among [new] is recorded with the outcome [translate] gave
    on its text, in some state of the translator. *)
Definition genuine {TS} (translate : TS -> pystr -> (exn + pystr) * TS)
    (new : list (pystr * (exn + pystr))) : Prop :=
  forall text outcome, (text, outcome) ∈ new ->
    exists ts ts', translate ts text = (outcome, ts').

End TraceVocabulary.

Section DrawVocabulary.
Context {F : Type} {num : PyFloat F}.

(** A run the page loop draws when the canvas accepts its calls: its text
    is not empty, and what it resolves to is not empty and can be encoded
    as UTF-8. *)
Definition drawable (translations : gmap pystr pystr) (run : TextRun F)
    : bool :=
  negb (bool_decide (r_text run = []))
  && negb (bool_decide (resolved translations run = []))
  && utf8_encodable (resolved translations run).

(** The console can show what the page loop prints about a run it does
    not draw: the text of the run and what it resolves to. *)
Definition shows (env : Env F) (translations : gmap pystr pystr)
    (run : TextRun F) : bool :=
  stdout_accepts env (r_text run)
  && stdout_accepts env (resolved translations run).

(** The runs of a document in the order in which the renderer goes
    through them: page after page, each page by descending y. *)
Definition render_order (pages_content : list (Page F)) : list (TextRun F) :=
  pg ← pages_content; sorted render_key_lt (p_content pg).

End DrawVocabulary.

Section CallbackVocabulary.
Context {F TS : Type}.

(** Two states that differ at most in the progress events. *)
Definition same_but_progress (s1 s2 : Eff F TS) : Prop :=
  calls s1 = calls s2 /\ tstate s1 = tstate s2 /\ files s1 = files s2.

(** Two computations that, from such states, end with the same result in
    such states. *)
Definition alike {A} (m1 m2 : Eff F TS -> (exn + A) * Eff F TS) : Prop :=
  forall s1 s2, same_but_progress s1 s2 ->
    (m1 s1).1 = (m2 s2).1 /\ same_but_progress (m1 s1).2 (m2 s2).2.

End CallbackVocabulary.

Section FontVocabulary.
Context {F : Type} {num : PyFloat F}.

(** The fonts set by a stretch of canvas calls [ops] are [font_name] at
    1.2 times the size of one of [runs]. *)
Definition fonts_from (font_name : pystr) (runs : list (TextRun F))
    (ops : list (CanvasOp F)) : Prop :=
  forall name size, OpSetFont name size ∈ ops ->
    name = font_name /\
    exists run, run ∈ runs /\ size = (r_fontSize run * lit 12 1)%py.

End FontVocabulary.

(** ** Documents, translators and environments of the examples

    All of them at [binary64], the arithmetic the program runs. *)

(** A text operation showing [text] at [(x, y)] in a 12 point font. *)
Definition show (text : pystr) (x y : float) : VisitorCall float :=
  {| v_text := text; v_tm4 := x; v_tm5 := y;
     v_fontDict := Some (Some (py "/Helvetica"));
     v_fontSize := 12%float |}.

(** An A4 page with the given text operations. *)
Definition a4 (ops : list (VisitorCall float)) : RawPage float :=
  {| rp_width := 595%float; rp_height := 842%float; rp_rotate := None;
     rp_visits := ops; rp_raises := false |}.

(** The page of the test suite: [Hello, World!] at [(100, 750)]. *)
Definition hello_page : RawPage float :=
  a4 [show (py "Hello, World!") 100%float 750%float].

(** A page whose only text operation shows blanks. *)
Definition blank_page : RawPage float :=
  a4 [show (py "   ") 100%float 750%float].

(** Four pages, the first and the third without text. *)
Definition gappy_pdf : PdfFile float :=
  Parsed [blank_page; hello_page; blank_page; hello_page].

(** The encoding of a UTF-8 console: every code point but the
    surrogates. *)
Definition utf8_console (ch : N) : bool := utf8_encodable [ch].

(** An environment in which nothing fails: every canvas call is accepted,
    the buffer is not empty, the font file is missing (so Helvetica is
    used), the console is a UTF-8 one, [pdf] is what every path opens to
    and every write succeeds. *)
Definition calm_env (pdf : PdfFile float) : Env float :=
  {| canvas_raises := fun _ _ => false;
     getvalue := fun _ => [Byte.x25; Byte.x50; Byte.x44; Byte.x46];
     nyala := FontMissing;
     stdout_encodes := utf8_console;
     open_rb := fun _ => inr pdf;
     write_wb := fun _ _ => None;
     left_wb := fun _ _ => None |}.

(** [calm_env] with the output redirected to a [StringIO], which takes
    every string, as [main.py] does around [translate_pdf]. *)
Definition redirected_env (pdf : PdfFile float) : Env float :=
  {| canvas_raises := fun _ _ => false;
     getvalue := fun _ => [Byte.x25; Byte.x50; Byte.x44; Byte.x46];
     nyala := FontMissing;
     stdout_encodes := fun _ => true;
     open_rb := fun _ => inr pdf;
     write_wb := fun _ _ => None;
     left_wb := fun _ _ => None |}.

(** [calm_env] with a disk that is full: the output file is created, and
    the write raises before any byte reaches it. *)
Definition full_disk_env (pdf : PdfFile float) : Env float :=
  {| canvas_raises := fun _ _ => false;
     getvalue := fun _ => [Byte.x25; Byte.x50; Byte.x44; Byte.x46];
     nyala := FontMissing;
     stdout_encodes := utf8_console;
     open_rb := fun _ => inr pdf;
     write_wb := fun _ _ => Some (py "[Errno 28] No space left on device");
     left_wb := fun _ _ => Some 0%nat |}.

(** A translator without state that answers [text] by [text] followed by
    an exclamation mark, and one that raises on every call. *)
Definition shout (ts : unit) (text : pystr) : (exn + pystr) * unit :=
  (inr (text ++ py "!"), ts).

Definition broken (ts : unit) (text : pystr) : (exn + pystr) * unit :=
  (inl (py "model not loaded"), ts).

(** The state before [translate_pdf] is called. *)
Definition fresh : Eff float unit :=
  {| progress := []; calls := []; tstate := tt; files := [] |}.

(** One page with the two runs [a] and [b]. *)
Definition ab_pdf : PdfFile float :=
  Parsed [a4 [show (py "a") 100%float 750%float;
              show (py "b") 100%float 700%float]].

(** One page with two runs one unit apart: [first] at y = 751 and [second]
    at y = 750. *)
Definition close_pdf : PdfFile float :=
  Parsed [a4 [show (py "second") 100%float 750%float;
              show (py "first") 100%float 751%float]].

(** Two pages: [bad] above [good] on the first, [next] on the second. *)
Definition bad_good_pdf : PdfFile float :=
  Parsed [a4 [show (py "bad") 100%float 750%float;
              show (py "good") 100%float 700%float];
          a4 [show (py "next") 100%float 750%float]].

(** One page with 109 runs, all showing [a]. *)
Definition long_pdf : PdfFile float :=
  Parsed [a4 (replicate 109 (show (py "a") 100%float 750%float))].

(** A run of 12 point text at [(100, y)] on an A4 page, and an environment
    whose canvas accepts every call, both over the rationals. *)
Definition line_at (text : pystr) (y : Q) : TextRun Q :=
  {| r_text := text; r_x := 100%Q; r_y := y; r_fontSize := 12%Q;
     r_font := py "Helvetica"; r_rotation := 0%Q; r_width := 595%Q;
     r_height := 842%Q |}.

Definition plain_env : Env Q :=
  {| canvas_raises := fun _ _ => false;
     getvalue := fun _ => [Byte.x25; Byte.x50; Byte.x44; Byte.x46];
     nyala := FontMissing;
     stdout_encodes := utf8_console;
     open_rb := fun _ => inr Unparsable;
     write_wb := fun _ _ => None;
     left_wb := fun _ _ => None |}.

(** Two pages whose runs, in reading order, are [a], [b] and [a], [c]. *)
Definition abac_pdf : PdfFile float :=
  Parsed [a4 [show (py "b") 100%float 700%float;
              show (py "a") 100%float 750%float];
          a4 [show (py "a") 100%float 750%float;
              show (py "c") 100%float 700%float]].

(** A model that raises on every call. *)
Definition out_of_memory (ts : unit) (text : pystr) (max_length : Z)
    : (exn + pystr) * unit :=
  (inl (py "CUDA out of memory"), ts).

(** A translator that returns the text it is given. *)
Definition echo (ts : unit) (text : pystr) : (exn + pystr) * unit :=
  (inr text, ts).

(** The text tab before anything has been translated, at [binary64]. *)
Definition fresh_session : Main.Session float unit :=
  {| Main.translator := tt; Main.translated := []; Main.screen := [];
     Main.last_translation := None |}.

(** The document of the test suite: one page showing [Hello, World!]. *)
Definition hello_page_pdf : PdfFile float := Parsed [hello_page].

(* ===================================================================== *)
(** * Part II: properties *)
(* ===================================================================== *)

(** ** Strings: [split] and [join] *)

Lemma nospace_app (u v : pystr) :
  nospace (u ++ v) = nospace u && nospace v.
Proof. unfold nospace. apply forallb_app. Qed.

Lemma split_from_nospace (w cur rest : pystr) :
  nospace w = true ->
  split_from cur (w ++ rest) = split_from (cur ++ w) rest.
Proof.
  revert cur. induction w as [|c w IH]; intros cur Hw; simpl.
  - now rewrite app_nil_r.
  - simpl in Hw. apply andb_prop in Hw as [Hc Hw].
    apply negb_true_iff in Hc. rewrite Hc, IH by assumption.
    now rewrite <- app_assoc.
Qed.

Lemma split_from_words (s cur : pystr) :
  cur = [] \/ is_word cur -> Forall is_word (split_from cur s).
Proof.
  revert cur. induction s as [|c s IH]; intros cur Hcur; simpl.
  - destruct cur; [constructor|].
    destruct Hcur as [?|?]; [discriminate|].
    constructor; [assumption|constructor].
  - destruct (isspace c) eqn:Hc.
    + destruct cur as [|d cur]; [auto|].
      destruct Hcur as [?|?]; [discriminate|]. constructor; auto.
    + apply IH. right. split.
      * now destruct cur.
      * rewrite nospace_app. simpl. rewrite Hc. simpl.
        destruct Hcur as [->|[_ ->]]; reflexivity.
Qed.

Lemma split_words (s : pystr) : Forall is_word (split s).
Proof. apply split_from_words. now left. Qed.

Lemma split_single (w : pystr) : is_word w -> split w = [w].
Proof.
  intros [Hne Hw]. unfold split.
  rewrite <- (app_nil_r w) at 1. rewrite split_from_nospace by assumption.
  simpl. now destruct w.
Qed.

Lemma split_join (ws : list pystr) :
  Forall is_word ws -> split (join [space] ws) = ws.
Proof.
  induction ws as [|w ws IH]; intros Hws; [reflexivity|].
  inversion Hws as [|? ? Hw Hrest]; subst.
  destruct ws as [|w' ws]; [now apply split_single|].
  change (join [space] (w :: w' :: ws))
    with (w ++ [space] ++ join [space] (w' :: ws)).
  unfold split. destruct Hw as [Hne Hw].
  rewrite split_from_nospace by assumption. simpl app at 1.
  change (split_from w ([space] ++ join [space] (w' :: ws)))
    with (split_from w (space :: join [space] (w' :: ws))).
  cbn [split_from]. change (isspace space) with true. cbv iota.
  destruct w as [|c w]; [congruence|].
  f_equal. now apply IH.
Qed.

(** C8. For every input string [t], [clean_text (clean_text t)] equals
    [clean_text t]: normalization is idempotent. *)
Theorem clean_text_idempotent (t : pystr) :
  Utils.clean_text (Utils.clean_text t) = Utils.clean_text t.
Proof.
  unfold Utils.clean_text. now rewrite split_join by apply split_words.
Qed.

Example split_example :
  split (py "  Hello,   World! ") = [py "Hello,"; py "World!"].
Proof. reflexivity. Qed.

Example split_text_example :
  Utils.split_text (py "aa bb cc dd") 5 = [py "aa bb"; py "cc dd"].
Proof. reflexivity. Qed.

Example split_text_long_later :
  Utils.split_text (py "a bbbbb c") 3 = [py "a"; py "bbbbb"; py "c"].
Proof. reflexivity. Qed.

(** ** [split_text] *)

Lemma join_app (sep : pystr) (a b : list pystr) :
  a <> [] -> b <> [] ->
  join sep (a ++ b) = join sep a ++ sep ++ join sep b.
Proof.
  induction a as [|x a IH]; intros Ha Hb; [congruence|].
  destruct a as [|y a].
  - simpl. now destruct b.
  - change (join sep ((x :: y :: a) ++ b))
      with (x ++ sep ++ join sep ((y :: a) ++ b)).
    rewrite IH by congruence.
    change (join sep (x :: y :: a)) with (x ++ sep ++ join sep (y :: a)).
    now rewrite <- !app_assoc.
Qed.

Lemma join_concat (sep : pystr) (groups : list (list pystr)) :
  Forall (fun g => g <> []) groups ->
  join sep (List.map (join sep) groups) = join sep (concat groups).
Proof.
  induction groups as [|g groups IH]; intros Hg; [reflexivity|].
  inversion Hg as [|? ? Hne Hrest]; subst.
  destruct groups as [|g' groups].
  - simpl. now rewrite app_nil_r.
  - change (join sep (List.map (join sep) (g :: g' :: groups)))
      with (join sep g ++ sep ++ join sep (List.map (join sep) (g' :: groups))).
    rewrite IH by assumption.
    change (concat (g :: g' :: groups)) with (g ++ concat (g' :: groups)).
    rewrite join_app; [reflexivity|assumption|].
    inversion Hrest; subst. simpl. now destruct g'.
Qed.

Lemma split_step_inv (max_length : Z) (seen : list pystr)
    (st : list pystr * list pystr) (word : pystr) :
  split_inv seen st ->
  split_inv (seen ++ [word]) (Utils.split_step max_length st word).
Proof.
  destruct st as [chunks cur]. intros (groups & Hg & -> & <- & Hcur).
  unfold Utils.split_step.
  destruct (len (join [space] (cur ++ [word])) >? max_length).
  - assert (Hlen : (len (cur ++ [word]) >? 1) = true).
    { unfold len. rewrite length_app. simpl. destruct cur; [congruence|].
      simpl. apply Z.gtb_lt. lia. }
    rewrite Hlen, removelast_last.
    exists (groups ++ [cur]). repeat split.
    + apply Forall_app. split; [assumption|]. now constructor.
    + now rewrite List.map_app.
    + rewrite concat_app. simpl. now rewrite app_nil_r, <- app_assoc.
    + congruence.
  - exists groups. repeat split; try assumption.
    + now rewrite app_assoc.
    + now destruct cur.
Qed.

Lemma split_fold_inv (max_length : Z) (words seen : list pystr)
    (st : list pystr * list pystr) :
  split_inv seen st ->
  split_inv (seen ++ words) (fold_left (Utils.split_step max_length) words st).
Proof.
  revert seen st. induction words as [|w words IH]; intros seen st Hst; simpl.
  - now rewrite app_nil_r.
  - replace (seen ++ w :: words) with ((seen ++ [w]) ++ words)
      by now rewrite <- app_assoc.
    apply IH. now apply split_step_inv.
Qed.

(** The chunks give the cleaned text back as soon as the first word fits:
    a later word longer than [max_length] still ends up in one chunk of its
    own. *)
Lemma split_text_roundtrip_head (t : pystr) (max_length : Z) :
  match split t with
  | [] => True
  | w :: _ => len w <= max_length
  end ->
  join [space] (Utils.split_text t max_length) = Utils.clean_text t.
Proof.
  unfold Utils.split_text, Utils.clean_text.
  destruct (split t) as [|w words]; [reflexivity|]. intros Hw.
  assert (Hfirst : Utils.split_step max_length ([], []) w = ([], [w])).
  { unfold Utils.split_step. cbn [app join].
    destruct (len w >? max_length) eqn:Hgt; [|reflexivity].
    apply Z.gtb_lt in Hgt. lia. }
  cbn [fold_left]. rewrite Hfirst.
  pose proof (split_fold_inv max_length words [w] ([], [w])) as Hinv.
  destruct (fold_left _ words _) as [chunks cur].
  destruct Hinv as (groups & Hg & -> & Heq & Hcur).
  { exists []. repeat split; [constructor|congruence]. }
  destruct cur as [|c cur]; [congruence|].
  change ([w] ++ words) with (w :: words) in Heq. rewrite <- Heq.
  replace (List.map (join [space]) groups ++ [join [space] (c :: cur)])
    with (List.map (join [space]) (groups ++ [c :: cur]))
    by now rewrite List.map_app.
  rewrite join_concat.
  - rewrite concat_app. simpl concat. now rewrite app_nil_r.
  - apply Forall_app. split; [assumption|]. now constructor.
Qed.

(** C1. For every text [t] and every [max_length > 0], when no word of [t]
    is longer than [max_length] (the case the claim sets aside), the chunks
    of [split_text t max_length] joined with single spaces are
    [clean_text t]. *)
Theorem split_text_roundtrip (t : pystr) (max_length : Z) :
  0 < max_length ->
  Forall (fun w => len w <= max_length) (split t) ->
  join [space] (Utils.split_text t max_length) = Utils.clean_text t.
Proof.
  intros _ Hall. apply split_text_roundtrip_head.
  destruct (split t); [exact I|]. now inversion Hall.
Qed.

Lemma split_text_roundtrip_witness :
  join [space] (Utils.split_text (py " aa  bb cc dd ") 5)
  = Utils.clean_text (py " aa  bb cc dd ").
Proof.
  apply (split_text_roundtrip (py " aa  bb cc dd ") 5); [lia|].
  vm_compute. repeat constructor; discriminate.
Defined.

(** A text made of one word longer than [max_length] comes out as that
    word twice: the overflow branch seals the chunk holding the word and
    then opens the next chunk with the same word. *)
Lemma long_first_word_twice (t w : pystr) (max_length : Z) :
  split t = [w] -> len w > max_length ->
  Utils.split_text t max_length = [w; w].
Proof.
  intros Ht Hw. unfold Utils.split_text. rewrite Ht. cbn [fold_left].
  unfold Utils.split_step. cbn [app join].
  destruct (len w >? max_length) eqn:Hgt.
  - reflexivity.
  - rewrite Z.gtb_ltb in Hgt. apply Z.ltb_ge in Hgt. lia.
Qed.

(** C2 (failing input). On the text [aaaaa] with [max_length = 3], and on
    a word of 513 letters with the default [max_length = 512], the one
    word, longer than the limit, is emitted as two chunks and not as one. *)
Theorem split_text_long_first :
  Utils.split_text (py "aaaaa") 3 = [py "aaaaa"; py "aaaaa"] /\
  Utils.split_text (replicate 513 97%N) 512
  = [replicate 513 97%N; replicate 513 97%N].
Proof. split; vm_compute; reflexivity. Qed.

(** ** [extract_text_with_positions] *)

Section Extraction.
Context {F : Type} {num : PyFloat F}.

Lemma visitor_body_blank (rotation w h : F) (acc : list (TextRun F))
    (v : VisitorCall F) :
  strip (v_text v) = [] -> visitor_body rotation w h acc v = acc.
Proof. unfold visitor_body. now intros ->. Qed.

Lemma visitor_body_text (rotation w h : F) (acc : list (TextRun F))
    (v : VisitorCall F) :
  strip (v_text v) <> [] ->
  exists run, visitor_body rotation w h acc v = acc ++ [run] /\
              r_text run = strip (v_text v).
Proof.
  unfold visitor_body. intros Hne.
  destruct (strip (v_text v)) as [|c s] eqn:Hs; [congruence|].
  eexists. split; [reflexivity|]. reflexivity.
Qed.

(** The runs collected on a page extend what was collected before, and
    every collected run carries a text that is not empty. *)
Lemma visits_fold (rotation w h : F) (visits : list (VisitorCall F))
    (acc : list (TextRun F)) :
  exists runs,
    foldl (visitor_body rotation w h) acc visits = acc ++ runs /\
    Forall (fun run => r_text run <> []) runs /\
    (Forall (fun v => strip (v_text v) = []) visits -> runs = []).
Proof.
  revert acc. induction visits as [|v visits IH]; intros acc; simpl.
  - exists []. rewrite app_nil_r. repeat split; auto.
  - destruct (strip (v_text v)) as [|c s] eqn:Hs.
    + rewrite visitor_body_blank by assumption.
      destruct (IH acc) as (runs & -> & Hne & Hblank).
      exists runs. repeat split; auto.
      intros Hall. apply Hblank. now inversion Hall.
    + destruct (visitor_body_text rotation w h acc v) as (run & -> & Htext);
        [congruence|].
      destruct (IH (acc ++ [run])) as (runs & -> & Hne & _).
      exists (run :: runs). rewrite <- app_assoc. repeat split; auto.
      * constructor; [congruence|assumption].
      * intros Hall. inversion Hall; congruence.
Qed.

Lemma insert_sorted_elem {A} (lt : A -> A -> bool) (a b : A) (l : list A) :
  b ∈ insert_sorted lt a l <-> b = a \/ b ∈ l.
Proof.
  induction l as [|c l IH]; simpl.
  - apply elem_of_cons.
  - destruct (lt c a).
    + rewrite !elem_of_cons, IH. tauto.
    + apply elem_of_cons.
Qed.

Lemma sorted_elem {A} (lt : A -> A -> bool) (b : A) (l : list A) :
  b ∈ sorted lt l <-> b ∈ l.
Proof.
  induction l as [|a l IH]; simpl; [reflexivity|].
  rewrite insert_sorted_elem, IH, elem_of_cons. tauto.
Qed.

Lemma sorted_nil {A} (lt : A -> A -> bool) (l : list A) :
  sorted lt l = [] -> l = [].
Proof.
  destruct l as [|a l]; [reflexivity|]. intros Hnil.
  assert (Hin : a ∈ sorted lt (a :: l)) by (apply sorted_elem; left).
  rewrite Hnil in Hin. inversion Hin.
Qed.

Lemma extract_page_blank (page_num : Z) (page : RawPage F) :
  Forall (fun v => strip (v_text v) = []) (rp_visits page) ->
  extract_page page_num page = None.
Proof.
  intros Hall. unfold extract_page.
  destruct (visits_fold (default (of_int 0) (rp_rotate page)) (rp_width page)
              (rp_height page) (rp_visits page) []) as (runs & -> & _ & Hb).
  now rewrite (Hb Hall).
Qed.

Lemma extract_page_runs (page_num : Z) (page : RawPage F) (pg : Page F) :
  extract_page page_num page = Some pg ->
  p_page_number pg = page_num + 1 /\
  p_content pg <> [] /\
  Forall (fun run => r_text run <> []) (p_content pg).
Proof.
  unfold extract_page.
  destruct (visits_fold (default (of_int 0) (rp_rotate page)) (rp_width page)
              (rp_height page) (rp_visits page) []) as (runs & -> & Hne & _).
  rewrite app_nil_l. destruct runs as [|run runs]; [discriminate|].
  intros [= <-]. cbn [p_page_number p_content]. repeat split.
  - intros Hnil.
    now apply (sorted_nil extract_key_lt (run :: runs)) in Hnil.
  - apply Forall_forall. intros r Hr.
    apply (sorted_elem extract_key_lt r (run :: runs)) in Hr.
    rewrite Forall_forall in Hne. now apply Hne.
Qed.

(** The page loop returns what it was given followed by the pages that
    have runs, each made by [extract_page] at its index. *)
Lemma extract_loop_elem (pages : list (RawPage F)) (page_num : Z)
    (acc res : list (Page F)) (pg : Page F) :
  extract_loop page_num pages acc = inr res ->
  pg ∈ res ->
  pg ∈ acc \/
  exists (i : nat) (page : RawPage F),
    pages !! i = Some page /\
    extract_page (page_num + Z.of_nat i) page = Some pg.
Proof.
  revert page_num acc. induction pages as [|page pages IH];
    intros page_num acc; simpl.
  - intros [= <-] Hin. now left.
  - destruct (rp_raises page); [discriminate|]. intros Hloop Hin.
    destruct (IH _ _ Hloop Hin) as [Hacc|(i & page' & Hi & Hp)].
    + destruct (extract_page page_num page) as [p|] eqn:Hpage.
      * apply elem_of_app in Hacc as [?|Hp]; [now left|].
        apply list_elem_of_singleton in Hp as ->. right.
        exists 0%nat, page. split; [reflexivity|].
        now rewrite Z.add_0_r.
      * now left.
    + right. exists (S i), page'. split; [assumption|].
      rewrite <- Hp. f_equal. lia.
Qed.

Lemma extract_loop_blank (pages : list (RawPage F)) (page_num : Z)
    (acc : list (Page F)) :
  Forall (fun page =>
            Forall (fun v => strip (v_text v) = []) (rp_visits page)) pages ->
  extract_loop page_num pages acc = inr acc \/
  exists e, extract_loop page_num pages acc = inl e.
Proof.
  revert page_num. induction pages as [|page pages IH]; intros page_num Hall;
    simpl.
  - now left.
  - inversion Hall as [|? ? Hpage Hrest]; subst.
    destruct (rp_raises page); [right; eauto|].
    rewrite extract_page_blank by assumption. now apply IH.
Qed.

Lemma no_runs_extract (pdf : PdfFile F) :
  no_runs pdf -> extract_text_with_positions pdf = [].
Proof.
  destruct pdf as [|pages]; [reflexivity|]. simpl. intros Hall.
  destruct (extract_loop_blank pages 0 [] Hall) as [->|[e ->]]; reflexivity.
Qed.

Lemma extract_elem (pages : list (RawPage F)) (pg : Page F) :
  pg ∈ extract_text_with_positions (Parsed pages) ->
  exists (i : nat) (page : RawPage F),
    pages !! i = Some page /\ extract_page (Z.of_nat i) page = Some pg.
Proof.
  simpl. destruct (extract_loop 0 pages []) as [e|res] eqn:Hloop;
    [intros Hin; inversion Hin|].
  intros Hin.
  destruct (extract_loop_elem _ _ _ _ _ Hloop Hin) as [Hnil|?];
    [inversion Hnil|assumption].
Qed.

Lemma elem_of_all_runs (pages_content : list (Page F)) (run : TextRun F) :
  run ∈ all_runs pages_content <->
  exists pg, pg ∈ pages_content /\ run ∈ p_content pg.
Proof.
  unfold all_runs. rewrite list_elem_of_In, in_concat. split.
  - intros (content & Hcontent & Hrun).
    apply in_map_iff in Hcontent as (pg & <- & Hpg).
    exists pg. now rewrite !list_elem_of_In.
  - intros (pg & Hpg & Hrun). exists (p_content pg).
    rewrite in_map_iff. split; [|now apply list_elem_of_In].
    exists pg. split; [reflexivity|now apply list_elem_of_In].
Qed.

(** Every run the extractor returns has a text that is not empty. *)
Lemma extract_texts_nonempty (pdf : PdfFile F) :
  Forall (fun run => r_text run <> [])
    (all_runs (extract_text_with_positions pdf)).
Proof.
  apply Forall_forall. intros run Hrun.
  apply elem_of_all_runs in Hrun as (pg & Hpg & Hrun).
  destruct pdf as [|pages]; [inversion Hpg|].
  apply extract_elem in Hpg as (i & page & _ & Hpage).
  apply extract_page_runs in Hpage as (_ & _ & Hne).
  rewrite Forall_forall in Hne. now apply Hne.
Qed.

End Extraction.

(** C10. Each page returned by [extract_text_with_positions] comes from the
    page of the document at some 0-based index [i] and carries
    [page_number = i + 1]; a page of the document without runs has no page
    of that number in the result, so the numbers returned can skip values
    and need not start at 1, as for [gappy_pdf], which yields pages 2 and
    4. *)
Theorem page_number_is_document_index :
  (forall F (num : PyFloat F) (pages : list (RawPage F)) (pg : Page F),
      pg ∈ extract_text_with_positions (Parsed pages) ->
      exists (i : nat) (page : RawPage F),
        pages !! i = Some page /\
        extract_page (Z.of_nat i) page = Some pg /\
        p_page_number pg = Z.of_nat i + 1) /\
  (forall F (num : PyFloat F) (pages : list (RawPage F)) (i : nat)
          (page : RawPage F) (pg : Page F),
      pages !! i = Some page ->
      Forall (fun v => strip (v_text v) = []) (rp_visits page) ->
      pg ∈ extract_text_with_positions (Parsed pages) ->
      p_page_number pg <> Z.of_nat i + 1) /\
  p_page_number <$> extract_text_with_positions gappy_pdf = [2; 4].
Proof.
  split; [|split].
  - intros F num pages pg Hpg.
    destruct (extract_elem pages pg Hpg) as (i & page & Hi & Hpage).
    exists i, page. repeat split; try assumption.
    now apply extract_page_runs in Hpage as (-> & _).
  - intros F num pages i page pg Hi Hblank Hpg Hnum.
    destruct (extract_elem pages pg Hpg) as (j & page' & Hj & Hpage).
    pose proof (extract_page_runs _ _ _ Hpage) as (Hnum' & _).
    assert (j = i) as -> by lia.
    assert (page' = page) as -> by congruence.
    rewrite extract_page_blank in Hpage by assumption. discriminate.
  - vm_compute. reflexivity.
Qed.

(** ** Loops that an exception can leave *)

Section Loops.
Context {S A : Type} (body : S -> A -> Ended S).

(** What holds of the state before a loop and is kept by every run of the
    body holds of the state after the loop, however the loop is left. *)
Lemma for_each_inv (I : S -> Prop) (l : list A) (s : S) :
  I s ->
  (forall s0 a, a ∈ l -> I s0 -> I (state_of (body s0 a))) ->
  I (state_of (for_each body l s)).
Proof.
  revert s. induction l as [|a l IH]; intros s Hs Hstep; [exact Hs|].
  cbn [for_each].
  assert (Ha : I (state_of (body s a))) by (apply Hstep; [left|exact Hs]).
  destruct (body s a) as [s'|s']; [|exact Ha].
  apply IH; [exact Ha|]. intros s0 a0 Hin. apply Hstep. now right.
Qed.

End Loops.

(** ** The console *)

Lemma stdout_accepts_app {F} (env : Env F) (a b : pystr) :
  stdout_accepts env (a ++ b) = stdout_accepts env a && stdout_accepts env b.
Proof. unfold stdout_accepts. apply forallb_app. Qed.

(** The three lines the page loop prints about a run. *)
Lemma print_raises_lines {F} (env : Env F) (s : pystr) :
  print_raises env (py "Warning: Empty translation for text: " ++ s)
  = negb (stdout_accepts env s) /\
  print_raises env (py "Text content: " ++ s)
  = negb (stdout_accepts env s) /\
  print_raises env (py "Translation: " ++ s) = negb (stdout_accepts env s).
Proof.
  unfold print_raises. rewrite !stdout_accepts_app.
  repeat split; reflexivity.
Qed.

(** A UTF-8 console shows exactly the strings that can be encoded as
    UTF-8. *)
Lemma utf8_console_accepts {F} (env : Env F) (s : pystr) :
  (forall ch, stdout_encodes env ch = utf8_console ch) ->
  stdout_accepts env s = utf8_encodable s.
Proof.
  intros Hutf8. unfold stdout_accepts, utf8_encodable.
  induction s as [|ch s IH]; [reflexivity|]. cbn [forallb].
  rewrite IH, Hutf8. f_equal. unfold utf8_console, utf8_encodable, is_ascii.
  cbn [forallb]. rewrite andb_true_r.
  destruct (ch <? 128)%N eqn:Hascii; [|reflexivity].
  apply N.ltb_lt in Hascii.
  assert (Hlow : (0xD800 <=? ch)%N = false) by (apply N.leb_gt; lia).
  now rewrite Hlow.
Qed.

(** ** [create_pdf_with_layout] *)

Section Rendering.
Context {F : Type} {num : PyFloat F} (env : Env F).
Context (font_name : pystr) (translations : gmap pystr pystr).

(** Whether the [print] calls of the [except] clause return or raise, the
    canvas and [last_y] are left as they are. *)
Ltac either_way :=
  cbv zeta; repeat destruct (print_raises env _); reflexivity.

(** The three ways one run can go: nothing is called on the canvas; the
    font is set and [drawString] raises; the font is set and the string is
    drawn. *)
Lemma draw_run_cases (c : Canvas F) (last_y : option F)
    (content : TextRun F) :
  let adjusted := (r_fontSize content * lit 12 1)%py in
  let y := place_y last_y adjusted (r_y content) in
  let set_font := OpSetFont font_name adjusted in
  let draw := OpDrawString (r_x content) y (resolved translations content) in
  let after := draw_run env font_name translations (c, last_y) content in
  state_of after = (c, last_y) \/
  (state_of after = (c ++ [set_font], last_y) /\
   canvas_raises env (c ++ [set_font]) draw = true) \/
  (after = Completed (c ++ [set_font; draw], Some y) /\
   resolved translations content <> [] /\
   canvas_raises env c set_font = false /\
   canvas_raises env (c ++ [set_font]) draw = false).
Proof.
  cbv zeta. unfold draw_run, resolved, canvas_call.
  destruct (r_text content) as [|ch text]; [now left|].
  lazymatch goal with
  | |- context [from_option ?f ?a ?b] =>
      destruct (from_option f a b) as [|d res]
  end.
  { left. either_way. }
  destruct (utf8_encodable (d :: res)); cbn [negb]; [|left; either_way].
  destruct (canvas_raises env c _) eqn:Hset; [left; either_way|].
  destruct (canvas_raises env (c ++ _) _) eqn:Hdraw.
  - right. left. split; [either_way|reflexivity].
  - right. right. rewrite <- app_assoc. repeat split. discriminate.
Qed.

(** A run that gets as far as the canvas, on a canvas that accepts the
    two calls, is drawn. *)
Lemma draw_run_drawn (c : Canvas F) (last_y : option F)
    (content : TextRun F) :
  let adjusted := (r_fontSize content * lit 12 1)%py in
  let y := place_y last_y adjusted (r_y content) in
  let set_font := OpSetFont font_name adjusted in
  let draw := OpDrawString (r_x content) y (resolved translations content) in
  drawable translations content = true ->
  canvas_raises env c set_font = false ->
  canvas_raises env (c ++ [set_font]) draw = false ->
  draw_run env font_name translations (c, last_y) content
  = Completed (c ++ [set_font; draw], Some y).
Proof.
  cbv zeta. unfold draw_run, drawable, resolved, canvas_call.
  destruct (r_text content) as [|ch text]; [discriminate|].
  lazymatch goal with
  | |- context [from_option ?f ?a ?b] =>
      destruct (from_option f a b) as [|d res]
  end; [discriminate|].
  rewrite !(bool_decide_eq_false_2 (_ :: _ = [])) by discriminate.
  cbn [negb andb]. intros -> -> ->. cbn [negb].
  now rewrite <- app_assoc.
Qed.

(** A run that does not get as far as the canvas leaves the canvas and
    [last_y] as they are; it ends the loop when the console cannot show
    its text or what it resolves to, and only then. *)
Lemma draw_run_not_drawn (c : Canvas F) (last_y : option F)
    (content : TextRun F) :
  drawable translations content = false ->
  draw_run env font_name translations (c, last_y) content
  = if negb (bool_decide (r_text content = []))
       && negb (shows env translations content)
    then Raised (c, last_y)
    else Completed (c, last_y).
Proof.
  unfold draw_run, drawable, shows, resolved.
  destruct (r_text content) as [|ch text]; [reflexivity|].
  rewrite (bool_decide_eq_false_2 (ch :: text = [])) by discriminate.
  cbn [negb andb].
  destruct (print_raises_lines env (ch :: text)) as (-> & -> & _).
  lazymatch goal with
  | |- context [from_option ?f ?a ?b] =>
      destruct (from_option f a b) as [|d res]
  end.
  - intros _. change (stdout_accepts env []) with true.
    rewrite andb_true_r.
    now destruct (stdout_accepts env (ch :: text)).
  - rewrite (bool_decide_eq_false_2 (d :: res = [])) by discriminate.
    cbn [negb andb]. intros ->. cbn [negb].
    destruct (print_raises_lines env (d :: res)) as (_ & _ & ->).
    destruct (stdout_accepts env (ch :: text)); [|reflexivity].
    now destruct (stdout_accepts env (d :: res)).
Qed.

(** On a canvas that accepts every call, with a console that can show
    the run: the run is drawn or skipped, and the loop goes on. *)
Lemma draw_run_calm (c : Canvas F) (last_y : option F) (run : TextRun F) :
  (forall c0 op, canvas_raises env c0 op = false) ->
  shows env translations run = true ->
  let adjusted := (r_fontSize run * lit 12 1)%py in
  let y := place_y last_y adjusted (r_y run) in
  draw_run env font_name translations (c, last_y) run
  = Completed
      (if drawable translations run
       then (c ++ [OpSetFont font_name adjusted;
                   OpDrawString (r_x run) y (resolved translations run)],
             Some y)
       else (c, last_y)).
Proof.
  intros Hcalm Hshown. cbv zeta.
  destruct (drawable translations run) eqn:Hdrawable.
  - now apply draw_run_drawn.
  - rewrite draw_run_not_drawn, Hshown by assumption.
    now rewrite andb_false_r.
Qed.

(** On a UTF-8 console, a run whose translation [encode('utf-8')] refuses
    ends the loop: the [except] clause prints that translation. *)
Lemma draw_run_unencodable (c : Canvas F) (last_y : option F)
    (run : TextRun F) :
  (forall ch, stdout_encodes env ch = utf8_console ch) ->
  r_text run <> [] ->
  utf8_encodable (resolved translations run) = false ->
  draw_run env font_name translations (c, last_y) run
  = Raised (c, last_y).
Proof.
  intros Hutf8 Htext Hcode.
  rewrite draw_run_not_drawn
    by (unfold drawable; rewrite Hcode; apply andb_false_r).
  unfold shows. rewrite !utf8_console_accepts, Hcode by assumption.
  rewrite andb_false_r, bool_decide_eq_false_2 by assumption.
  reflexivity.
Qed.

Lemma draw_run_skips_empty (c : Canvas F) (last_y : option F)
    (content : TextRun F) :
  resolved translations content = [] ->
  state_of (draw_run env font_name translations (c, last_y) content)
  = (c, last_y).
Proof.
  intros Hempty.
  destruct (draw_run_cases c last_y content) as [H|[[H Hr]|[H [Hne _]]]];
    [assumption| |congruence].
  unfold draw_run, resolved in *.
  destruct (r_text content) as [|ch text]; [reflexivity|].
  rewrite Hempty. either_way.
Qed.

Lemma draw_run_keeps_last_y (c : Canvas F) (last_y : option F)
    (content : TextRun F) :
  let adjusted := (r_fontSize content * lit 12 1)%py in
  let set_font := OpSetFont font_name adjusted in
  let draw :=
    OpDrawString (r_x content) (place_y last_y adjusted (r_y content))
      (resolved translations content) in
  canvas_raises env c set_font = true \/
  canvas_raises env (c ++ [set_font]) draw = true ->
  (state_of (draw_run env font_name translations (c, last_y) content)).2
  = last_y.
Proof.
  cbv zeta. intros Hraise.
  destruct (draw_run_cases c last_y content)
    as [H|[[H Hr]|[H (_ & Hset & Hdraw)]]];
    [now rewrite H|now rewrite H|].
  destruct Hraise; congruence.
Qed.

Lemma last_draw_y_snoc (ops : list (CanvasOp F)) (op : CanvasOp F) :
  last_draw_y (ops ++ [op])
  = match op with
    | OpDrawString _ y _ => Some y
    | _ => last_draw_y ops
    end.
Proof. unfold last_draw_y. now rewrite foldl_snoc. Qed.

Lemma last_draw_y_app (ops1 ops2 : list (CanvasOp F)) :
  last_draw_y (ops1 ++ ops2)
  = match last_draw_y ops2 with
    | Some y => Some y
    | None => last_draw_y ops1
    end.
Proof.
  induction ops2 as [|op ops2 IH] using rev_ind.
  - now rewrite app_nil_r.
  - rewrite app_assoc, !last_draw_y_snoc. now destruct op.
Qed.

(** What one run adds to the canvas, whichever way it goes. *)
Lemma draw_run_adds (c : Canvas F) (last_y : option F)
    (content : TextRun F) :
  let adjusted := (r_fontSize content * lit 12 1)%py in
  let y := place_y last_y adjusted (r_y content) in
  let set_font := OpSetFont font_name adjusted in
  let draw := OpDrawString (r_x content) y (resolved translations content) in
  let after :=
    state_of (draw_run env font_name translations (c, last_y) content) in
  (after = (c, last_y)) \/
  (after = (c ++ [set_font], last_y)) \/
  (after = (c ++ [set_font; draw], Some y) /\
   resolved translations content <> []).
Proof.
  cbv zeta.
  destruct (draw_run_cases c last_y content) as [H|[[H _]|[H [Hne _]]]].
  - now left.
  - right. now left.
  - right. right. now rewrite H.
Qed.

(** After any number of runs, [last_y] is the y of the last string drawn
    since the loop started, or what it was at the start when none was. *)
Lemma draw_loop_last_y (runs : list (TextRun F)) (c : Canvas F)
    (last_y : option F) :
  let after :=
    state_of (for_each (draw_run env font_name translations) runs
                (c, last_y)) in
  exists ops,
    after.1 = c ++ ops /\
    after.2 = match last_draw_y ops with
              | Some y => Some y
              | None => last_y
              end.
Proof.
  cbv zeta. apply for_each_inv.
  - exists []. now rewrite app_nil_r.
  - intros [c0 ly] run _ (ops & Hc & Hy). cbn [fst snd] in Hc, Hy. subst c0 ly.
    destruct (draw_run_adds (c ++ ops)
                (match last_draw_y ops with
                 | Some y => Some y
                 | None => last_y
                 end) run) as [H|[H|[H _]]]; rewrite H; cbn [fst snd].
    + now exists ops.
    + eexists. rewrite <- app_assoc. split; [reflexivity|].
      rewrite last_draw_y_app. reflexivity.
    + eexists. rewrite <- app_assoc. split; [reflexivity|].
      rewrite last_draw_y_app. reflexivity.
Qed.

(** Every string drawn for a page is what the renderer resolves one of the
    page's runs to. *)
Lemma draw_loop_strings (runs : list (TextRun F)) (c : Canvas F)
    (last_y : option F) :
  exists ops,
    (state_of (for_each (draw_run env font_name translations) runs
                 (c, last_y))).1
      = c ++ ops /\
    forall x y text, OpDrawString x y text ∈ ops ->
      text <> [] /\ exists run, run ∈ runs /\ text = resolved translations run.
Proof.
  apply (for_each_inv (draw_run env font_name translations)
           (fun st => exists ops,
              st.1 = c ++ ops /\
              forall x y text, OpDrawString x y text ∈ ops ->
                text <> [] /\
                exists run, run ∈ runs /\ text = resolved translations run)).
  - exists []. rewrite app_nil_r. split; [reflexivity|].
    intros x y text Hin. inversion Hin.
  - intros [c0 ly] run Hrun (ops & Hc & Hops). cbn [fst] in Hc. subst c0.
    destruct (draw_run_adds (c ++ ops) ly run) as [H|[H|[H Hne]]];
      rewrite H; cbn [fst].
    + now exists ops.
    + eexists. rewrite <- app_assoc. split; [reflexivity|].
      intros x y text Hin. apply elem_of_app in Hin as [Hin|Hin];
        [now apply (Hops x y)|].
      apply list_elem_of_singleton in Hin. discriminate.
    + eexists. rewrite <- app_assoc. split; [reflexivity|].
      intros x y text Hin. apply elem_of_app in Hin as [Hin|Hin];
        [now apply (Hops x y)|].
      apply elem_of_cons in Hin as [Hin|Hin]; [discriminate|].
      apply list_elem_of_singleton in Hin. injection Hin as -> -> ->.
      split; [assumption|]. now exists run.
Qed.

(** What [render_page] does around the loop over the runs. *)
Lemma render_page_cases (c : Canvas F) (page : Page F) :
  let set_size := OpSetPageSize (p_width page) (p_height page) in
  let loop c0 :=
    for_each (draw_run env font_name translations)
      (sorted render_key_lt (p_content page)) (c0, None) in
  render_page env font_name translations c page = c \/
  render_page env font_name translations c page = c ++ [set_size] \/
  exists c0,
    (c0 = c ++ [set_size] \/
     c0 = c ++ [set_size; OpRotate (p_rotation page)]) /\
    (render_page env font_name translations c page = (state_of (loop c0)).1 \/
     render_page env font_name translations c page
       = (state_of (loop c0)).1 ++ [OpShowPage]).
Proof.
  cbv zeta. unfold render_page, canvas_call.
  destruct (canvas_raises env c _); [now left|].
  destruct (negb (p_rotation page =? of_int 0)%py).
  - destruct (canvas_raises env (c ++ _) _); [now (right; left)|].
    right. right.
    exists ((c ++ [OpSetPageSize (p_width page) (p_height page)])
              ++ [OpRotate (p_rotation page)]).
    split; [right; now rewrite <- app_assoc|].
    destruct (for_each _ _ _) as [[c1 ly]|[c1 ly]]; cbn [state_of fst];
      [|now left].
    destruct (canvas_raises env c1 OpShowPage); [now left|now right].
  - right. right. eexists. split; [now left|].
    destruct (for_each _ _ _) as [[c1 ly]|[c1 ly]]; cbn [state_of fst];
      [|now left].
    destruct (canvas_raises env c1 OpShowPage); [now left|now right].
Qed.

Lemma render_page_strings (c : Canvas F) (page : Page F) :
  exists ops,
    render_page env font_name translations c page = c ++ ops /\
    forall x y text, OpDrawString x y text ∈ ops ->
      text <> [] /\
      exists run, run ∈ p_content page /\ text = resolved translations run.
Proof.
  destruct (render_page_cases c page) as [->|[->|(c0 & Hc0 & Hr)]].
  - exists []. rewrite app_nil_r. split; [reflexivity|].
    intros x y text Hin. inversion Hin.
  - eexists. split; [reflexivity|]. intros x y text Hin.
    apply list_elem_of_singleton in Hin. discriminate.
  - destruct (draw_loop_strings (sorted render_key_lt (p_content page))
                c0 None) as (ops & Hloop & Hops).
    assert (Hpre : exists pre, c0 = c ++ pre /\
                     forall x y text, OpDrawString x y text ∉ pre).
    { destruct Hc0 as [->| ->]; eexists; (split; [reflexivity|]);
        intros x y text Hin;
        repeat (apply elem_of_cons in Hin as [Hin|Hin]; [discriminate|]);
        inversion Hin. }
    destruct Hpre as (pre & -> & Hpre).
    assert (Hall : forall x y text,
               OpDrawString x y text ∈ pre ++ ops ++ [OpShowPage] ->
               text <> [] /\
               exists run, run ∈ p_content page /\
                           text = resolved translations run).
    { intros x y text Hin. rewrite !elem_of_app in Hin.
      destruct Hin as [Hin|[Hin|Hin]].
      - now apply Hpre in Hin.
      - destruct (Hops x y text Hin) as (Hne & run & Hrun & ->).
        split; [assumption|]. exists run. split; [|reflexivity].
        now apply sorted_elem in Hrun.
      - apply list_elem_of_singleton in Hin. discriminate. }
    destruct Hr as [-> | ->]; rewrite Hloop, <- ?app_assoc.
    + eexists. split; [reflexivity|]. intros x y text Hin.
      apply (Hall x y text). rewrite !elem_of_app in *. tauto.
    + eexists. split; [reflexivity|]. intros x y text Hin.
      apply (Hall x y text). now rewrite !elem_of_app in *.
Qed.

Lemma render_pages_strings (pages : list (Page F)) (c : Canvas F) :
  exists ops,
    foldl (render_page env font_name translations) c pages = c ++ ops /\
    forall x y text, OpDrawString x y text ∈ ops ->
      text <> [] /\
      exists run, run ∈ all_runs pages /\ text = resolved translations run.
Proof.
  revert c. induction pages as [|page pages IH]; intros c.
  - exists []. rewrite app_nil_r. split; [reflexivity|].
    intros x y text Hin. inversion Hin.
  - cbn [foldl].
    destruct (render_page_strings c page) as (ops1 & -> & Hops1).
    destruct (IH (c ++ ops1)) as (ops2 & -> & Hops2).
    exists (ops1 ++ ops2). rewrite <- app_assoc. split; [reflexivity|].
    intros x y text Hin. apply elem_of_app in Hin as [Hin|Hin].
    + destruct (Hops1 x y text Hin) as (Hne & run & Hrun & ->).
      split; [assumption|]. exists run. split; [|reflexivity].
      apply elem_of_all_runs. exists page. split; [left|assumption].
    + destruct (Hops2 x y text Hin) as (Hne & run & Hrun & ->).
      split; [assumption|]. exists run. split; [|reflexivity].
      apply elem_of_all_runs in Hrun as (pg & Hpg & Hrun).
      apply elem_of_all_runs. exists pg. split; [now right|assumption].
Qed.

End Rendering.

(** Every string on the canvas of a rendered document is what the
    renderer resolves one of the document's runs to, and is not empty. *)
Lemma render_document_strings {F} {num : PyFloat F} (env : Env F)
    (pages : list (Page F)) (translations : gmap pystr pystr)
    (c : Canvas F) (x y : F) (text : pystr) :
  render_document env pages translations = Some c ->
  OpDrawString x y text ∈ c ->
  text <> [] /\
  exists run, run ∈ all_runs pages /\ text = resolved translations run.
Proof.
  unfold render_document, canvas_call.
  destruct pages as [|first_page rest]; [discriminate|].
  cbn [mbind option_bind].
  repeat (destruct (canvas_raises env _ _); [discriminate|];
          cbn [mbind option_bind]).
  lazymatch goal with
  | |- context [foldl (render_page env ?font translations) ?c0 ?pgs] =>
      destruct (render_pages_strings env font translations pgs c0)
        as (ops & -> & Hops)
  end.
  intros [= <-] Hin.
  repeat (apply elem_of_cons in Hin as [Hin|Hin]; [discriminate|]).
  apply elem_of_app in Hin as [Hin|Hin]; [now apply (Hops x y)|].
  apply list_elem_of_singleton in Hin. discriminate.
Qed.

(** C4. A run of the page loop that gets as far as the canvas (its text
    and its translation are not empty and the translation can be encoded),
    on a canvas that accepts the two calls, is drawn: the font is set to
    [adjusted_font_size = fontSize * 1.2] and the string is drawn right
    after, at the run's stored [x] and at [y], the stored y unless [last_y]
    is set and [|y - last_y| < 2 * mm], in which case it is
    [last_y - adjusted_font_size - 2 * mm]; [last_y] becomes that [y].  And
    whichever way a run goes, it sets no other font and draws no other
    string. *)
Theorem run_drawn_at_adjusted_position {F} {num : PyFloat F} (env : Env F)
    (font_name : pystr) (translations : gmap pystr pystr) (c : Canvas F)
    (last_y : option F) (content : TextRun F) :
  let adjusted_font_size := (r_fontSize content * lit 12 1)%py in
  let min_spacing := (of_int 2 * mm)%py in
  let y :=
    match last_y with
    | Some last =>
        if (fabs (r_y content - last) <? min_spacing)%py
        then (last - adjusted_font_size - min_spacing)%py
        else r_y content
    | None => r_y content
    end in
  let set_font := OpSetFont font_name adjusted_font_size in
  let draw := OpDrawString (r_x content) y (resolved translations content) in
  let after := draw_run env font_name translations (c, last_y) content in
  (drawable translations content = true ->
   canvas_raises env c set_font = false ->
   canvas_raises env (c ++ [set_font]) draw = false ->
   after = Completed (c ++ [set_font; draw], Some y)) /\
  exists ops,
    (state_of after).1 = c ++ ops /\
    (forall name size, OpSetFont name size ∈ ops ->
       name = font_name /\ size = adjusted_font_size) /\
    (forall x0 y0 text, OpDrawString x0 y0 text ∈ ops ->
       ops = [set_font; draw] /\ (state_of after).2 = Some y).
Proof.
  cbv zeta. split; [apply draw_run_drawn|].
  destruct (draw_run_adds env font_name translations c last_y content)
    as [H|[H|[H _]]]; rewrite H; cbn [fst snd].
  - exists []. rewrite app_nil_r. split; [reflexivity|].
    split; [intros name size Hin|intros x0 y0 text Hin]; inversion Hin.
  - eexists. split; [reflexivity|]. split.
    + intros name size Hin. apply list_elem_of_singleton in Hin.
      now injection Hin as -> ->.
    + intros x0 y0 text Hin. apply list_elem_of_singleton in Hin.
      discriminate.
  - eexists. split; [reflexivity|]. split.
    + intros name size Hin. apply elem_of_cons in Hin as [Hin|Hin].
      * now injection Hin as -> ->.
      * apply list_elem_of_singleton in Hin. discriminate.
    + intros x0 y0 text _. split; reflexivity.
Qed.

(** The second run of [close_pdf], one unit below the line drawn before
    it, is moved below that line by the font size and the spacing. *)
Lemma run_drawn_at_adjusted_position_witness :
  let second :=
    {| r_text := py "second"; r_x := 100%float; r_y := 750%float;
       r_fontSize := 12%float; r_font := py "Helvetica";
       r_rotation := 0%float; r_width := 595%float;
       r_height := 842%float |} in
  let y := (751%float - of_int 12 * lit 12 1 - of_int 2 * mm)%py in
  draw_run (calm_env close_pdf) (py "Helvetica") ∅ ([], Some 751%float)
    second
  = Completed ([OpSetFont (py "Helvetica") (of_int 12 * lit 12 1)%py;
                OpDrawString 100%float y (py "second")], Some y).
Proof.
  cbv zeta.
  refine (proj1 (run_drawn_at_adjusted_position (calm_env close_pdf)
                   (py "Helvetica") ∅ []
                   (Some 751%float)
                   {| r_text := py "second"; r_x := 100%float;
                      r_y := 750%float; r_fontSize := 12%float;
                      r_font := py "Helvetica"; r_rotation := 0%float;
                      r_width := 595%float; r_height := 842%float |})
            _ _ _); vm_compute; reflexivity.
Defined.

(** The scenario of the specification: the second of two runs one unit
    apart is moved below the first by the font size and the spacing. *)
Example close_runs_are_spaced :
  drawn_strings <$>
    render_document (calm_env close_pdf)
      (extract_text_with_positions close_pdf) ∅
  = Some [(100%float, 751%float, py "first");
          (100%float,
           (751%float - of_int 12 * lit 12 1 - of_int 2 * mm)%py,
           py "second")].
Proof. vm_compute. reflexivity. Qed.

(** C9. In the page loop of [create_pdf_with_layout], [last_y] starts
    unset on every page ([render_page] either gives the page up before the
    loop or runs the loop from [None]); after any number of runs of the
    loop, and however the loop is left, it is the y of the last string
    drawn since the loop started, unset when none was; and a run whose
    resolved translation is empty, or on which [setFont] or [drawString]
    raises, leaves it as it was. *)
Theorem last_y_is_last_drawn {F} {num : PyFloat F} (env : Env F)
    (font_name : pystr) (translations : gmap pystr pystr) :
  (forall (c : Canvas F) (page : Page F),
     let set_size := OpSetPageSize (p_width page) (p_height page) in
     let loop c0 :=
       for_each (draw_run env font_name translations)
         (sorted render_key_lt (p_content page)) (c0, None) in
     render_page env font_name translations c page = c \/
     render_page env font_name translations c page = c ++ [set_size] \/
     exists c0,
       (c0 = c ++ [set_size] \/
        c0 = c ++ [set_size; OpRotate (p_rotation page)]) /\
       (render_page env font_name translations c page
          = (state_of (loop c0)).1 \/
        render_page env font_name translations c page
          = (state_of (loop c0)).1 ++ [OpShowPage])) /\
  (forall (runs : list (TextRun F)) (c0 : Canvas F),
     let after :=
       state_of (for_each (draw_run env font_name translations) runs
                   (c0, None)) in
     exists ops, after.1 = c0 ++ ops /\ after.2 = last_draw_y ops) /\
  (forall (c : Canvas F) (last_y : option F) (content : TextRun F),
     resolved translations content = [] ->
     state_of (draw_run env font_name translations (c, last_y) content)
     = (c, last_y))
  /\
  (forall (c : Canvas F) (last_y : option F) (content : TextRun F),
     let adjusted := (r_fontSize content * lit 12 1)%py in
     let set_font := OpSetFont font_name adjusted in
     let draw :=
       OpDrawString (r_x content) (place_y last_y adjusted (r_y content))
         (resolved translations content) in
     canvas_raises env c set_font = true \/
     canvas_raises env (c ++ [set_font]) draw = true ->
     (state_of (draw_run env font_name translations (c, last_y) content)).2
     = last_y).
Proof.
  repeat split.
  - apply render_page_cases.
  - intros runs c0 after.
    destruct (draw_loop_last_y env font_name translations runs c0 None)
      as (ops & Hc & Hy).
    exists ops. split; [assumption|]. subst after. rewrite Hy.
    now destruct (last_draw_y ops).
  - apply draw_run_skips_empty.
  - apply draw_run_keeps_last_y.
Qed.

(** With every [drawString] refused, nothing is drawn and [last_y] stays
    unset through the page. *)
Example refused_draws_leave_last_y :
  let env := {| canvas_raises := fun _ op =>
                  match op with OpDrawString _ _ _ => true | _ => false end;
                getvalue := fun _ => [];
                nyala := FontMissing;
                stdout_encodes := utf8_console;
                open_rb := fun _ => inr close_pdf;
                write_wb := fun _ _ => None;
                left_wb := fun _ _ => None |} in
  (state_of
     (for_each (draw_run env (py "Helvetica") ∅)
        (all_runs (extract_text_with_positions close_pdf)) ([], None))).2
  = None.
Proof. vm_compute. reflexivity. Qed.

(** ** The mapping stage of [translate_pdf] *)

Section Mapping.
Context {F : Type} {num : PyFloat F} (env : Env F).
Context {TS : Type} (translate : TS -> pystr -> (exn + pystr) * TS).
Context (total_items : Z).

(** The events one run adds to the progress log. *)
Lemma translate_run_spec (has_callback : bool)
    (page : Page F) (translations : gmap pystr pystr)
    (items_processed : Z) (content : TextRun F) (s s' : Eff F TS)
    (res : exn + gmap pystr pystr * Z) :
  translate_run translate has_callback total_items page
    (translations, items_processed) content s = (res, s') ->
  let text := r_text content in
  let reported (ev : list (F * pystr)) :=
    progress s' = progress s ++ ev /\
    ev.*1 = (if has_callback
             then [mapping_progress (items_processed + 1) total_items]
             else []) in
  files s' = files s /\
  (((text = [] \/ is_Some (translations !! text)) /\
    res = inr (translations, items_processed + 1) /\
    calls s' = calls s /\ tstate s' = tstate s /\
    exists ev, reported ev)
   \/
   (text <> [] /\ translations !! text = None /\
    exists r, translate (tstate s) text = (inr r, tstate s') /\
      res = inr (<[text := r]> translations, items_processed + 1) /\
      calls s' = calls s ++ [(text, inr r)] /\
      exists ev, reported ev)
   \/
   (text <> [] /\ translations !! text = None /\
    exists e, translate (tstate s) text = (inl e, tstate s') /\
      res = inl (py "Translation failed: " ++ e) /\
      calls s' = calls s ++ [(text, inl e)] /\
      progress s' = progress s)).
Proof.
  cbv zeta. unfold translate_run.
  unfold mbind, M_bind, bind, mret, M_ret, ret, raise, try_except,
    progress_callback, call_translate.
  destruct (r_text content) as [|ch text] eqn:Htext.
  - intros Hrun.
    destruct has_callback; cbv beta iota zeta in Hrun;
      injection Hrun as <- <-; cbn [files calls tstate progress];
      (split; [reflexivity|]); left; (split; [now left|]);
      repeat (split; [reflexivity|]).
    + now eexists [_].
    + exists []. now rewrite app_nil_r.
  - destruct (translations !! (ch :: text)) as [r0|] eqn:Hlook.
    + intros Hrun.
      destruct has_callback; cbv beta iota zeta in Hrun;
        injection Hrun as <- <-; cbn [files calls tstate progress];
        (split; [reflexivity|]); left; (split; [right; eauto|]);
        repeat (split; [reflexivity|]).
      * now eexists [_].
      * exists []. now rewrite app_nil_r.
    + destruct (translate (tstate s) (ch :: text)) as [[e|r] ts] eqn:Htr.
      * intros [= <- <-]. cbn [files calls tstate progress].
        split; [reflexivity|]. right. right.
        repeat (split; [discriminate || reflexivity|]).
        exists e. repeat split.
      * intros Hrun.
        destruct has_callback; cbv beta iota zeta in Hrun;
          injection Hrun as <- <-; cbn [files calls tstate progress];
          (split; [reflexivity|]); right; left;
          repeat (split; [discriminate || reflexivity|]);
          exists r; repeat (split; [reflexivity|]).
        -- now eexists [_].
        -- exists []. now rewrite app_nil_r.
Qed.


Lemma mapping_fractions_app (first m1 m2 : Z) :
  0 <= m1 -> 0 <= m2 ->
  @mapping_fractions F num first m1 total_items
    ++ mapping_fractions (first + m1) m2 total_items
  = mapping_fractions first (m1 + m2) total_items.
Proof.
  intros H1 H2. unfold mapping_fractions.
  now rewrite seqZ_app, fmap_app by assumption.
Qed.

Lemma map_inv_calls (seen : list pystr) (new : list (pystr * (exn + pystr)))
    (translations : gmap pystr pystr) :
  map_inv seen new translations -> calls_inv seen new.
Proof.
  intros (Hnd & Hin & _). split; [assumption|].
  intros text o Hcall. now destruct (Hin text o Hcall).
Qed.

Lemma calls_inv_mono (seen seen' : list pystr)
    (new : list (pystr * (exn + pystr))) :
  calls_inv seen new -> (forall t, t ∈ seen -> t ∈ seen') ->
  calls_inv seen' new.
Proof.
  intros [Hnd Hin] Hsub. split; [assumption|].
  intros text o Hcall. eauto.
Qed.

Lemma map_inv_not_called (seen : list pystr)
    (new : list (pystr * (exn + pystr))) (translations : gmap pystr pystr)
    (text : pystr) :
  map_inv seen new translations -> translations !! text = None ->
  text ∉ new.*1.
Proof.
  intros (_ & Hin & Hmap & _) Hnone Hcalled.
  apply list_elem_of_fmap in Hcalled as ([t o] & -> & Hcall).
  destruct (Hin t o Hcall) as (_ & _ & r & ->).
  apply Hmap in Hcall. cbn in Hnone. congruence.
Qed.

Lemma map_inv_skip (seen : list pystr) (new : list (pystr * (exn + pystr)))
    (translations : gmap pystr pystr) (text : pystr) :
  map_inv seen new translations ->
  text = [] \/ is_Some (translations !! text) ->
  map_inv (seen ++ [text]) new translations.
Proof.
  intros (Hnd & Hin & Hmap & Hseen) Hskip.
  split; [assumption|]. split; [|split; [assumption|]].
  - intros t o Hcall. destruct (Hin t o Hcall) as (Ht & Hne & Hr).
    split; [|now split]. apply elem_of_app. now left.
  - intros t Ht Hne. apply elem_of_app in Ht as [Ht|Ht]; [now apply Hseen|].
    apply list_elem_of_singleton in Ht as ->.
    destruct Hskip as [?|[r Hr]]; [congruence|].
    apply Hmap in Hr. apply list_elem_of_fmap. now exists (text, inr r).
Qed.

Lemma map_inv_call (seen : list pystr) (new : list (pystr * (exn + pystr)))
    (translations : gmap pystr pystr) (text r : pystr) :
  map_inv seen new translations ->
  text <> [] -> translations !! text = None ->
  map_inv (seen ++ [text]) (new ++ [(text, inr r)])
    (<[text := r]> translations).
Proof.
  intros Hinv Hne Hnone.
  pose proof (map_inv_not_called _ _ _ _ Hinv Hnone) as Hfresh.
  destruct Hinv as (Hnd & Hin & Hmap & Hseen).
  split; [|split; [|split]].
  - rewrite fmap_app. apply NoDup_app. split; [assumption|]. split.
    + intros t Ht Ht'. apply list_elem_of_singleton in Ht'. now subst.
    + apply NoDup_singleton.
  - intros t o Hcall. apply elem_of_app in Hcall as [Hcall|Hcall].
    + destruct (Hin t o Hcall) as (Ht & Htne & Hr).
      split; [|now split]. apply elem_of_app. now left.
    + apply list_elem_of_singleton in Hcall as [= -> ->].
      split; [|split; [assumption|eauto]]. apply elem_of_app. right. left.
  - intros t result. rewrite elem_of_app, list_elem_of_singleton.
    destruct (decide (t = text)) as [->|Hneq].
    + rewrite lookup_insert_eq. split.
      * intros [= ->]. now right.
      * intros [Hcall|[= ->]]; [|reflexivity].
        exfalso. apply Hfresh. apply list_elem_of_fmap.
        now exists (text, inr result).
    + rewrite lookup_insert_ne by congruence. rewrite Hmap. split.
      * now left.
      * intros [Hcall|[= -> ->]]; [assumption|congruence].
  - intros t Ht Htne. rewrite fmap_app. apply elem_of_app.
    apply elem_of_app in Ht as [Ht|Ht]; [left; now apply Hseen|].
    right. apply list_elem_of_singleton in Ht as ->. left.
Qed.
Lemma map_inv_fail (seen : list pystr) (new : list (pystr * (exn + pystr)))
    (translations : gmap pystr pystr) (text e : pystr) :
  map_inv seen new translations -> translations !! text = None ->
  calls_inv (seen ++ [text]) (new ++ [(text, inl e)]).
Proof.
  intros Hinv Hnone.
  pose proof (map_inv_not_called _ _ _ _ Hinv Hnone) as Hfresh.
  destruct Hinv as (Hnd & Hin & _). split.
  - rewrite fmap_app. apply NoDup_app. repeat split; [assumption| |].
    + intros t Ht Ht'. apply list_elem_of_singleton in Ht'. now subst.
    + apply NoDup_singleton.
  - intros t o Hcall. apply elem_of_app in Hcall as [Hcall|Hcall].
    + apply elem_of_app. left. now destruct (Hin _ _ Hcall).
    + apply list_elem_of_singleton in Hcall as [= -> ->].
      apply elem_of_app. right. now left.
Qed.


(** Two stretches of the loop, one after the other. *)
Lemma mapping_post_seq (has_callback : bool)
    (calls0 : list (pystr * (exn + pystr))) (seen1 seen2 : list pystr)
    (k k1 c1 c2 : Z) (s s1 s' : Eff F TS)
    (translations1 : gmap pystr pystr)
    (res : exn + gmap pystr pystr * Z) :
  0 <= c1 -> 0 <= c2 ->
  mapping_post has_callback total_items calls0 seen1 k c1 s
    (inr (translations1, k1)) s1 ->
  mapping_post has_callback total_items calls0 seen2 k1 c2 s1 res s' ->
  mapping_post has_callback total_items calls0 seen2 k (c1 + c2) s res s'.
Proof.
  intros Hc1 Hc2 (new1 & m1 & evs1 & Hcalls1 & Hfiles1 & Hprog1 & Hev1
                    & Hm1 & -> & -> & Hinv1)
    (new2 & m2 & evs2 & Hcalls2 & Hfiles2 & Hprog2 & Hev2 & Hm2 & Hres).
  exists new2, (c1 + m2), (evs1 ++ evs2). repeat split.
  - assumption.
  - congruence.
  - now rewrite Hprog2, Hprog1, <- app_assoc.
  - rewrite fmap_app, Hev1, Hev2. destruct has_callback; [|reflexivity].
    replace (k + c1 + 1) with (k + 1 + c1) by lia.
    apply mapping_fractions_app; lia.
  - lia.
  - lia.
  - destruct res as [e|[translations k']]; [assumption|].
    destruct Hres as (-> & -> & Hinv).
    split; [reflexivity|]. split; [lia|assumption].
Qed.

(** A stretch that fails, seen as the start of a longer one. *)
Lemma mapping_post_fail (has_callback : bool)
    (calls0 : list (pystr * (exn + pystr))) (seen1 seen2 : list pystr)
    (k c1 c2 : Z) (s s' : Eff F TS) (e : exn) :
  0 <= c2 -> (forall t, t ∈ seen1 -> t ∈ seen2) ->
  mapping_post has_callback total_items calls0 seen1 k c1 s (inl e) s' ->
  mapping_post has_callback total_items calls0 seen2 k (c1 + c2) s
    (inl e) s'.
Proof.
  intros Hc2 Hsub (new & m & evs & Hcalls & Hfiles & Hprog & Hev & Hm & Hinv).
  destruct Hinv as [Hinv Hraised].
  exists new, m, evs. split; [assumption|]. split; [assumption|].
  split; [assumption|]. split; [assumption|]. split; [lia|].
  split; [|assumption]. now apply (calls_inv_mono seen1).
Qed.

(** One run of the loop. *)
Lemma translate_run_post (has_callback : bool) (page : Page F)
    (translations : gmap pystr pystr) (k : Z) (content : TextRun F)
    (s s' : Eff F TS) (res : exn + gmap pystr pystr * Z)
    (calls0 new : list (pystr * (exn + pystr))) (seen : list pystr) :
  translate_run translate has_callback total_items page (translations, k)
    content s = (res, s') ->
  calls s = calls0 ++ new -> map_inv seen new translations ->
  mapping_post has_callback total_items calls0 (seen ++ [r_text content])
    k 1 s res s'.
Proof.
  intros Hrun Hcalls Hinv.
  apply translate_run_spec in Hrun as (Hfiles & Hcases). cbv zeta in Hcases.
  assert (Hone : forall first,
             @mapping_fractions F num first 1 total_items
             = [mapping_progress first total_items]) by reflexivity.
  destruct Hcases as [(Hskip & -> & Hc & _ & ev & Hprog & Hev)
                     |[(Hne & Hnone & r & _ & -> & Hc & ev & Hprog & Hev)
                      |(Hne & Hnone & e & _ & -> & Hc & Hprog)]].
  - exists new, 1, ev.
    split; [congruence|]. split; [assumption|]. split; [assumption|].
    split; [rewrite Hev; now destruct has_callback|]. split; [lia|].
    split; [reflexivity|]. split; [reflexivity|]. now apply map_inv_skip.
  - exists (new ++ [(r_text content, inr r)]), 1, ev.
    split; [now rewrite Hc, Hcalls, <- app_assoc|].
    split; [assumption|]. split; [assumption|].
    split; [rewrite Hev; now destruct has_callback|]. split; [lia|].
    split; [reflexivity|]. split; [reflexivity|]. now apply map_inv_call.
  - exists (new ++ [(r_text content, inl e)]), 0, [].
    split; [now rewrite Hc, Hcalls, <- app_assoc|].
    split; [assumption|]. split; [now rewrite app_nil_r|].
    split; [now destruct has_callback|]. split; [lia|].
    split; [now apply (map_inv_fail seen new translations)|].
    exists (r_text content), e. apply elem_of_app. right. now left.
Qed.


Lemma mapping_post_inv (has_callback : bool)
    (calls0 : list (pystr * (exn + pystr))) (seen : list pystr)
    (k k' count : Z) (s s' : Eff F TS) (translations : gmap pystr pystr) :
  mapping_post has_callback total_items calls0 seen k count s
    (inr (translations, k')) s' ->
  exists new, calls s' = calls0 ++ new /\ map_inv seen new translations.
Proof.
  intros (new & m & evs & Hcalls & _ & _ & _ & _ & _ & _ & Hinv). eauto.
Qed.

Lemma mapping_post_nil (has_callback : bool)
    (calls0 new : list (pystr * (exn + pystr))) (seen : list pystr)
    (k : Z) (s : Eff F TS) (translations : gmap pystr pystr) :
  calls s = calls0 ++ new -> map_inv seen new translations ->
  mapping_post has_callback total_items calls0 seen k 0 s
    (inr (translations, k)) s.
Proof.
  intros Hcalls Hinv. exists new, 0, [].
  split; [assumption|]. split; [reflexivity|].
  split; [now rewrite app_nil_r|]. split; [now destruct has_callback|].
  split; [lia|]. split; [reflexivity|]. split; [lia|assumption].
Qed.

(** The inner loop, over the runs of one page. *)
Lemma translate_page_post (has_callback : bool) (page : Page F)
    (runs : list (TextRun F)) (translations : gmap pystr pystr) (k : Z)
    (s s' : Eff F TS) (res : exn + gmap pystr pystr * Z)
    (calls0 new : list (pystr * (exn + pystr))) (seen : list pystr) :
  foldM (translate_run translate has_callback total_items page) runs
    (translations, k) s = (res, s') ->
  calls s = calls0 ++ new -> map_inv seen new translations ->
  mapping_post has_callback total_items calls0 (seen ++ (r_text <$> runs))
    k (len runs) s res s'.
Proof.
  revert translations k s new seen.
  induction runs as [|run runs IH]; intros translations k s new seen.
  - intros [= <- <-] Hcalls Hinv. rewrite app_nil_r.
    now apply (mapping_post_nil _ _ new).
  - cbn [foldM]. unfold mbind, M_bind, bind.
    destruct (translate_run _ _ _ _ _ run s) as [[e|[translations1 k1]] s1]
      eqn:Hrun; intros Hfold Hcalls Hinv;
      pose proof (translate_run_post _ _ _ _ _ _ _ _ _ _ _
                    Hrun Hcalls Hinv) as Hpost;
      replace (len (run :: runs)) with (1 + len runs)
        by (unfold len; simpl length; lia).
    + injection Hfold as <- <-.
      apply (mapping_post_fail _ _ (seen ++ [r_text run])); try assumption.
      * unfold len. lia.
      * intros t Ht. rewrite fmap_cons.
        rewrite elem_of_app in *. rewrite elem_of_cons.
        rewrite list_elem_of_singleton in Ht. tauto.
    + destruct (mapping_post_inv _ _ _ _ _ _ _ _ _ Hpost)
        as (new1 & Hcalls1 & Hinv1).
      pose proof (IH _ _ _ _ _ Hfold Hcalls1 Hinv1) as Hrest.
      rewrite <- app_assoc in Hrest.
      eapply mapping_post_seq; [| |exact Hpost|exact Hrest];
        unfold len; lia.
Qed.

Lemma all_runs_cons (page : Page F) (pages : list (Page F)) :
  all_runs (page :: pages) = p_content page ++ all_runs pages.
Proof. reflexivity. Qed.

(** The outer loop, over the pages. *)
Lemma translate_pages_post (has_callback : bool) (pages : list (Page F))
    (translations : gmap pystr pystr) (k : Z) (s s' : Eff F TS)
    (res : exn + gmap pystr pystr * Z)
    (calls0 new : list (pystr * (exn + pystr))) (seen : list pystr) :
  foldM (translate_page translate has_callback total_items) pages
    (translations, k) s = (res, s') ->
  calls s = calls0 ++ new -> map_inv seen new translations ->
  mapping_post has_callback total_items calls0
    (seen ++ (r_text <$> all_runs pages)) k (len (all_runs pages)) s res s'.
Proof.
  revert translations k s new seen.
  induction pages as [|page pages IH]; intros translations k s new seen.
  - intros [= <- <-] Hcalls Hinv. rewrite app_nil_r.
    now apply (mapping_post_nil _ _ new).
  - cbn [foldM]. unfold mbind, M_bind, bind.
    destruct (translate_page _ _ _ _ page s) as [[e|[translations1 k1]] s1]
      eqn:Hpage; intros Hfold Hcalls Hinv;
      pose proof (translate_page_post _ _ _ _ _ _ _ _ _ _ _
                    Hpage Hcalls Hinv) as Hpost;
      rewrite all_runs_cons, fmap_app;
      replace (len (p_content page ++ all_runs pages))
        with (len (p_content page) + len (all_runs pages))
        by (unfold len; rewrite length_app; lia).
    + injection Hfold as <- <-.
      apply (mapping_post_fail _ _ (seen ++ (r_text <$> p_content page)));
        try assumption.
      * unfold len. lia.
      * intros t Ht. rewrite !elem_of_app in *. tauto.
    + destruct (mapping_post_inv _ _ _ _ _ _ _ _ _ Hpost)
        as (new1 & Hcalls1 & Hinv1).
      pose proof (IH _ _ _ _ _ Hfold Hcalls1 Hinv1) as Hrest.
      rewrite <- app_assoc in Hrest.
      eapply mapping_post_seq; [| |exact Hpost|exact Hrest];
        unfold len; lia.
Qed.

End Mapping.

(** ** [translate_pdf] *)

Section Orchestrator.
Context {F : Type} {num : PyFloat F} (env : Env F).
Context {TS : Type} (translate : TS -> pystr -> (exn + pystr) * TS).
Context (upload_dir : pystr).

Lemma progress_callback_spec (has_callback : bool) (fraction : F)
    (message : pystr) (s : Eff F TS) :
  exists s',
    progress_callback has_callback fraction message s = (inr tt, s') /\
    progress s' = progress s
                    ++ (if has_callback then [(fraction, message)] else []) /\
    calls s' = calls s /\ tstate s' = tstate s /\ files s' = files s.
Proof.
  unfold progress_callback. destruct has_callback.
  - eexists. split; [reflexivity|]. now cbn.
  - exists s. now rewrite app_nil_r.
Qed.

(** What writing the result leaves behind, whether it raises or not. *)
Lemma write_file_spec (output_path : pystr) (pdf_content : bytes)
    (s : Eff F TS) :
  exists s',
    progress s' = progress s /\ calls s' = calls s /\ tstate s' = tstate s /\
    match write_wb env output_path pdf_content with
    | None =>
        write_file env output_path pdf_content s = (inr tt, s') /\
        files s' = files s ++ [(output_path, pdf_content)]
    | Some e =>
        write_file env output_path pdf_content s = (inl e, s') /\
        files s' = files s
                     ++ match left_wb env output_path pdf_content with
                        | Some n => [(output_path, take n pdf_content)]
                        | None => []
                        end
    end.
Proof.
  unfold write_file. destruct (write_wb env _ _) as [e|].
  - destruct (left_wb env _ _) as [n|].
    + exists {| progress := progress s; calls := calls s;
                tstate := tstate s;
                files := files s ++ [(output_path, take n pdf_content)] |}.
      now repeat split.
    + exists s. now rewrite app_nil_r.
  - exists {| progress := progress s; calls := calls s; tstate := tstate s;
              files := files s ++ [(output_path, pdf_content)] |}.
    now repeat split.
Qed.

Lemma total_items_of_len (pages : list (Page F)) :
  total_items_of pages = len (all_runs pages).
Proof.
  unfold total_items_of.
  assert (H : forall n, foldl (fun n page => n + len (p_content page)) n pages
                        = n + len (all_runs pages)).
  { induction pages as [|page pages IH]; intros n; cbn [foldl].
    - unfold len. cbn. lia.
    - rewrite IH, all_runs_cons. unfold len. rewrite length_app. lia. }
  now rewrite H.
Qed.

(** The mapping stage as a whole. *)
Lemma build_translations_post (has_callback : bool)
    (pages : list (Page F)) (s s' : Eff F TS)
    (res : exn + gmap pystr pystr) :
  build_translations translate has_callback pages s = (res, s') ->
  let total := len (all_runs pages) in
  let texts := r_text <$> all_runs pages in
  exists new m evs,
    calls s' = calls s ++ new /\
    files s' = files s /\
    progress s' = progress s ++ evs /\
    evs.*1 = (if has_callback
              then lit 2 1 :: mapping_fractions 1 m total
              else []) /\
    0 <= m <= total /\
    match res with
    | inr translations => m = total /\ map_inv texts new translations
    | inl e => calls_inv texts new /\ raised new
    end.
Proof.
  cbv zeta. unfold build_translations, mbind, M_bind, bind.
  rewrite total_items_of_len.
  destruct (progress_callback_spec has_callback (lit 2 1)
              (py "Translating text...") s)
    as (s0 & -> & Hprog0 & Hcalls0 & _ & Hfiles0).
  assert (Hempty : map_inv [] [] (∅ : gmap pystr pystr)).
  { split; [constructor|]. split; [intros ? ? Hin; inversion Hin|].
    split; [|intros ? Hin; inversion Hin].
    intros text r. rewrite lookup_empty. split; [discriminate|].
    intros Hin. inversion Hin. }
  assert (Hstart : calls s0 = calls s ++ []) by now rewrite app_nil_r.
  destruct (foldM _ pages _ s0) as [[e|[translations k]] s1] eqn:Hfold;
    intros [= <- <-];
    pose proof (translate_pages_post translate _ _ _ _ _ _ _ _ _ _ _
                  Hfold Hstart Hempty) as Hpost; clear Hfold;
    rename Hpost into Hfold; rewrite app_nil_l in Hfold.
  - destruct Hfold as (new & m & evs & Hc & Hf & Hp & Hev & Hm & Hinv).
    exists new, m, ((if has_callback
                     then [(lit 2 1, py "Translating text...")]
                     else []) ++ evs).
    split; [assumption|]. split; [congruence|].
    split; [now rewrite Hp, Hprog0, <- app_assoc|].
    split; [rewrite fmap_app, Hev; now destruct has_callback|].
    split; [assumption|assumption].
  - destruct Hfold as (new & m & evs & Hc & Hf & Hp & Hev & Hm & -> & _
                         & Hinv).
    exists new, (len (all_runs pages)),
      ((if has_callback
        then [(lit 2 1, py "Translating text...")]
        else []) ++ evs).
    split; [assumption|]. split; [congruence|].
    split; [now rewrite Hp, Hprog0, <- app_assoc|].
    split; [rewrite fmap_app, Hev; now destruct has_callback|].
    split; [unfold len; lia|]. split; [reflexivity|assumption].
Qed.


Lemma path_join_nonempty (a b : pystr) : b <> [] -> path_join a b <> [].
Proof.
  intros Hb. unfold path_join.
  destruct (startswith b [slash]); [assumption|].
  destruct (last a) as [c|]; [|assumption].
  destruct (c =? slash)%N; intros Hnil; apply app_eq_nil in Hnil as [_ Hnil].
  - congruence.
  - discriminate.
Qed.

Lemma output_path_nonempty (pdf_path : pystr) :
  path_join upload_dir (py "translated_" ++ basename pdf_path) <> [].
Proof. apply path_join_nonempty. discriminate. Qed.

(** Every way through the [try] block of [translate_pdf]: what it
    returns or raises, the calls of [translate] it makes and the fractions
    it reports. *)
Lemma translate_pdf_body_post (pdf_path : pystr) (has_callback : bool)
    (s s1 : Eff F TS) (res : exn + pystr) :
  translate_pdf_body env translate upload_dir pdf_path has_callback s
    = (res, s1) ->
  let reported (evs : list (F * pystr)) (fractions : list F) :=
    evs.*1 = (if has_callback then fractions else []) in
  exists evs new,
    progress s1 = progress s ++ evs /\
    calls s1 = calls s ++ new /\
    match open_rb env pdf_path with
    | inl e => res = inl e /\ new = [] /\ reported evs [lit 1 1]
    | inr pdf =>
        let pages := extract_text_with_positions pdf in
        let total := len (all_runs pages) in
        let texts := r_text <$> all_runs pages in
        calls_inv texts new /\
        exists m, 0 <= m <= total /\
          ((pages = [] /\ res = inl no_text_message /\ new = [] /\
            reported evs [lit 1 1])
           \/
           (pages <> [] /\ (exists e, res = inl e) /\ raised new /\
            reported evs (lit 1 1 :: lit 2 1 :: mapping_fractions 1 m total))
           \/
           (pages <> [] /\ m = total /\
            exists translations,
              map_inv texts new translations /\
              let pdf_content :=
                create_pdf_with_layout env pages translations in
              ((pdf_content = [] /\ res = inl create_failed_message /\
                reported evs
                  ([lit 1 1; lit 2 1] ++ mapping_fractions 1 total total
                     ++ [lit 8 1]))
               \/
               (pdf_content <> [] /\ (exists e, res = inl e) /\
                reported evs
                  ([lit 1 1; lit 2 1] ++ mapping_fractions 1 total total
                     ++ [lit 8 1; lit 9 1]))
               \/
               (pdf_content <> [] /\
                res = inr (path_join upload_dir
                             (py "translated_" ++ basename pdf_path)) /\
                files s1 = files s
                             ++ [(path_join upload_dir
                                    (py "translated_" ++ basename pdf_path),
                                  pdf_content)] /\
                reported evs (success_fractions total)))))
    end.
Proof.
  cbv zeta. unfold translate_pdf_body, mbind, M_bind, bind.
  destruct (progress_callback_spec has_callback (lit 1 1)
              (py "Extracting text from PDF...") s)
    as (s0 & -> & Hprog0 & Hcalls0 & _ & Hfiles0).
  unfold open_pdf. destruct (open_rb env pdf_path) as [e|pdf] eqn:Hopen.
  { intros [= <- <-]. eexists _, [].
    split; [eassumption|]. split; [now rewrite app_nil_r|].
    split; [reflexivity|]. split; [reflexivity|]. now destruct has_callback. }
  destruct (extract_text_with_positions pdf) as [|pg pgs] eqn:Hpages.
  { unfold raise. intros [= <- <-]. eexists _, [].
    split; [eassumption|]. split; [now rewrite app_nil_r|].
    split; [split; [constructor|intros ? ? Hin; inversion Hin]|].
    exists 0. split; [unfold len; cbn; lia|]. left.
    split; [reflexivity|]. split; [reflexivity|]. split; [reflexivity|].
    now destruct has_callback. }
  unfold ret at 1.
  destruct (build_translations translate has_callback (pg :: pgs) s0)
    as [[e|translations] s2] eqn:Hbuild;
    apply build_translations_post in Hbuild
      as (new & m & evs & Hcalls2 & Hfiles2 & Hprog2 & Hev2 & Hm & Hres).
  { intros [= <- <-].
    exists ((if has_callback
             then [(lit 1 1, py "Extracting text from PDF...")]
             else []) ++ evs), new.
    split; [now rewrite Hprog2, Hprog0, <- app_assoc|].
    split; [congruence|]. split; [apply Hres|].
    exists m. split; [assumption|]. right. left.
    split; [discriminate|]. split; [eauto|]. split; [apply Hres|].
    rewrite fmap_app, Hev2. now destruct has_callback. }
  destruct Hres as [-> Hinv].
  destruct (progress_callback_spec has_callback (lit 8 1)
              (py "Creating translated PDF...") s2)
    as (s3 & -> & Hprog3 & Hcalls3 & _ & Hfiles3).
  set (total := len (all_runs (pg :: pgs))) in *.
  assert (Hcommon : forall (s' : Eff F TS) (tail : list (F * pystr))
                      (fractions : list F),
             progress s' = progress s3 ++ tail ->
             tail.*1 = (if has_callback then fractions else []) ->
             exists evs',
               progress s' = progress s ++ evs' /\
               evs'.*1 = (if has_callback
                          then [lit 1 1; lit 2 1]
                                 ++ mapping_fractions 1 total total
                                 ++ lit 8 1 :: fractions
                          else [])).
  { intros s' tail fractions Hs' Htail. eexists. split.
    - rewrite Hs', Hprog3, Hprog2, Hprog0, <- !app_assoc. reflexivity.
    - rewrite !fmap_app, Hev2, Htail. now destruct has_callback. }
  destruct (create_pdf_with_layout env (pg :: pgs) translations)
    as [|b bs] eqn:Hcreate.
  { unfold raise. intros [= <- <-].
    destruct (Hcommon s3 [] []) as (evs' & Hp & Hev');
      [now rewrite app_nil_r|now destruct has_callback|].
    exists evs', new. split; [assumption|]. split; [congruence|].
    split; [now apply map_inv_calls in Hinv|].
    exists total. split; [unfold total, len; lia|]. right. right.
    split; [discriminate|]. split; [reflexivity|].
    exists translations. split; [assumption|]. left.
    split; [assumption|]. split; [reflexivity|assumption]. }
  unfold ret at 1.
  destruct (progress_callback_spec has_callback (lit 9 1)
              (py "Saving translated PDF...") s3)
    as (s4 & -> & Hprog4 & Hcalls4 & _ & Hfiles4).
  match goal with
  | |- context [write_file env ?path ?content s4] =>
      destruct (write_file_spec path content s4)
        as (s4' & Hprog4' & Hcalls4' & _ & Hwritten)
  end.
  rewrite <- Hprog4' in Hprog4.
  destruct (write_wb env _ _) as [e|] eqn:Hwrite;
    destruct Hwritten as [-> Hfiles4'].
  { intros [= <- <-].
    destruct (Hcommon s4' _ [lit 9 1] Hprog4) as (evs' & Hp & Hev');
      [now destruct has_callback|].
    exists evs', new. split; [assumption|]. split; [congruence|].
    split; [now apply map_inv_calls in Hinv|].
    exists total. split; [unfold total, len; lia|]. right. right.
    split; [discriminate|]. split; [reflexivity|].
    exists translations. split; [assumption|]. right. left.
    rewrite Hcreate. split; [discriminate|]. split; [eauto|assumption]. }
  match goal with
  | |- context [progress_callback has_callback ?f ?msg ?st] =>
      destruct (progress_callback_spec has_callback f msg st)
        as (s5 & -> & Hprog5 & Hcalls5 & _ & Hfiles5)
  end.
  cbn [progress calls files] in Hprog5, Hcalls5, Hfiles5.
  unfold ret. intros [= <- <-].
  destruct (Hcommon s5
              ((if has_callback
                then [(lit 9 1, py "Saving translated PDF...")]
                else []) ++
               (if has_callback
                then [(lit 10 1, py "Translation complete!")]
                else []))
              [lit 9 1; lit 10 1]) as (evs' & Hp & Hev').
  { now rewrite Hprog5, Hprog4, <- app_assoc. }
  { now destruct has_callback. }
  exists evs', new. split; [assumption|]. split; [congruence|].
  split; [now apply map_inv_calls in Hinv|].
  exists total. split; [unfold total, len; lia|]. right. right.
  split; [discriminate|]. split; [reflexivity|].
  exists translations. split; [assumption|]. right. right.
  rewrite Hcreate. split; [discriminate|]. split; [reflexivity|].
  split; [congruence|].
  rewrite Hev'. unfold success_fractions. reflexivity.
Qed.

End Orchestrator.

(** ** The claims about [translate_pdf] *)

Lemma error_message_nonempty (e : exn) : error_message e <> [].
Proof.
  unfold error_message.
  repeat (destruct (contains _ e); [discriminate|]).
  discriminate.
Qed.

(** C6. When the file opens to a PDF without extractable text (a source
    the reader cannot parse included), [extract_text_with_positions]
    returns no page, and [translate_pdf] reports the no-extractable-text
    error through the callback, returns the empty string and makes no call
    of [translate]. *)
Theorem no_text_fails_without_translating {F} {num : PyFloat F}
    (env : Env F) {TS} (translate : TS -> pystr -> (exn + pystr) * TS)
    (upload_dir pdf_path : pystr) (has_callback : bool) (s : Eff F TS)
    (pdf : PdfFile F) :
  open_rb env pdf_path = inr pdf ->
  no_runs pdf ->
  extract_text_with_positions pdf = [] /\
  exists s',
    translate_pdf env translate upload_dir pdf_path has_callback s
      = (inr [], s') /\
    calls s' = calls s /\ tstate s' = tstate s /\ files s' = files s /\
    progress s' =
      progress s ++
        (if has_callback
         then [(lit 1 1, py "Extracting text from PDF...");
               (of_int (-1),
                py "Could not extract text from PDF. Please ensure the PDF contains text and not just images.")]
         else []).
Proof.
  intros Hopen Hnone. pose proof (no_runs_extract pdf Hnone) as Hpages.
  split; [assumption|].
  unfold translate_pdf, try_except, translate_pdf_body, translate_pdf_except,
    mbind, M_bind, bind, open_pdf, raise, ret.
  destruct (progress_callback_spec has_callback (lit 1 1)
              (py "Extracting text from PDF...") s)
    as (s0 & -> & Hprog0 & Hcalls0 & Hts0 & Hfiles0).
  rewrite Hopen, Hpages.
  match goal with
  | |- context [progress_callback has_callback ?f ?msg s0] =>
      destruct (progress_callback_spec has_callback f msg s0)
        as (s1 & -> & Hprog1 & Hcalls1 & Hts1 & Hfiles1)
  end.
  exists s1. split; [reflexivity|].
  split; [congruence|]. split; [congruence|]. split; [congruence|].
  rewrite Hprog1, Hprog0, <- app_assoc.
  destruct has_callback; reflexivity.
Qed.

Lemma no_text_fails_without_translating_witness :
  extract_text_with_positions (Parsed [blank_page]) = [] /\
  exists s',
    translate_pdf (calm_env (Parsed [blank_page])) shout (py "uploads")
      (py "scan.pdf") true fresh = (inr [], s') /\
    calls s' = calls fresh /\ tstate s' = tstate fresh /\
    files s' = files fresh /\
    progress s' =
      progress fresh ++
        [(lit 1 1, py "Extracting text from PDF...");
         (of_int (-1),
          py "Could not extract text from PDF. Please ensure the PDF contains text and not just images.")].
Proof.
  apply (no_text_fails_without_translating
           (calm_env (Parsed [blank_page])) shout (py "uploads")
           (py "scan.pdf") true fresh (Parsed [blank_page])).
  - reflexivity.
  - repeat constructor.
Defined.

Section Failure.
Context {F : Type} {num : PyFloat F} (env : Env F).
Context {TS : Type} (translate : TS -> pystr -> (exn + pystr) * TS).
Context (upload_dir : pystr).

Lemma stage_fraction_literal (total : Z) (f : F) :
  f ∈ [lit 1 1; lit 2 1; lit 8 1; lit 9 1; lit 10 1] ->
  stage_fraction total f.
Proof. now left. Qed.

Lemma mapping_fractions_stage (m total : Z) :
  0 <= m <= total ->
  Forall (stage_fraction total) (@mapping_fractions F num 1 m total).
Proof.
  intros Hm. apply Forall_forall. intros f Hf.
  apply list_elem_of_fmap in Hf as (k & -> & Hk).
  apply elem_of_seqZ in Hk. right. exists k. split; [lia|reflexivity].
Qed.

Lemma new_progress_app (s s1 : Eff F TS) (evs : list (F * pystr)) :
  progress s1 = progress s ++ evs -> new_progress s s1 = evs.
Proof. intros H. unfold new_progress. rewrite H. apply drop_app_length. Qed.

Lemma new_calls_app (s s1 : Eff F TS)
    (new : list (pystr * (exn + pystr))) :
  calls s1 = calls s ++ new -> new_calls s s1 = new.
Proof. intros H. unfold new_calls. rewrite H. apply drop_app_length. Qed.

(** The fractions the [try] block reports are those of its stages, and
    the path it returns is not the empty string. *)
Lemma translate_pdf_body_stages (pdf_path : pystr) (has_callback : bool)
    (s s1 : Eff F TS) (res : exn + pystr) :
  translate_pdf_body env translate upload_dir pdf_path has_callback s
    = (res, s1) ->
  (exists total, Forall (stage_fraction total) (new_progress s s1).*1) /\
  (forall output_path, res = inr output_path -> output_path <> []).
Proof.
  intros Hbody.
  apply translate_pdf_body_post in Hbody
    as (evs & new & Hprog & _ & Hcases). cbv zeta in Hcases.
  rewrite (new_progress_app _ _ _ Hprog).
  assert (Hlit : forall total (l : list F),
             (forall f, f ∈ l ->
                f ∈ [lit 1 1; lit 2 1; lit 8 1; lit 9 1; lit 10 1]) ->
             Forall (stage_fraction total) l).
  { intros total l Hl. apply Forall_forall. intros f Hf.
    apply stage_fraction_literal. now apply Hl. }
  assert (Hreport : forall total (l : list F),
             evs.*1 = (if has_callback then l else []) ->
             Forall (stage_fraction total) l ->
             Forall (stage_fraction total) evs.*1).
  { intros total l -> Hl. destruct has_callback; [assumption|constructor]. }
  assert (Hone : forall total, Forall (stage_fraction total) [@lit F num 1 1]).
  { intros total. apply Hlit. intros f Hf.
    apply list_elem_of_singleton in Hf as ->. left. }
  destruct (open_rb env pdf_path) as [e|pdf].
  { destruct Hcases as (-> & _ & Hev). split; [|discriminate].
    exists 0. now apply (Hreport 0 [lit 1 1]). }
  destruct Hcases as (_ & m & Hm & Hstage).
  set (total := len (all_runs (extract_text_with_positions pdf))) in *.
  pose proof (mapping_fractions_stage m total Hm) as Hmap.
  pose proof (mapping_fractions_stage total total ltac:(lia)) as Hall.
  destruct Hstage as [(_ & -> & _ & Hev)
                     |[(_ & [e ->] & _ & Hev)
                      |(_ & _ & translations & _ & Hrender)]].
  - split; [|discriminate]. exists total.
    now apply (Hreport total [lit 1 1]).
  - split; [|discriminate]. exists total.
    apply (Hreport total _ Hev).
    constructor; [apply stage_fraction_literal; left|].
    constructor; [apply stage_fraction_literal; right; left|assumption].
  - cbv zeta in Hrender.
    destruct Hrender as [(_ & -> & Hev)
                        |[(_ & [e ->] & Hev)|(_ & -> & _ & Hev)]].
    + split; [|discriminate]. exists total. apply (Hreport total _ Hev).
      apply Forall_app. split; [|apply Forall_app; split; [assumption|]];
        apply Hlit; intros f Hf; rewrite !elem_of_cons in *; tauto.
    + split; [|discriminate]. exists total. apply (Hreport total _ Hev).
      apply Forall_app. split; [|apply Forall_app; split; [assumption|]];
        apply Hlit; intros f Hf; rewrite !elem_of_cons in *; tauto.
    + split.
      * exists total. apply (Hreport total _ Hev). unfold success_fractions.
        apply Forall_app.
        split; [|apply Forall_app; split; [assumption|]];
          apply Hlit; intros f Hf; rewrite !elem_of_cons in *; tauto.
      * intros p [= <-]. apply output_path_nonempty.
Qed.

End Failure.


(** ** The progress fractions in exact arithmetic *)

Section ExactFractions.
Local Open Scope Q_scope.

Lemma lit_exact_values :
  @lit Q exact 1 1 == 1 # 10 /\ @lit Q exact 2 1 == 2 # 10 /\
  @lit Q exact 6 1 == 6 # 10 /\ @lit Q exact 8 1 == 8 # 10 /\
  @lit Q exact 9 1 == 9 # 10 /\ @lit Q exact 10 1 == 1.
Proof. repeat split. Qed.

Lemma mapping_progress_exact (k total : Z) :
  @mapping_progress Q exact k total
  == (2 # 10) + (6 # 10) * inject_Z k * / inject_Z total.
Proof.
  unfold mapping_progress. cbn [fadd fmul fdiv of_int exact].
  destruct lit_exact_values as (_ & -> & -> & _). reflexivity.
Qed.

Lemma mapping_progress_step (k total : Z) :
  (0 < total)%Z ->
  @mapping_progress Q exact k total < mapping_progress (k + 1) total.
Proof.
  intros Htotal. rewrite !mapping_progress_exact, inject_Z_plus.
  assert (Hinv : 0 < / inject_Z total).
  { apply Qinv_lt_0_compat. now rewrite <- (Zlt_Qlt 0). }
  set (i := / inject_Z total) in *. set (a := inject_Z k).
  change (inject_Z 1) with 1. nra.
Qed.

Lemma mapping_progress_mono (k k' total : Z) :
  (0 < total)%Z -> (k <= k')%Z ->
  @mapping_progress Q exact k total <= mapping_progress k' total.
Proof.
  intros Htotal Hk. rewrite !mapping_progress_exact.
  assert (Hinv : 0 < / inject_Z total).
  { apply Qinv_lt_0_compat. now rewrite <- (Zlt_Qlt 0). }
  rewrite Zle_Qle in Hk.
  set (i := / inject_Z total) in *.
  set (a := inject_Z k) in *. set (b := inject_Z k') in *. nra.
Qed.

Lemma mapping_progress_start (total : Z) :
  @mapping_progress Q exact 0 total == 2 # 10.
Proof. rewrite mapping_progress_exact. change (inject_Z 0) with 0. ring. Qed.

Lemma mapping_progress_end (total : Z) :
  (0 < total)%Z -> @mapping_progress Q exact total total == 8 # 10.
Proof.
  intros Htotal. rewrite mapping_progress_exact.
  assert (Hne : ~ inject_Z total == 0).
  { intros H. rewrite (Zlt_Qlt 0) in Htotal. rewrite H in Htotal.
    now apply Qlt_irrefl in Htotal. }
  rewrite <- Qmult_assoc, Qmult_inv_r by assumption. reflexivity.
Qed.

Lemma mapping_progress_bounds (k total : Z) :
  (0 <= k <= total)%Z -> (0 < total)%Z ->
  2 # 10 <= @mapping_progress Q exact k total <= 8 # 10.
Proof.
  intros [Hk0 Hk] Htotal. split.
  - rewrite <- (mapping_progress_start total).
    now apply mapping_progress_mono.
  - rewrite <- (mapping_progress_end total) by assumption.
    now apply mapping_progress_mono.
Qed.



Lemma seqZ_sorted (n : nat) (m : Z) :
  StronglySorted Z.le (seqZ m (Z.of_nat n)).
Proof.
  revert m. induction n as [|n IH]; intros m.
  - constructor.
  - rewrite seqZ_cons by lia.
    replace (Z.pred (Z.of_nat (S n))) with (Z.of_nat n) by lia.
    constructor; [apply IH|].
    apply Forall_forall. intros k Hk. apply elem_of_seqZ in Hk. lia.
Qed.

(** In exact arithmetic the fractions of a successful run never go down. *)
Lemma success_fractions_sorted (total : Z) :
  (0 < total)%Z ->
  StronglySorted Qle (@success_fractions Q exact total).
Proof.
  intros Htotal. unfold success_fractions.
  destruct lit_exact_values as (H1 & H2 & _ & H8 & H9 & H10).
  assert (Hmid : forall f, f ∈ @mapping_fractions Q exact 1 total total ->
                   2 # 10 <= f <= 8 # 10).
  { intros f Hf. apply list_elem_of_fmap in Hf as (k & -> & Hk).
    apply elem_of_seqZ in Hk. apply mapping_progress_bounds; lia. }
  apply StronglySorted_app_2; [| |apply StronglySorted_app_2].
  - intros x y Hx Hy.
    assert (Hxb : x <= 2 # 10).
    { rewrite !elem_of_cons in Hx.
      destruct Hx as [->|[->|Hnil]];
        [rewrite H1|rewrite H2|inversion Hnil]; discriminate. }
    assert (Hyb : 2 # 10 <= y).
    { apply elem_of_app in Hy as [Hy|Hy]; [now apply Hmid|].
      rewrite !elem_of_cons in Hy.
      destruct Hy as [->|[->|[->|Hnil]]];
        [rewrite H8|rewrite H9|rewrite H10|inversion Hnil]; discriminate. }
    lra.
  - repeat constructor. rewrite H1, H2. discriminate.
  - intros x y Hx Hy. apply Hmid in Hx as [_ Hx].
    assert (Hyb : 8 # 10 <= y).
    { rewrite !elem_of_cons in Hy.
      destruct Hy as [->|[->|[->|Hnil]]];
        [rewrite H8|rewrite H9|rewrite H10|inversion Hnil]; discriminate. }
    lra.
  - unfold mapping_fractions.
    apply (StronglySorted_fmap _ Z.le Qle).
    + intros k k' Hk. now apply mapping_progress_mono.
    + rewrite <- (Z2Nat.id total) by lia. apply seqZ_sorted.
  - repeat constructor; rewrite ?H8, ?H9, ?H10; discriminate.
Qed.

End ExactFractions.

(** ** The sign of the progress fractions at binary64

    Read off the specification of the primitive operations: a product, a
    quotient or a sum of values with sign bit 0 has sign bit 0 or is NaN. *)

Section Binary64Sign.

Lemma binary_round_aux_pos (mx ex : Z) (lx : location) :
  sf_pos (binary_round_aux prec emax false mx ex lx).
Proof.
  unfold binary_round_aux.
  destruct (shr_fexp prec emax mx ex lx) as [mrs e].
  destruct (shr_fexp prec emax _ e loc_Exact) as [mrs' e'].
  destruct (shr_m mrs'); [reflexivity| |exact I].
  destruct (e' <=? emax - prec); reflexivity.
Qed.

Lemma SFmul_pos (x y : spec_float) :
  sf_pos x -> sf_pos y -> sf_pos (SF64mul x y).
Proof.
  unfold SF64mul, SFmul.
  destruct x as [sx|sx| |sx mx ex], y as [sy|sy| |sy my ey];
    cbn [sf_pos]; intros Hx Hy; subst; try reflexivity; try exact I.
  apply binary_round_aux_pos.
Qed.

Lemma SFdiv_pos (x y : spec_float) :
  sf_pos x -> sf_pos y -> sf_pos (SF64div x y).
Proof.
  unfold SF64div, SFdiv.
  destruct x as [sx|sx| |sx mx ex], y as [sy|sy| |sy my ey];
    cbn [sf_pos]; intros Hx Hy; subst; try reflexivity; try exact I.
  destruct (SFdiv_core_binary prec emax (Z.pos mx) ex (Z.pos my) ey)
    as [[mz ez] lz].
  apply binary_round_aux_pos.
Qed.

Lemma SFadd_pos (x y : spec_float) :
  sf_pos x -> sf_pos y -> sf_pos (SF64add x y).
Proof.
  unfold SF64add, SFadd.
  destruct x as [sx|sx| |sx mx ex], y as [sy|sy| |sy my ey];
    cbn [sf_pos]; intros Hx Hy; subst; try reflexivity; try exact I.
  cbn [cond_Zopp]. rewrite <- Pos2Z.inj_add. cbn [binary_normalize].
  unfold binary_round.
  destruct (shl_align _ _ (fexp _ _ _)) as [mz ez].
  apply binary_round_aux_pos.
Qed.

Lemma of_uint63_pos (n : int) : sf_pos (Prim2SF (of_uint63 n)).
Proof.
  rewrite of_uint63_spec. pose proof (Uint63.to_Z_bounded n) as Hn.
  unfold binary_normalize. destruct (Uint63.to_Z n) as [|m|m];
    [reflexivity| |lia].
  unfold binary_round. destruct (shl_align _ _ _) as [mz ez].
  apply binary_round_aux_pos.
Qed.

Lemma float_of_int_pos (z : Z) : 0 <= z -> sf_pos (Prim2SF (float_of_int z)).
Proof.
  intros Hz. unfold float_of_int.
  destruct (z <? 0) eqn:Hneg; [apply Z.ltb_lt in Hneg; lia|].
  apply of_uint63_pos.
Qed.

Lemma lit_pos (m : Z) (e : nat) :
  0 <= m -> sf_pos (Prim2SF (@lit float binary64 m e)).
Proof.
  intros Hm. unfold lit. cbn [fdiv of_int binary64]. rewrite div_spec.
  apply SFdiv_pos; apply float_of_int_pos; lia.
Qed.

Lemma mapping_progress_pos (k total : Z) :
  0 <= k -> 0 <= total ->
  sf_pos (Prim2SF (@mapping_progress float binary64 k total)).
Proof.
  intros Hk Htotal. unfold mapping_progress.
  cbn [fadd fmul fdiv of_int binary64].
  rewrite add_spec, div_spec, mul_spec.
  apply SFadd_pos; [now apply lit_pos|].
  apply SFdiv_pos; [|now apply float_of_int_pos].
  apply SFmul_pos; [now apply lit_pos|now apply float_of_int_pos].
Qed.

Lemma sf_pos_not_negative (x : float) :
  sf_pos (Prim2SF x) -> (x <? of_int 0)%py = false.
Proof.
  intros Hx. cbn [fltb of_int binary64]. rewrite ltb_spec.
  change (Prim2SF (float_of_int 0)) with (S754_zero false).
  destruct (Prim2SF x) as [s|s| |s m e]; cbn in Hx; subst; reflexivity.
Qed.

Lemma stage_fraction_binary64_nonneg (total : Z) (f : float) :
  @stage_fraction float binary64 total f -> (f <? of_int 0)%py = false.
Proof.
  intros [Hlit|(k & Hk & ->)]; apply sf_pos_not_negative.
  - rewrite !elem_of_cons in Hlit.
    destruct Hlit as [->|[->|[->|[->|[->|Hnil]]]]];
      [apply lit_pos; lia..|inversion Hnil].
  - apply mapping_progress_pos; lia.
Qed.

End Binary64Sign.


Lemma extract_has_runs {F} {num : PyFloat F} (pdf : PdfFile F) :
  extract_text_with_positions pdf <> [] ->
  1 <= len (all_runs (extract_text_with_positions pdf)).
Proof.
  destruct (extract_text_with_positions pdf) as [|pg pgs] eqn:Hpages;
    [congruence|]. intros _.
  assert (Hpg : pg ∈ extract_text_with_positions pdf)
    by (rewrite Hpages; left).
  destruct pdf as [|pages]; [inversion Hpg|].
  apply extract_elem in Hpg as (i & page & _ & Hpage).
  apply extract_page_runs in Hpage as (_ & Hne & _).
  rewrite all_runs_cons. unfold len. rewrite length_app.
  destruct (p_content pg); [congruence|]. cbn [length]. lia.
Qed.

(** What [translate_pdf] returns and leaves behind, from what its [try]
    block does. *)
Lemma translate_pdf_cases {F} {num : PyFloat F} (env : Env F) {TS}
    (translate : TS -> pystr -> (exn + pystr) * TS)
    (upload_dir pdf_path : pystr) (has_callback : bool) (s s' : Eff F TS)
    (r : exn + pystr) :
  translate_pdf env translate upload_dir pdf_path has_callback s = (r, s') ->
  exists res s1,
    translate_pdf_body env translate upload_dir pdf_path has_callback s
      = (res, s1) /\
    calls s' = calls s1 /\ files s' = files s1 /\
    match res with
    | inr output_path =>
        r = inr output_path /\ s' = s1 /\ output_path <> []
    | inl e => r = inr []
    end.
Proof.
  unfold translate_pdf, try_except.
  destruct (translate_pdf_body _ _ _ _ _ s) as [[e|p] s1] eqn:Hbody.
  - unfold translate_pdf_except, mbind, M_bind, bind, ret.
    destruct (progress_callback_spec has_callback (of_int (-1))
                (error_message e) s1)
      as (s2 & -> & _ & Hcalls & _ & Hfiles).
    intros [= <- <-]. exists (inl e), s1. now repeat split.
  - intros [= <- <-]. exists (inr p), s1.
    apply translate_pdf_body_stages in Hbody as [_ Hpath].
    repeat split. now apply Hpath.
Qed.

(** C7, as amended.  For a document with [total] runs whose translation
    succeeds, [translate_pdf] reports exactly the fractions
    [0.1, 0.2, f 1, ..., f total, 0.8, 0.9, 1.0] with
    [f k = 0.2 + (0.6 * k / total)], one [f k] per run whether or not its
    text had been translated before.  In exact arithmetic [f] starts from
    [0.2] at [k = 0], goes strictly up with [k], is [0.8] at [k = total],
    and the whole sequence never goes down.  At binary64, for every
    [total] from 1 to 500, the mapping fractions go strictly up from
    [0.2] and the whole sequence never goes down. *)
Theorem progress_fractions_on_success :
  (forall F (num : PyFloat F) (env : Env F) TS
          (translate : TS -> pystr -> (exn + pystr) * TS)
          (upload_dir pdf_path : pystr) (s s' : Eff F TS) (r : pystr)
          (pdf : PdfFile F),
     translate_pdf env translate upload_dir pdf_path true s = (inr r, s') ->
     r <> [] ->
     open_rb env pdf_path = inr pdf ->
     let total := len (all_runs (extract_text_with_positions pdf)) in
     1 <= total /\
     (new_progress s s').*1 = success_fractions total) /\
  (forall total : Z, 1 <= total ->
     (@mapping_progress Q exact 0 total == lit 2 1)%Q /\
     (forall k, 0 <= k < total ->
        (@mapping_progress Q exact k total
         < mapping_progress (k + 1) total)%Q) /\
     (@mapping_progress Q exact total total == lit 8 1)%Q /\
     StronglySorted Qle (@success_fractions Q exact total)) /\
  forallb (fun total =>
             strictly_ascending
               (lit 2 1 :: @mapping_fractions float binary64 1 total total)
             && ascending (@success_fractions float binary64 total))
    (seqZ 1 500) = true.
Proof.
  split; [|split; [|vm_compute; reflexivity]].
  - intros F num env TS translate upload_dir pdf_path s s' r pdf
      Hrun Hr Hopen total.
    apply translate_pdf_cases in Hrun
      as (res & s1 & Hbody & _ & _ & Hres).
    destruct res as [e|p]; [congruence|].
    destruct Hres as ([= <-] & -> & _).
    apply translate_pdf_body_post in Hbody
      as (evs & new & Hprog & _ & Hcases).
    rewrite Hopen in Hcases. cbv zeta in Hcases.
    destruct Hcases as (_ & m & _ & [(_ & [=] & _)
                                    |[(_ & [e [=]] & _)
                                     |(Hpages & _ & translations & _
                                         & Hrender)]]).
    split; [now apply extract_has_runs|].
    rewrite (new_progress_app _ _ _ Hprog). cbv zeta in Hrender.
    now destruct Hrender as [(_ & [=] & _)
                            |[(_ & [e [=]] & _)|(_ & _ & _ & ->)]].
  - intros total Htotal. destruct lit_exact_values as (_ & H2 & _ & H8 & _).
    split; [now rewrite mapping_progress_start, H2|].
    split; [intros k Hk; apply mapping_progress_step; lia|].
    split; [rewrite mapping_progress_end, H8 by lia; reflexivity|].
    apply success_fractions_sorted. lia.
Qed.

Lemma progress_fractions_on_success_witness :
  let after :=
    (translate_pdf (calm_env ab_pdf) shout (py "uploads") (py "in.pdf")
       true fresh).2 in
  1 <= len (all_runs (extract_text_with_positions ab_pdf)) /\
  (new_progress fresh after).*1
  = success_fractions (len (all_runs (extract_text_with_positions ab_pdf))).
Proof.
  apply (proj1 progress_fractions_on_success float binary64
           (calm_env ab_pdf) unit shout (py "uploads") (py "in.pdf") fresh
           _ (py "uploads/translated_in.pdf") ab_pdf).
  - vm_compute. reflexivity.
  - discriminate.
  - reflexivity.
Defined.

(** C7 (counterexample).  At binary64, for the document of 109 runs, the
    translation succeeds and the fraction reported after the last run is
    [0.2 + (0.6 * 109 / 109)], which is below [0.8] and not equal to it. *)
Lemma last_mapping_fraction_below_08 :
  let run :=
    translate_pdf (calm_env long_pdf) shout (py "uploads") (py "in.pdf")
      true fresh in
  run.1 = inr (py "uploads/translated_in.pdf") /\
  len (all_runs (extract_text_with_positions long_pdf)) = 109 /\
  (progress run.2).*1 !! 110%nat = Some (mapping_progress 109 109) /\
  (progress run.2).*1 !! 111%nat = Some (lit 8 1) /\
  (@mapping_progress float binary64 109 109 =? lit 8 1)%py = false /\
  (@mapping_progress float binary64 109 109 <? lit 8 1)%py = true /\
  @mapping_progress float binary64 109 109 <> lit 8 1.
Proof.
  cbv zeta. repeat split; try (vm_compute; reflexivity).
  intros Heq.
  assert (Hne : (@mapping_progress float binary64 109 109 =? lit 8 1)%py
                = false) by (vm_compute; reflexivity).
  rewrite Heq in Hne. vm_compute in Hne. discriminate.
Qed.

Lemma filter_not_called (text : pystr)
    (new : list (pystr * (exn + pystr))) :
  text ∉ new.*1 -> filter (fun call => call.1 = text) new = [].
Proof.
  induction new as [|call new IH]; intros Hnot; [reflexivity|].
  rewrite fmap_cons, not_elem_of_cons in Hnot. destruct Hnot as [Hne Hnot].
  rewrite filter_cons_False by congruence. now apply IH.
Qed.

Lemma called_once (text : pystr) (new : list (pystr * (exn + pystr))) :
  NoDup new.*1 -> text ∈ new.*1 ->
  length (filter (fun call => call.1 = text) new) = 1%nat.
Proof.
  induction new as [|call new IH]; intros Hnd Hin; [inversion Hin|].
  rewrite fmap_cons in Hnd, Hin. apply NoDup_cons in Hnd as [Hfresh Hnd].
  destruct (decide (call.1 = text)) as [Heq|Hne].
  - rewrite filter_cons_True by assumption.
    rewrite filter_not_called by congruence. reflexivity.
  - rewrite filter_cons_False by assumption. apply IH; [assumption|].
    apply elem_of_cons in Hin as [?|?]; [congruence|assumption].
Qed.

(** C3, as amended.  During [translate_pdf] on a file that opens,
    [translate] is never called twice on the same text and only on texts
    of runs, taken as they are.  When every call returns and the document
    has text, it is called exactly once on each run text, however many
    runs share it; the dictionary holds exactly what these calls returned;
    each run resolves to the result of the one call on its text; every
    string on the canvas of the rendered document is such a result; and
    that rendering is what a successful [translate_pdf] writes. *)
Theorem translate_once_per_text {F} {num : PyFloat F} (env : Env F) {TS}
    (translate : TS -> pystr -> (exn + pystr) * TS)
    (upload_dir pdf_path : pystr) (has_callback : bool) (s s' : Eff F TS)
    (r : exn + pystr) (pdf : PdfFile F) :
  translate_pdf env translate upload_dir pdf_path has_callback s = (r, s') ->
  open_rb env pdf_path = inr pdf ->
  let pages := extract_text_with_positions pdf in
  let texts := r_text <$> all_runs pages in
  let new := new_calls s s' in
  NoDup new.*1 /\
  (forall text outcome, (text, outcome) ∈ new -> text ∈ texts) /\
  (all_returned new -> pages <> [] ->
   invoked_once_each texts new /\
   exists translations : gmap pystr pystr,
     (forall text result,
        translations !! text = Some result <-> (text, inr result) ∈ new) /\
     (forall run, run ∈ all_runs pages ->
        exists result,
          (r_text run, inr result) ∈ new /\
          resolved translations run = result) /\
     (forall c x y text,
        render_document env pages translations = Some c ->
        OpDrawString x y text ∈ c ->
        exists run, run ∈ all_runs pages /\ (r_text run, inr text) ∈ new) /\
     (forall output_path, r = inr output_path -> output_path <> [] ->
        files s' = files s
                     ++ [(output_path,
                          create_pdf_with_layout env pages translations)])).
Proof.
  intros Hrun Hopen pages texts new.
  apply translate_pdf_cases in Hrun
    as (res & s1 & Hbody & Hcalls & Hfiles & Hres).
  apply translate_pdf_body_post in Hbody
    as (evs & new' & _ & Hnew & Hcases).
  rewrite Hopen in Hcases. cbv zeta in Hcases.
  fold pages in Hcases. fold texts in Hcases.
  assert (Hnew' : new = new').
  { unfold new, new_calls. rewrite Hcalls, Hnew. apply drop_app_length. }
  clearbody new. subst new'.
  destruct Hcases as ([Hnd Hin] & m & _ & Hstage).
  split; [assumption|]. split; [assumption|].
  intros Hreturned Hpages.
  destruct Hstage as [(Hnil & _)
                     |[(_ & _ & (text & e & Hraised) & _)
                      |(_ & _ & translations & Hinv & Hrender)]].
  { congruence. }
  { destruct (Hreturned _ _ Hraised) as [? [=]]. }
  destruct Hinv as (_ & Hcalled & Hmap & Hseen).
  assert (Hrun_called : forall run, run ∈ all_runs pages ->
            exists result, (r_text run, inr result) ∈ new /\
                           resolved translations run = result).
  { intros run Hrun.
    assert (Hne : r_text run <> []).
    { pose proof (extract_texts_nonempty pdf) as Hall.
      rewrite Forall_forall in Hall. now apply Hall. }
    assert (Htext : r_text run ∈ texts).
    { apply list_elem_of_fmap. now exists run. }
    pose proof (Hseen _ Htext Hne) as Hcall.
    apply list_elem_of_fmap in Hcall as ([t o] & Ht & Hcall).
    cbn in Ht. subst t.
    destruct (Hcalled _ _ Hcall) as (_ & _ & result & ->).
    exists result. split; [assumption|].
    unfold resolved. apply Hmap in Hcall. now rewrite Hcall. }
  split.
  { intros text Htext. apply called_once; [assumption|].
    apply list_elem_of_fmap in Htext as (run & -> & Hrun).
    destruct (Hrun_called run Hrun) as (result & Hcall & _).
    apply list_elem_of_fmap. now exists (r_text run, inr result). }
  exists translations. split; [assumption|]. split; [assumption|]. split.
  { intros c x y text Hc Hdraw.
    destruct (render_document_strings env pages translations c x y text
                Hc Hdraw) as (_ & run & Hrun & ->).
    exists run. split; [assumption|].
    now destruct (Hrun_called run Hrun) as (result & Hcall & ->). }
  intros output_path -> Hout. cbv zeta in Hrender.
  destruct res as [e|p].
  { injection Hres as Hnil. congruence. }
  destruct Hres as ([= ->] & -> & _).
  destruct Hrender as [(_ & [=] & _)
                      |[(_ & [e [=]] & _)|(_ & [= Hp] & Hwritten & _)]].
  subst. exact Hwritten.
Qed.

Lemma translate_once_per_text_witness :
  let after :=
    (translate_pdf
       (calm_env (Parsed [hello_page; blank_page; hello_page])) shout
       (py "uploads") (py "in.pdf") true fresh).2 in
  let texts :=
    r_text <$> all_runs
      (extract_text_with_positions
         (Parsed [hello_page; blank_page; hello_page])) in
  texts = [py "Hello, World!"; py "Hello, World!"] /\
  new_calls fresh after = [(py "Hello, World!", inr (py "Hello, World!!"))] /\
  NoDup (new_calls fresh after).*1 /\
  (forall text outcome,
     (text, outcome) ∈ new_calls fresh after -> text ∈ texts) /\
  invoked_once_each texts (new_calls fresh after).
Proof.
  cbv zeta.
  assert (Hnew : new_calls fresh
                   (translate_pdf
                      (calm_env (Parsed [hello_page; blank_page; hello_page]))
                      shout (py "uploads") (py "in.pdf") true fresh).2
                 = [(py "Hello, World!", inr (py "Hello, World!!"))])
    by (vm_compute; reflexivity).
  split; [vm_compute; reflexivity|]. split; [exact Hnew|].
  pose proof (translate_once_per_text
                (calm_env (Parsed [hello_page; blank_page; hello_page]))
                shout (py "uploads") (py "in.pdf") true fresh _ _
                (Parsed [hello_page; blank_page; hello_page])
                (surjective_pairing _) eq_refl) as H.
  cbv zeta in H. destruct H as (Hnd & Hin & Hrest).
  split; [assumption|]. split; [assumption|].
  apply Hrest.
  - rewrite Hnew. intros text outcome Hcall.
    apply list_elem_of_singleton in Hcall as [= -> ->]. eauto.
  - vm_compute. discriminate.
Defined.

(** C3 (counterexample).  With a translator that raises on every call and
    the document whose runs are [a] and [b], [translate] is called on [a]
    and never on [b]: it is not called exactly once on each run text. *)
Lemma raising_translator_skips_texts :
  let after :=
    (translate_pdf (calm_env ab_pdf) broken (py "uploads") (py "in.pdf")
       true fresh).2 in
  let texts :=
    r_text <$> all_runs (extract_text_with_positions ab_pdf) in
  texts = [py "a"; py "b"] /\
  (new_calls fresh after).*1 = [py "a"] /\
  ~ invoked_once_each texts (new_calls fresh after).
Proof.
  cbv zeta. split; [vm_compute; reflexivity|].
  split; [vm_compute; reflexivity|].
  intros Honce. specialize (Honce (py "b")).
  assert (Hin : py "b" ∈
                r_text <$> all_runs (extract_text_with_positions ab_pdf)).
  { vm_compute. right. left. }
  specialize (Honce Hin). vm_compute in Honce. discriminate.
Qed.

(** ** More on [clean_text] *)

Lemma spaced_from_word (w rest : pystr) (after_space : bool) :
  w <> [] -> nospace w = true ->
  spaced_from after_space (w ++ rest) = spaced_from false rest.
Proof.
  revert after_space. induction w as [|c w IH]; intros b Hne Hw; [congruence|].
  cbn in Hw. apply andb_prop in Hw as [Hc Hw]. apply negb_true_iff in Hc.
  cbn. rewrite Hc. destruct w as [|d w]; [reflexivity|].
  now apply IH.
Qed.

Lemma spaced_from_join (ws : list pystr) :
  ws <> [] -> Forall is_word ws -> spaced_from true (join [space] ws) = true.
Proof.
  induction ws as [|w ws IH]; intros Hne Hws; [congruence|].
  inversion Hws as [|? ? [Hw1 Hw2] Hrest]; subst.
  destruct ws as [|w' ws].
  - cbn [join]. rewrite <- (app_nil_r w), spaced_from_word by assumption.
    reflexivity.
  - change (join [space] (w :: w' :: ws))
      with (w ++ space :: join [space] (w' :: ws)).
    rewrite spaced_from_word by assumption.
    cbn [spaced_from]. change (isspace space) with true. cbv iota.
    rewrite N.eqb_refl. cbn [negb andb]. now apply IH.
Qed.

Lemma join_nil_inv (sep : pystr) (ws : list pystr) :
  Forall (fun w => w <> []) ws -> join sep ws = [] -> ws = [].
Proof.
  destruct ws as [|w ws]; [reflexivity|]. intros Hws Hnil.
  inversion Hws as [|? ? Hw _]; subst.
  destruct ws; cbn in Hnil; [congruence|].
  apply app_eq_nil in Hnil as [? _]. congruence.
Qed.

Lemma words_nonempty (ws : list pystr) :
  Forall is_word ws -> Forall (fun w => w <> []) ws.
Proof. intros H. eapply Forall_impl; [exact H|]. now intros w [? _]. Qed.

Lemma single_spaced_join (ws : list pystr) :
  Forall is_word ws -> single_spaced (join [space] ws) = true.
Proof.
  intros Hws. unfold single_spaced.
  destruct (join [space] ws) as [|c s] eqn:Hj; [reflexivity|].
  rewrite <- Hj. apply spaced_from_join; [|assumption].
  intros ->. discriminate.
Qed.

(** On a string of single spaces between words, [split] followed by
    [join] gives the string back. *)
Lemma join_split_from (s cur : pystr) :
  spaced_from (bool_decide (cur = [])) s = true ->
  join [space] (split_from cur s) = cur ++ s.
Proof.
  revert cur. induction s as [|c s IH]; intros cur Hs; cbn in Hs |- *.
  - destruct cur as [|d cur]; [discriminate|]. now rewrite app_nil_r.
  - destruct (isspace c) eqn:Hc.
    + apply andb_prop in Hs as [Hs Hrest]. apply andb_prop in Hs as [Heq Hcur].
      apply N.eqb_eq in Heq. subst c.
      destruct cur as [|d cur]; [discriminate|].
      pose proof (IH [] Hrest) as Hjoin. cbn [app] in Hjoin.
      destruct (split_from [] s) as [|w ws] eqn:Hsplit.
      * cbn in Hjoin. subst s. discriminate.
      * change (join [space] ((d :: cur) :: w :: ws))
          with ((d :: cur) ++ space :: join [space] (w :: ws)).
        now rewrite Hjoin.
    + rewrite IH.
      * now rewrite <- app_assoc.
      * destruct cur; exact Hs.
Qed.

Lemma split_from_started (s cur : pystr) :
  cur <> [] -> split_from cur s <> [].
Proof.
  revert cur. induction s as [|c s IH]; intros cur Hcur; cbn.
  - now destruct cur.
  - destruct (isspace c); [now destruct cur|].
    apply IH. now destruct cur.
Qed.

Lemma split_from_blank (s : pystr) : split_from [] s = [] <-> blank s = true.
Proof.
  induction s as [|c s IH]; cbn; [tauto|].
  destruct (isspace c) eqn:Hc; [exact IH|]. cbn. split; [|discriminate].
  intros Hnil. now apply split_from_started in Hnil.
Qed.

Lemma len_join_cons (sep w : pystr) (ws : list pystr) :
  len (join sep (w :: ws)) <= len w + len sep + len (join sep ws).
Proof.
  destruct ws as [|w' ws]; cbn [join]; unfold len.
  - cbn. lia.
  - rewrite !length_app. lia.
Qed.

Lemma len_join_split_from (s cur : pystr) :
  len (join [space] (split_from cur s)) <= len cur + len s.
Proof.
  revert cur. induction s as [|c s IH]; intros cur; cbn [split_from].
  - destruct cur; unfold len; cbn; lia.
  - destruct (isspace c).
    + destruct cur as [|d cur].
      * specialize (IH []). unfold len in *. cbn in *. lia.
      * pose proof (len_join_cons [space] (d :: cur) (split_from [] s)).
        specialize (IH []). unfold len in *. cbn in *. lia.
    + specialize (IH (cur ++ [c])). unfold len in *.
      rewrite length_app in IH. cbn in *. lia.
Qed.

(** X1.  [clean_text] returns a string in which every whitespace character
    is a single space between two words, and the strings of that shape are
    exactly the ones it leaves as they are. *)
Theorem clean_text_single_spaced (t : pystr) :
  single_spaced (Utils.clean_text t) = true /\
  (Utils.clean_text t = t <-> single_spaced t = true).
Proof.
  assert (Hshape : single_spaced (Utils.clean_text t) = true)
    by apply single_spaced_join, split_words.
  split; [assumption|]. split.
  - intros Heq. now rewrite Heq in Hshape.
  - unfold single_spaced, Utils.clean_text, split.
    destruct t as [|c t]; [reflexivity|]. intros Hs.
    now apply (join_split_from (c :: t) []).
Qed.

(** X2.  [clean_text] removes whitespace and nothing else: the words of
    the result are the words of the input in the same order, the result is
    never longer than the input, and it is empty exactly when the input
    holds nothing but whitespace. *)
Theorem clean_text_keeps_words (t : pystr) :
  split (Utils.clean_text t) = split t /\
  len (Utils.clean_text t) <= len t /\
  (Utils.clean_text t = [] <-> blank t = true).
Proof.
  unfold Utils.clean_text. split; [apply split_join, split_words|].
  split; [apply (len_join_split_from t [])|].
  rewrite <- split_from_blank. fold (split t). split.
  - apply join_nil_inv, words_nonempty, split_words.
  - now intros ->.
Qed.

(** ** More on [split_text] *)

Lemma Sorted_snoc {A} (R : A -> A -> Prop) (l : list A) (y : A) :
  Sorted R l -> (forall x, last l = Some x -> R x y) -> Sorted R (l ++ [y]).
Proof.
  induction l as [|a l IH]; intros Hs Hlast; cbn.
  - repeat constructor.
  - apply Sorted_inv in Hs as [Hs Hhd]. constructor.
    + apply IH; [assumption|]. intros x Hx. apply Hlast.
      destruct l; [discriminate|exact Hx].
    + destruct l as [|b l]; cbn.
      * constructor. now apply Hlast.
      * inversion Hhd; subst. now constructor.
Qed.

Lemma Sorted_snoc_change {A} (R : A -> A -> Prop) (l : list A) (x y : A) :
  Sorted R (l ++ [x]) -> (forall g, R g x -> R g y) -> Sorted R (l ++ [y]).
Proof.
  induction l as [|a l IH]; intros Hs Hxy; cbn in *.
  - repeat constructor.
  - apply Sorted_inv in Hs as [Hs Hhd]. constructor; [now apply IH|].
    destruct l as [|b l]; cbn in *; inversion Hhd; subst; constructor; auto.
Qed.

Lemma Sorted_lookup {A} (R : A -> A -> Prop) (l : list A) (i : nat) (a b : A) :
  Sorted R l -> l !! i = Some a -> l !! S i = Some b -> R a b.
Proof.
  revert i. induction l as [|c l IH]; intros i Hs Ha Hb; [discriminate|].
  apply Sorted_inv in Hs as [Hs Hhd]. destruct i as [|i].
  - cbn in Ha, Hb. injection Ha as ->. destruct l as [|d l]; [discriminate|].
    cbn in Hb. injection Hb as ->. now inversion Hhd.
  - cbn in Ha, Hb. now apply (IH i).
Qed.

Lemma len_app {A} (a b : list A) : len (a ++ b) = len a + len b.
Proof. unfold len. rewrite length_app. lia. Qed.

Lemma len_nonneg {A} (a : list A) : 0 <= len a.
Proof. unfold len. lia. Qed.

Lemma len_join_snoc (g : list pystr) (w : pystr) :
  g <> [] ->
  len (join [space] (g ++ [w])) = len (join [space] g) + 1 + len w.
Proof.
  intros Hg. rewrite join_app by (assumption || discriminate).
  rewrite !len_app. cbn [join]. unfold len at 2. cbn. lia.
Qed.

Lemma split_step_groups (max_length : Z) (seen : list pystr)
    (st : list pystr * list pystr) (word : pystr) :
  split_groups max_length seen st ->
  split_groups max_length (seen ++ [word])
    (Utils.split_step max_length st word).
Proof.
  destruct st as [chunks cur].
  intros (groups & -> & <- & Hne & Hfit & Htight).
  pose proof Hne as Hne'. apply Forall_app in Hne' as [Hgne Hcur].
  rewrite Forall_singleton in Hcur.
  unfold Utils.split_step.
  destruct (len (join [space] (cur ++ [word])) >? max_length) eqn:Hover.
  - apply Z.gtb_lt in Hover.
    assert (Hlen : (len (cur ++ [word]) >? 1) = true).
    { rewrite len_app. unfold len. destruct cur; [congruence|].
      cbn. apply Z.gtb_lt. lia. }
    rewrite Hlen, removelast_last.
    exists (groups ++ [cur]). split; [now rewrite List.map_app|].
    split; [rewrite concat_app; cbn; now rewrite app_nil_r, <- app_assoc|].
    split; [apply Forall_app; split; [assumption|now repeat constructor]|].
    split.
    + apply Forall_app. split; [assumption|].
      apply Forall_singleton. now right.
    + apply Sorted_snoc; [assumption|]. intros g Hg.
      rewrite last_snoc in Hg. injection Hg as <-. exact Hover.
  - rewrite Z.gtb_ltb in Hover. apply Z.ltb_ge in Hover.
    exists groups. split; [reflexivity|].
    split; [now rewrite app_assoc|].
    apply Forall_app in Hfit as [Hgfit _].
    split; [apply Forall_app; split; [assumption|]|].
    { apply Forall_singleton. now destruct cur. }
    split.
    + apply Forall_app. split; [assumption|].
      apply Forall_singleton. now left.
    + apply (Sorted_snoc_change _ _ cur); [assumption|].
      intros g Hg. now destruct cur.
Qed.

Lemma split_fold_groups (max_length : Z) (words seen : list pystr)
    (st : list pystr * list pystr) :
  split_groups max_length seen st ->
  split_groups max_length (seen ++ words)
    (fold_left (Utils.split_step max_length) words st).
Proof.
  revert seen st. induction words as [|w words IH]; intros seen st Hst; cbn.
  - now rewrite app_nil_r.
  - replace (seen ++ w :: words) with ((seen ++ [w]) ++ words)
      by now rewrite <- app_assoc.
    apply IH. now apply split_step_groups.
Qed.

(** The chunks of [split_text] as groups of words. *)
Lemma split_text_groups (t : pystr) (max_length : Z) :
  exists groups : list (list pystr),
    Utils.split_text t max_length = List.map (join [space]) groups /\
    concat groups = words_out max_length (split t) /\
    Forall (fun g => g <> []) groups /\
    Forall (fun g => len (join [space] g) <= max_length \/ length g = 1%nat)
      groups /\
    Sorted (fun g h => max_length < len (join [space] (g ++ take 1 h)))
      groups.
Proof.
  unfold Utils.split_text, words_out.
  destruct (split t) as [|w words].
  { exists []. repeat split; constructor. }
  cbn [fold_left].
  assert (Hfirst : split_groups max_length
                     (if len w >? max_length then [w; w] else [w])
                     (Utils.split_step max_length ([], []) w)).
  { unfold Utils.split_step. cbn [app join].
    destruct (len w >? max_length) eqn:Hover.
    - apply Z.gtb_lt in Hover. exists [[w]].
      split; [reflexivity|]. split; [reflexivity|].
      split; [repeat constructor; discriminate|].
      split; [repeat (constructor; [now right|]); constructor|].
      repeat constructor. cbn [app take join]. rewrite !len_app.
      pose proof (len_nonneg w). unfold len at 2. cbn. lia.
    - exists []. split; [reflexivity|]. split; [reflexivity|].
      split; [repeat constructor; discriminate|].
      split; [repeat (constructor; [now right|]); constructor|].
      repeat constructor. }
  apply (split_fold_groups _ words) in Hfirst.
  destruct (fold_left _ words _) as [chunks cur].
  destruct Hfirst as (groups & -> & Hseen & Hne & Hfit & Htight).
  pose proof Hne as Hne'. apply Forall_app in Hne' as [_ Hcur].
  rewrite Forall_singleton in Hcur.
  exists (groups ++ [cur]). split.
  { destruct cur; [congruence|]. now rewrite List.map_app. }
  split; [|now repeat split].
  rewrite concat_app. cbn. rewrite app_nil_r, Hseen.
  now destruct (len w >? max_length).
Qed.

Lemma words_out_words (max_length : Z) (t : pystr) :
  Forall is_word (words_out max_length (split t)).
Proof.
  pose proof (split_words t) as Hw. unfold words_out.
  destruct (split t) as [|w rest]; [constructor|].
  destruct (len w >? max_length); [|assumption].
  constructor; [|assumption]. now inversion Hw.
Qed.

Lemma words_out_elem (max_length : Z) (words : list pystr) (w : pystr) :
  w ∈ words_out max_length words -> w ∈ words.
Proof.
  unfold words_out. destruct words as [|v rest]; [trivial|].
  destruct (len v >? max_length); [|trivial].
  rewrite !elem_of_cons. tauto.
Qed.

Lemma concat_Forall {A} (P : A -> Prop) (ls : list (list A)) :
  Forall P (concat ls) -> Forall (Forall P) ls.
Proof.
  induction ls as [|l ls IH]; cbn; intros H; [constructor|].
  apply Forall_app in H as [? ?]. constructor; auto.
Qed.

(** The groups behind the chunks are groups of words of the text. *)
Lemma split_text_groups_words (t : pystr) (max_length : Z)
    (groups : list (list pystr)) :
  concat groups = words_out max_length (split t) ->
  Forall (Forall is_word) groups.
Proof.
  intros Hcat. apply concat_Forall. rewrite Hcat. apply words_out_words.
Qed.

(** X3.  A chunk of [split_text] is longer than [max_length] only when it
    is a single word of the text that is itself longer; so when every word
    fits, every chunk does. *)
Theorem split_text_chunk_size (t : pystr) (max_length : Z) :
  Forall (fun chunk => len chunk <= max_length \/
                       (max_length < len chunk /\ chunk ∈ split t))
    (Utils.split_text t max_length) /\
  (Forall (fun w => len w <= max_length) (split t) ->
   Forall (fun chunk => len chunk <= max_length)
     (Utils.split_text t max_length)).
Proof.
  destruct (split_text_groups t max_length)
    as (groups & -> & Hcat & _ & Hfit & _).
  assert (Hin : forall g, g ∈ groups -> length g = 1%nat ->
                          join [space] g ∈ split t).
  { intros g Hg Hone. destruct g as [|w [|? ?]]; try discriminate.
    cbn [join]. apply (words_out_elem max_length). rewrite <- Hcat.
    apply list_elem_of_In, in_concat. exists [w].
    split; [now apply list_elem_of_In|now left]. }
  split.
  - apply Forall_fmap, Forall_forall. intros g Hg. cbn.
    rewrite Forall_forall in Hfit.
    destruct (Z.le_gt_cases (len (join [space] g)) max_length) as [?|Hlong];
      [now left|right].
    split; [assumption|]. destruct (Hfit g Hg) as [?|Hone]; [lia|auto].
  - intros Hwords. apply Forall_fmap, Forall_forall. intros g Hg. cbn.
    rewrite Forall_forall in Hfit. rewrite Forall_forall in Hwords.
    destruct (Hfit g Hg) as [?|Hone]; [assumption|]. now apply Hwords, Hin.
Qed.

(** X4.  The words of the chunks, taken chunk after chunk, are the words
    of the text in order; nothing is dropped, reordered or cut, and the
    only word handed out twice is a first word longer than [max_length]. *)
Theorem split_text_words (t : pystr) (max_length : Z) :
  concat (split <$> Utils.split_text t max_length)
  = match split t with
    | [] => []
    | w :: rest => if len w >? max_length then w :: w :: rest else w :: rest
    end.
Proof.
  destruct (split_text_groups t max_length)
    as (groups & -> & Hcat & _ & _ & _).
  fold (words_out max_length (split t)). rewrite <- Hcat.
  pose proof (split_text_groups_words _ _ _ Hcat) as Hwords.
  f_equal. clear Hcat. induction Hwords as [|g groups Hg _ IH]; cbn.
  - reflexivity.
  - now rewrite split_join, IH.
Qed.

Lemma len_join_prefix (a b : list pystr) :
  len (join [space] a) <= len (join [space] (a ++ b)).
Proof.
  destruct a as [|x a]; [apply len_nonneg|].
  destruct b as [|y b]; [now rewrite app_nil_r|].
  rewrite join_app by discriminate. rewrite !len_app.
  pose proof (len_nonneg (join [space] (y :: b))).
  pose proof (len_nonneg [space]). lia.
Qed.

Lemma split_fold_short (max_length : Z) (words cur : list pystr) :
  len (join [space] (cur ++ words)) <= max_length ->
  fold_left (Utils.split_step max_length) words ([], cur)
  = ([], cur ++ words).
Proof.
  revert cur. induction words as [|w words IH]; intros cur Hfit;
    cbn [fold_left].
  - now rewrite app_nil_r.
  - assert (Hstep : Utils.split_step max_length ([], cur) w
                    = ([], cur ++ [w])).
    { unfold Utils.split_step.
      destruct (len (join [space] (cur ++ [w])) >? max_length) eqn:Hover;
        [|reflexivity].
      apply Z.gtb_lt in Hover.
      pose proof (len_join_prefix (cur ++ [w]) words) as Hpre.
      rewrite <- app_assoc in Hpre. cbn in Hpre. lia. }
    rewrite Hstep, IH; rewrite <- app_assoc; [reflexivity|exact Hfit].
Qed.

(** X5.  A text whose cleaned form is not empty and fits in [max_length]
    comes out as one chunk, the cleaned text. *)
Theorem split_text_short (t : pystr) (max_length : Z) :
  Utils.clean_text t <> [] ->
  len (Utils.clean_text t) <= max_length ->
  Utils.split_text t max_length = [Utils.clean_text t].
Proof.
  unfold Utils.split_text, Utils.clean_text. intros Hne Hfit.
  rewrite (split_fold_short max_length (split t) []) by exact Hfit.
  cbn [app]. destruct (split t); [now cbn in Hne|reflexivity].
Qed.

Lemma split_text_short_witness :
  Utils.split_text (py "  Hello,   World! ") 512
  = [Utils.clean_text (py "  Hello,   World! ")].
Proof.
  apply (split_text_short (py "  Hello,   World! ") 512).
  - discriminate.
  - vm_compute. discriminate.
Defined.

(** X6.  [split_text] returns no chunk exactly when the text holds nothing
    but whitespace, and every chunk it returns is a non-empty string of
    words separated by single spaces. *)
Theorem split_text_chunks_clean (t : pystr) (max_length : Z) :
  (Utils.split_text t max_length = [] <-> blank t = true) /\
  Forall (fun chunk => chunk <> [] /\ single_spaced chunk = true)
    (Utils.split_text t max_length).
Proof.
  destruct (split_text_groups t max_length)
    as (groups & -> & Hcat & Hne & _ & _).
  pose proof (split_text_groups_words _ _ _ Hcat) as Hwords.
  split.
  - rewrite <- split_from_blank. fold (split t). split.
    + intros Hnil. apply fmap_nil_inv in Hnil. subst groups.
      cbn in Hcat. unfold words_out in Hcat.
      destruct (split t) as [|w rest]; [reflexivity|].
      destruct (len w >? max_length); discriminate.
    + intros Hnil. rewrite Hnil in Hcat. cbn in Hcat.
      destruct groups as [|g groups]; [reflexivity|].
      apply Forall_cons in Hne as [Hg _]. cbn in Hcat.
      apply app_eq_nil in Hcat as [? _]. congruence.
  - apply Forall_fmap, Forall_forall. intros g Hg. cbn.
    rewrite Forall_forall in Hne. rewrite Forall_forall in Hwords. split.
    + intros Hnil. apply join_nil_inv in Hnil; [now apply (Hne g)|].
      now apply words_nonempty, Hwords.
    + now apply single_spaced_join, Hwords.
Qed.

(** X7.  [split_text] fills its chunks greedily: a chunk followed by
    another one could not have taken the first word of that next chunk
    (with the space before it) within [max_length]. *)
Theorem split_text_greedy (t : pystr) (max_length : Z) (i : nat)
    (chunk next : pystr) :
  Utils.split_text t max_length !! i = Some chunk ->
  Utils.split_text t max_length !! S i = Some next ->
  max_length < len chunk + 1 + len (default [] (head (split next))).
Proof.
  destruct (split_text_groups t max_length)
    as (groups & -> & Hcat & Hne & _ & Htight).
  pose proof (split_text_groups_words _ _ _ Hcat) as Hwords.
  rewrite !list_lookup_fmap. intros Hi Hnext.
  destruct (groups !! i) as [g|] eqn:Hg; [|discriminate].
  destruct (groups !! S i) as [h|] eqn:Hh; [|discriminate].
  cbn in Hi, Hnext. injection Hi as <-. injection Hnext as <-.
  pose proof (Sorted_lookup _ _ _ _ _ Htight Hg Hh) as Hgh. cbn in Hgh.
  rewrite Forall_forall in Hne. rewrite Forall_forall in Hwords.
  assert (Hgne : g <> []) by (apply Hne; eapply list_elem_of_lookup_2; eauto).
  assert (Hhw : Forall is_word h)
    by (apply Hwords; eapply list_elem_of_lookup_2; eauto).
  assert (Hhne : h <> []) by (apply Hne; eapply list_elem_of_lookup_2; eauto).
  rewrite split_join by assumption.
  destruct h as [|w h]; [congruence|]. cbn in Hgh |- *.
  now rewrite len_join_snoc in Hgh.
Qed.

Lemma split_text_greedy_witness :
  Utils.split_text (py "aa bb cc dd") 5 !! 0%nat = Some (py "aa bb") /\
  Utils.split_text (py "aa bb cc dd") 5 !! 1%nat = Some (py "cc dd") /\
  5 < len (py "aa bb") + 1 + len (default [] (head (split (py "cc dd")))).
Proof.
  split; [reflexivity|]. split; [reflexivity|].
  apply (split_text_greedy (py "aa bb cc dd") 5 0 (py "aa bb") (py "cc dd"));
    reflexivity.
Defined.

(** ** [Utils.is_valid_file] *)

Example path_name_examples :
  path_name (py "uploads/report.PDF") = py "report.PDF" /\
  path_name (py "a/b.pdf/") = py "b.pdf" /\
  path_name (py "a/.") = py "a" /\
  path_name (py "/") = [] /\
  suffix (py "archive.tar.Pdf") = py ".Pdf" /\
  suffix (py ".pdf") = [] /\
  suffix (py "notes.") = [] /\
  suffix (py "README") = [].
Proof. repeat split; vm_compute; reflexivity. Qed.

Lemma rfind_fold (c : N) (s : pystr) (i found : Z) :
  (foldl (fun '(i, found) d => (i + 1, if (d =? c)%N then i else found))
     (i, found) s).1 = i + len s.
Proof.
  revert i found. induction s as [|d s IH]; intros i found; cbn.
  - unfold len. cbn. lia.
  - rewrite IH. unfold len. cbn [length]. lia.
Qed.

Lemma rfind_snoc (c : N) (s : pystr) (d : N) :
  rfind c (s ++ [d]) = if (d =? c)%N then len s else rfind c s.
Proof.
  unfold rfind. rewrite foldl_snoc.
  pose proof (rfind_fold c s 0 (-1)) as Hlen.
  destruct (foldl _ _ s) as [i found]. cbn in *. subst i.
  now rewrite Z.add_0_l.
Qed.

Lemma rfind_last (c : N) (pre post : pystr) :
  Forall (fun d => d <> c) post -> rfind c (pre ++ c :: post) = len pre.
Proof.
  induction post as [|d post IH] using rev_ind; intros Hall.
  - change (pre ++ [c]) with (pre ++ [c]). rewrite rfind_snoc.
    now rewrite N.eqb_refl.
  - apply Forall_app in Hall as [Hpost Hd].
    rewrite Forall_singleton in Hd.
    change (pre ++ c :: post ++ [d]) with (pre ++ (c :: post) ++ [d]).
    rewrite app_assoc, rfind_snoc.
    apply N.eqb_neq in Hd. rewrite Hd. now apply IH.
Qed.

Lemma ascii_lower_dot (c : N) : ascii_lower c = dot -> c = dot.
Proof.
  unfold ascii_lower, dot.
  destruct ((0x41 <=? c) && (c <=? 0x5A))%N eqn:Hup; [|trivial].
  apply andb_prop in Hup as [H1 H2].
  apply N.leb_le in H1, H2. lia.
Qed.

Lemma ascii_lower_is_ascii (c : N) :
  is_ascii (ascii_lower c) = true -> is_ascii c = true.
Proof.
  unfold ascii_lower, is_ascii.
  destruct ((0x41 <=? c) && (c <=? 0x5A))%N eqn:Hup; [|trivial].
  apply andb_prop in Hup as [H1 H2]. apply N.leb_le in H1, H2.
  intros _. apply N.ltb_lt. lia.
Qed.

(** A suffix that reads [.pdf] in lower case: a dot and three letters,
    all of them ASCII. *)
Lemma pdf_extension (ext : pystr) :
  List.map ascii_lower ext = py ".pdf" ->
  exists rest,
    ext = dot :: rest /\ len rest = 3 /\
    Forall (fun d => d <> dot) rest /\ forallb is_ascii ext = true.
Proof.
  destruct ext as [|c0 [|c1 [|c2 [|c3 [|c4 ext]]]]]; try discriminate.
  intros [= H0 H1 H2 H3].
  pose proof (ascii_lower_dot c0 H0) as ->.
  exists [c1; c2; c3]. split; [reflexivity|]. split; [reflexivity|].
  split.
  - repeat constructor; intros ->; discriminate.
  - cbn [forallb].
    rewrite (ascii_lower_is_ascii c1), (ascii_lower_is_ascii c2),
      (ascii_lower_is_ascii c3); [reflexivity|..];
      (rewrite H3 || rewrite H2 || rewrite H1); reflexivity.
Qed.

(** X8.  With the default extensions, [Utils.is_valid_file] accepts every file
    whose name (the last component of the path) is a non-empty stem
    followed by [.pdf] in any mix of upper and lower case; and a file it
    accepts, when its suffix is ASCII, has such a name.  So [report.PDF]
    passes, and [.pdf], [report.pdf.] and [report] do not. *)
Theorem is_valid_file_pdf (unicode_lower : pystr -> pystr)
    (filename : pystr) :
  let pdf_name :=
    exists stem ext,
      path_name filename = stem ++ ext /\ stem <> [] /\
      List.map ascii_lower ext = py ".pdf" in
  (pdf_name ->
   Utils.is_valid_file unicode_lower filename Utils.default_extensions
   = true) /\
  (Utils.is_valid_file unicode_lower filename Utils.default_extensions
   = true ->
   forallb is_ascii (suffix filename) = true -> pdf_name).
Proof.
  cbv zeta. unfold Utils.is_valid_file, Utils.default_extensions, lower, suffix.
  split.
  - intros (stem & ext & Hname & Hstem & Hext).
    destruct (pdf_extension ext Hext) as (rest & -> & Hrest & Hnodot & Hascii).
    rewrite Hname, (rfind_last dot stem rest Hnodot).
    assert (Hpos : (0 <? len stem) = true).
    { apply Z.ltb_lt. unfold len. destruct stem; [congruence|]. cbn. lia. }
    assert (Hin : (len stem <? len (stem ++ dot :: rest) - 1) = true).
    { apply Z.ltb_lt. rewrite len_app. unfold len in *. cbn [length]. lia. }
    rewrite Hpos, Hin. cbn [andb].
    unfold len. rewrite Nat2Z.id, drop_app_length, Hascii, Hext.
    apply bool_decide_eq_true, elem_of_singleton. reflexivity.
  - intros Hvalid Hascii. rewrite Hascii in Hvalid.
    apply bool_decide_eq_true, elem_of_singleton in Hvalid.
    destruct ((0 <? rfind dot (path_name filename))
              && (rfind dot (path_name filename)
                  <? len (path_name filename) - 1)) eqn:Hcond;
      [|discriminate].
    apply andb_prop in Hcond as [Hpos _]. apply Z.ltb_lt in Hpos.
    exists (take (Z.to_nat (rfind dot (path_name filename)))
              (path_name filename)),
      (drop (Z.to_nat (rfind dot (path_name filename))) (path_name filename)).
    split; [now rewrite take_drop|]. split; [|assumption].
    intros Hnil. destruct (path_name filename) as [|c name].
    + rewrite drop_nil in Hvalid. discriminate.
    + destruct (Z.to_nat (rfind dot (c :: name))) eqn:Hz;
        [lia|discriminate].
Qed.

Example is_valid_file_examples (unicode_lower : pystr -> pystr) :
  let accepts name :=
    Utils.is_valid_file unicode_lower name Utils.default_extensions in
  accepts (py "report.pdf") = true /\
  accepts (py "Report.PDF") = true /\
  accepts (py ".pdf") = false /\
  accepts (py "report.pdf.") = false /\
  accepts (py "report.pdf.exe") = false.
Proof. cbv zeta. repeat split; vm_compute; reflexivity. Qed.

(** ** [Utils.create_required_directories] *)

Section DirectoryFacts.
Context (mkdir_refused : FileSystem -> pystr -> option pystr).

Lemma makedirs_exist_ok_spec (name : pystr) (fs fs' : FileSystem) :
  makedirs_exist_ok mkdir_refused name fs = (inr tt, fs') ->
  fs' !! name = Some Directory /\
  (fs' = fs \/ (fs !! name = None /\ fs' = <[name := Directory]> fs)).
Proof.
  unfold makedirs_exist_ok, mkdir.
  destruct (fs !! name) as [[|]|] eqn:Hname.
  - rewrite Hname. discriminate.
  - rewrite Hname. intros [= <-]. split; [assumption|now left].
  - destruct (mkdir_refused fs name).
    + rewrite Hname. discriminate.
    + intros [= <-]. rewrite lookup_insert_eq. split; [reflexivity|].
      right. now split.
Qed.

Lemma makedirs_exist_ok_again (name : pystr) (fs : FileSystem) :
  fs !! name = Some Directory ->
  makedirs_exist_ok mkdir_refused name fs = (inr tt, fs).
Proof.
  intros Hdir. unfold makedirs_exist_ok, mkdir. rewrite Hdir. cbv iota beta.
  now rewrite Hdir.
Qed.

End DirectoryFacts.

(** X9.  When [Utils.create_required_directories] returns without raising,
    [uploads], [models] and [static] are directories, every entry that
    existed is what it was and no other entry has appeared; and calling it
    again succeeds and changes nothing, whatever the system would refuse
    to create. *)
Theorem create_required_directories_spec
    (mkdir_refused mkdir_refused' : FileSystem -> pystr -> option pystr)
    (fs fs' : FileSystem) :
  Utils.create_required_directories mkdir_refused fs = (inr tt, fs') ->
  Forall (fun name => fs' !! name = Some Directory)
    Utils.required_directories /\
  fs ⊆ fs' /\
  (forall name,
     name ∉ Utils.required_directories -> fs' !! name = fs !! name) /\
  Utils.create_required_directories mkdir_refused' fs' = (inr tt, fs').
Proof.
  unfold Utils.create_required_directories, Utils.required_directories.
  cbn [foldl].
  destruct (makedirs_exist_ok mkdir_refused (py "uploads") fs)
    as [[e|[]] fs1] eqn:H1; [discriminate|].
  destruct (makedirs_exist_ok mkdir_refused (py "models") fs1)
    as [[e|[]] fs2] eqn:H2; [discriminate|].
  intros H3.
  apply makedirs_exist_ok_spec in H1 as [Hd1 Hfs1].
  apply makedirs_exist_ok_spec in H2 as [Hd2 Hfs2].
  apply makedirs_exist_ok_spec in H3 as [Hd3 Hfs3].
  assert (Hsub1 : fs ⊆ fs1).
  { destruct Hfs1 as [->|[Hnone ->]]; [reflexivity|].
    now apply insert_subseteq. }
  assert (Hsub2 : fs1 ⊆ fs2).
  { destruct Hfs2 as [->|[Hnone ->]]; [reflexivity|].
    now apply insert_subseteq. }
  assert (Hsub3 : fs2 ⊆ fs').
  { destruct Hfs3 as [->|[Hnone ->]]; [reflexivity|].
    now apply insert_subseteq. }
  assert (Hu : fs' !! py "uploads" = Some Directory).
  { eapply lookup_weaken; [|exact Hsub3].
    eapply lookup_weaken; [exact Hd1|exact Hsub2]. }
  assert (Hm : fs' !! py "models" = Some Directory).
  { eapply lookup_weaken; [exact Hd2|exact Hsub3]. }
  split; [repeat constructor; assumption|].
  split; [transitivity fs1; [assumption|]; transitivity fs2; assumption|].
  split.
  - intros name Hname. rewrite !not_elem_of_cons in Hname.
    destruct Hname as (Hn1 & Hn2 & Hn3 & _).
    assert (E3 : fs' !! name = fs2 !! name).
    { destruct Hfs3 as [->|[_ ->]]; [reflexivity|].
      now rewrite lookup_insert_ne. }
    assert (E2 : fs2 !! name = fs1 !! name).
    { destruct Hfs2 as [->|[_ ->]]; [reflexivity|].
      now rewrite lookup_insert_ne. }
    assert (E1 : fs1 !! name = fs !! name).
    { destruct Hfs1 as [->|[_ ->]]; [reflexivity|].
      now rewrite lookup_insert_ne. }
    congruence.
  - now rewrite !makedirs_exist_ok_again.
Qed.

Lemma create_required_directories_spec_witness :
  let fs : FileSystem := {[ py "uploads" := Directory;
                            py "notes.txt" := RegularFile ]} in
  let fs' : FileSystem := <[py "static" := Directory]>
                            (<[py "models" := Directory]> fs) in
  Forall (fun name => fs' !! name = Some Directory)
    Utils.required_directories /\
  fs ⊆ fs' /\
  (forall name,
     name ∉ Utils.required_directories -> fs' !! name = fs !! name) /\
  Utils.create_required_directories (fun _ _ => Some (py "PermissionError")) fs'
  = (inr tt, fs').
Proof.
  cbv zeta.
  apply (create_required_directories_spec (fun _ _ => None)).
  vm_compute. reflexivity.
Defined.

(** A regular file in the way makes the call raise, after the directories
    before it in the list have been created. *)
Example create_required_directories_blocked :
  let fs : FileSystem := {[ py "models" := RegularFile ]} in
  Utils.create_required_directories (fun _ _ => None) fs
  = (inl (py "FileExistsError"), <[py "uploads" := Directory]> fs).
Proof. vm_compute. reflexivity. Qed.

(** ** More on [extract_text_with_positions] *)

Section ExtractionOrder.
Context {F : Type} {num : PyFloat F}.

(** The pages the loop adds when no page raises: those with runs, each
    extracted at its index. *)
Lemma extract_loop_closed (pages : list (RawPage F)) (page_num : Z)
    (acc : list (Page F)) :
  Forall (fun page => rp_raises page = false) pages ->
  extract_loop page_num pages acc
  = inr (acc ++ omap id (imap (fun i page =>
                                 extract_page (page_num + Z.of_nat i) page)
                           pages)).
Proof.
  revert page_num acc. induction pages as [|page pages IH];
    intros page_num acc Hall; cbn [extract_loop imap omap list_omap].
  - now rewrite app_nil_r.
  - apply Forall_cons in Hall as [-> Hall]. rewrite IH by assumption.
    rewrite Z.add_0_r. f_equal.
    assert (Himap : imap ((fun i page =>
                             extract_page (page_num + Z.of_nat i) page) ∘ S)
                      pages
                    = imap (fun i page =>
                              extract_page (page_num + 1 + Z.of_nat i) page)
                        pages).
    { apply imap_ext. intros i page' _. cbn. f_equal. lia. }
    rewrite Himap. cbn [id].
    destruct (extract_page page_num page) as [pg|]; [|reflexivity].
    now rewrite <- app_assoc.
Qed.

Lemma extract_loop_raises (pages : list (RawPage F)) (page_num : Z)
    (acc : list (Page F)) :
  Exists (fun page => rp_raises page = true) pages ->
  exists e, extract_loop page_num pages acc = inl e.
Proof.
  revert page_num acc. induction pages as [|page pages IH];
    intros page_num acc Hex; [inversion Hex|]. cbn [extract_loop].
  destruct (rp_raises page) eqn:Hraise; [eauto|].
  apply Exists_cons in Hex as [Hex|Hex]; [congruence|]. now apply IH.
Qed.

(** The page numbers of the pages kept from index [first] on go strictly
    up and lie in [(first, first + length pages]]. *)
Lemma extracted_numbers (pages : list (RawPage F)) (first : Z) :
  let kept := omap id (imap (fun i page =>
                               extract_page (first + Z.of_nat i) page)
                         pages) in
  StronglySorted Z.lt (p_page_number <$> kept) /\
  Forall (fun n => first < n <= first + len pages) (p_page_number <$> kept) /\
  len kept <= len pages.
Proof.
  cbv zeta. revert first. induction pages as [|page pages IH]; intros first.
  - split; [constructor|]. split; [constructor|]. unfold len. cbn. lia.
  - cbn [imap omap].
    assert (Himap : imap ((fun i page0 =>
                             extract_page (first + Z.of_nat i) page0) ∘ S)
                      pages
                    = imap (fun i page0 =>
                              extract_page (first + 1 + Z.of_nat i) page0)
                        pages).
    { apply imap_ext. intros i page' _. cbn. f_equal. lia. }
    rewrite Himap. destruct (IH (first + 1)) as (Hsorted & Hrange & Hlen).
    assert (Hrange' : Forall (fun n => first < n <= first + len (page :: pages))
                        (p_page_number <$>
                           omap id (imap (fun i page0 =>
                                            extract_page
                                              (first + 1 + Z.of_nat i) page0)
                                      pages))).
    { eapply Forall_impl; [exact Hrange|]. intros n Hn. cbn beta in *.
      unfold len in *. cbn [length]. lia. }
    rewrite Z.add_0_r.
    destruct (extract_page first page) as [pg|] eqn:Hpage;
      cbn [omap list_omap id].
    2:{ split; [assumption|]. split; [assumption|].
        etransitivity; [exact Hlen|]. unfold len. cbn [length]. lia. }
    apply extract_page_runs in Hpage as (Hnum & _).
    rewrite fmap_cons, Hnum. split; [|split].
    + constructor; [assumption|].
      eapply Forall_impl; [exact Hrange|]. intros n Hn. cbn beta in *. lia.
    + constructor; [|assumption]. unfold len. cbn [length]. lia.
    + unfold len in *. cbn [length]. rewrite !Nat2Z.inj_succ.
      apply Zsucc_le_compat. exact Hlen.
Qed.

End ExtractionOrder.

(** X10.  [extract_text_with_positions] is all or nothing: when the reader
    raises on any page, the pages extracted before it are discarded and
    the result is empty; when it raises on none, the result holds, in
    document order, exactly the pages that have runs, each extracted at
    its index. *)
Theorem extract_all_or_nothing {F} {num : PyFloat F}
    (pages : list (RawPage F)) :
  (Exists (fun page => rp_raises page = true) pages ->
   extract_text_with_positions (Parsed pages) = []) /\
  (Forall (fun page => rp_raises page = false) pages ->
   extract_text_with_positions (Parsed pages)
   = omap id (imap (fun i page => extract_page (Z.of_nat i) page) pages)).
Proof.
  split; intros Hpages; cbn [extract_text_with_positions].
  - now destruct (extract_loop_raises pages 0 [] Hpages) as [e ->].
  - now rewrite (extract_loop_closed pages 0 [] Hpages).
Qed.

(** X11.  The pages [extract_text_with_positions] returns are numbered in
    strictly increasing order with numbers between 1 and the number of
    pages of the document, and none of them is without runs; so there are
    never more of them than pages in the document. *)
Theorem extracted_pages_ascend {F} {num : PyFloat F}
    (pages : list (RawPage F)) :
  let pages_content := extract_text_with_positions (Parsed pages) in
  StronglySorted Z.lt (p_page_number <$> pages_content) /\
  Forall (fun pg => 1 <= p_page_number pg <= len pages /\ p_content pg <> [])
    pages_content /\
  len pages_content <= len pages.
Proof.
  cbv zeta.
  assert (Hcontent : Forall (fun pg => p_content pg <> [])
                       (extract_text_with_positions (Parsed pages))).
  { apply Forall_forall. intros pg Hpg.
    apply extract_elem in Hpg as (i & page & _ & Hpage).
    now apply extract_page_runs in Hpage as (_ & Hne & _). }
  destruct (decide (Exists (fun page => rp_raises page = true) pages))
    as [Hex|Hno].
  { cbn [extract_text_with_positions].
    destruct (extract_loop_raises pages 0 [] Hex) as [e ->].
    split; [constructor|]. split; [constructor|]. unfold len. cbn. lia. }
  assert (Hall : Forall (fun page => rp_raises page = false) pages).
  { apply Forall_forall. intros page Hin.
    destruct (rp_raises page) eqn:Hr; [|reflexivity].
    exfalso. apply Hno, Exists_exists. eauto. }
  cbn [extract_text_with_positions] in *.
  rewrite (extract_loop_closed pages 0 [] Hall) in *. cbn [app] in *.
  destruct (extracted_numbers pages 0) as (Hsorted & Hrange & Hlen).
  cbv zeta in Hsorted, Hrange, Hlen.
  split; [assumption|]. split; [|assumption].
  apply Forall_forall. intros pg Hpg. split.
  - rewrite Forall_forall in Hrange.
    assert (Hn : p_page_number pg ∈ p_page_number <$>
                   omap id (imap (fun i page =>
                                    extract_page (0 + Z.of_nat i) page) pages))
      by (apply list_elem_of_fmap; eauto).
    apply Hrange in Hn. lia.
  - rewrite Forall_forall in Hcontent. now apply Hcontent.
Qed.

(** ** What a run carries *)

Lemma lstrip_head (s : pystr) (c : N) :
  head (lstrip s) = Some c -> isspace c = false.
Proof.
  induction s as [|d s IH]; cbn; [discriminate|].
  destruct (isspace d) eqn:Hd; [exact IH|]. cbn. now intros [= <-].
Qed.

Lemma lstrip_suffix (s : pystr) :
  exists blanks, s = blanks ++ lstrip s.
Proof.
  induction s as [|d s [blanks IH]]; cbn; [now exists []|].
  destruct (isspace d).
  - exists (d :: blanks). cbn. now f_equal.
  - now exists [].
Qed.

Lemma rstrip_prefix (s : pystr) :
  exists blanks, s = rstrip s ++ blanks.
Proof.
  unfold rstrip. destruct (lstrip_suffix (rev s)) as [blanks Hs].
  exists (rev blanks). rewrite <- rev_app_distr, <- Hs.
  now rewrite rev_involutive.
Qed.

Lemma head_rev {A} (l : list A) : head (rev l) = last l.
Proof.
  induction l as [|a l IH] using rev_ind; [reflexivity|].
  rewrite rev_app_distr, last_snoc. reflexivity.
Qed.

Lemma last_rev {A} (l : list A) : last (rev l) = head l.
Proof. now rewrite <- head_rev, rev_involutive. Qed.

(** A stripped string neither starts nor ends with whitespace. *)
Lemma strip_ends (s : pystr) (c : N) :
  head (strip s) = Some c \/ last (strip s) = Some c -> isspace c = false.
Proof.
  unfold strip. intros [Hhead|Hlast].
  - destruct (rstrip_prefix (lstrip s)) as [blanks Hs].
    apply (lstrip_head s). rewrite Hs.
    destruct (rstrip (lstrip s)); [discriminate|exact Hhead].
  - unfold rstrip in Hlast. rewrite last_rev in Hlast.
    now apply lstrip_head in Hlast.
Qed.

Section RunFields.
Context {F : Type} {num : PyFloat F}.

(** What [visitor_body] guarantees of every run it has collected. *)
Lemma visits_fold_fields (rotation w h : F) (visits : list (VisitorCall F))
    (acc : list (TextRun F)) (P : TextRun F -> Prop) :
  Forall P acc ->
  (forall v run,
     v ∈ visits -> strip (v_text v) <> [] ->
     r_text run = strip (v_text v) ->
     r_x run = v_tm4 v -> r_y run = v_tm5 v ->
     r_rotation run = rotation -> r_width run = w -> r_height run = h ->
     P run) ->
  Forall P (foldl (visitor_body rotation w h) acc visits).
Proof.
  revert acc. induction visits as [|v visits IH]; intros acc Hacc HP;
    cbn [foldl]; [assumption|].
  apply IH.
  - unfold visitor_body. destruct (strip (v_text v)) as [|c s] eqn:Hs;
      [assumption|].
    apply Forall_app. split; [assumption|]. apply Forall_singleton.
    apply (HP v); rewrite ?Hs; try reflexivity; [left|discriminate].
  - intros v' run Hv'. apply HP. now right.
Qed.

End RunFields.

(** X12.  Every run of every page [extract_text_with_positions] returns
    has a text that is not empty and neither starts nor ends with
    whitespace, and carries the width, height and rotation of its page. *)
Theorem extracted_runs_are_stripped {F} {num : PyFloat F} (pdf : PdfFile F) :
  Forall (fun pg =>
            Forall (fun run =>
                      r_text run <> [] /\
                      (forall c, head (r_text run) = Some c \/
                                 last (r_text run) = Some c ->
                                 isspace c = false) /\
                      r_width run = p_width pg /\
                      r_height run = p_height pg /\
                      r_rotation run = p_rotation pg)
              (p_content pg))
    (extract_text_with_positions pdf).
Proof.
  apply Forall_forall. intros pg Hpg.
  destruct pdf as [|pages]; [inversion Hpg|].
  apply extract_elem in Hpg as (i & page & _ & Hpage).
  unfold extract_page in Hpage.
  pose proof (visits_fold_fields (default (of_int 0) (rp_rotate page))
                (rp_width page) (rp_height page) (rp_visits page) []
                (fun run =>
                   r_text run <> [] /\
                   (forall c, head (r_text run) = Some c \/
                              last (r_text run) = Some c ->
                              isspace c = false) /\
                   r_width run = rp_width page /\
                   r_height run = rp_height page /\
                   r_rotation run = default (of_int 0) (rp_rotate page)))
    as Hruns.
  destruct (foldl _ [] (rp_visits page)) as [|run runs]; [discriminate|].
  injection Hpage as <-. cbn [p_content p_width p_height p_rotation].
  apply Forall_forall. intros r Hr.
  apply (sorted_elem extract_key_lt r (run :: runs)) in Hr.
  assert (Hall : Forall (fun run0 =>
                   r_text run0 <> [] /\
                   (forall c, head (r_text run0) = Some c \/
                              last (r_text run0) = Some c ->
                              isspace c = false) /\
                   r_width run0 = rp_width page /\
                   r_height run0 = rp_height page /\
                   r_rotation run0 = default (of_int 0) (rp_rotate page))
                  (run :: runs)).
  { apply Hruns; [constructor|].
    intros v run0 _ Hne Htext _ _ Hrot Hw Hh. rewrite Htext.
    split; [assumption|]. split; [apply strip_ends|]. now repeat split. }
  rewrite Forall_forall in Hall. now apply Hall.
Qed.

(** ** The order of the runs *)

Section StableSort.
Context {A : Type} (lt : A -> A -> bool) (le : A -> A -> Prop).
Hypothesis lt_le : forall a b, lt b a = true -> le b a.
Hypothesis not_lt_le : forall a b, lt b a = false -> le a b.
Hypothesis le_trans : forall a b c, le a b -> le b c -> le a c.

Lemma insert_sorted_sorted (a : A) (l : list A) :
  StronglySorted le l -> StronglySorted le (insert_sorted lt a l).
Proof.
  induction l as [|b l IH]; intros Hl; cbn.
  - repeat constructor.
  - apply StronglySorted_inv in Hl as [Hl Hb].
    destruct (lt b a) eqn:Hba.
    + constructor; [now apply IH|]. apply Forall_forall. intros x Hx.
      apply insert_sorted_elem in Hx as [->|Hx]; [now apply lt_le|].
      rewrite Forall_forall in Hb. now apply Hb.
    + constructor; [now constructor|].
      constructor; [now apply not_lt_le|].
      apply Forall_forall. intros x Hx. rewrite Forall_forall in Hb.
      apply (le_trans a b x); [now apply not_lt_le|now apply Hb].
Qed.

Lemma sorted_sorted (l : list A) : StronglySorted le (sorted lt l).
Proof.
  induction l as [|a l IH]; [constructor|].
  change (sorted lt (a :: l)) with (insert_sorted lt a (sorted lt l)).
  now apply insert_sorted_sorted.
Qed.

End StableSort.

(** Sorting a list in which no element is below the one before it gives
    the list back: insertion puts each element in front of the rest. *)
Lemma sorted_already {A} (lt : A -> A -> bool) (l : list A) :
  Sorted (fun a b => lt b a = false) l -> sorted lt l = l.
Proof.
  induction l as [|a l IH]; intros Hl; [reflexivity|].
  change (sorted lt (a :: l)) with (insert_sorted lt a (sorted lt l)).
  apply Sorted_inv in Hl as [Hl Ha]. rewrite IH by assumption.
  destruct l as [|b l]; [reflexivity|]. cbn [insert_sorted].
  inversion Ha as [|? ? Hba]; subst. now rewrite Hba.
Qed.

Lemma Qltb_true (a b : Q) : Qltb a b = true <-> (a < b)%Q.
Proof.
  unfold Qltb. rewrite negb_true_iff. split.
  - intros Hle. apply Qnot_le_lt. intros H. apply Qle_bool_iff in H.
    congruence.
  - intros Hlt. destruct (Qle_bool b a) eqn:Hle; [|reflexivity].
    apply Qle_bool_iff in Hle. now apply Qlt_not_le in Hlt.
Qed.

Lemma Qltb_false (a b : Q) : Qltb a b = false <-> (b <= a)%Q.
Proof.
  unfold Qltb. rewrite negb_false_iff. apply Qle_bool_iff.
Qed.

Lemma extract_key_lt_order (a b : TextRun Q) :
  (extract_key_lt b a = true -> reading_order b a) /\
  (extract_key_lt b a = false -> reading_order a b).
Proof.
  unfold extract_key_lt, reading_order. cbn [feqb fltb fneg exact].
  destruct (Qeq_bool (- r_y b) (- r_y a)) eqn:Heq.
  - apply Qeq_bool_iff in Heq. split.
    + intros Hlt%Qltb_true. right. split; lra.
    + intros Hge%Qltb_false. right. split; lra.
  - apply Qeq_bool_neq in Heq. split.
    + intros Hlt%Qltb_true. left. lra.
    + intros Hge%Qltb_false. left.
      destruct (Qlt_le_dec (r_y b) (r_y a)) as [?|Hle]; [assumption|].
      exfalso. apply Heq. lra.
Qed.

Lemma reading_order_trans (a b c : TextRun Q) :
  reading_order a b -> reading_order b c -> reading_order a c.
Proof.
  unfold reading_order. intros [H1|[H1 H1']] [H2|[H2 H2']].
  - left. lra.
  - left. lra.
  - left. lra.
  - right. split; lra.
Qed.

Lemma extracted_pages_sorted (pdf : PdfFile Q) (pg : Page Q) :
  pg ∈ extract_text_with_positions pdf ->
  StronglySorted reading_order (p_content pg).
Proof.
  intros Hpg. destruct pdf as [|pages]; [inversion Hpg|].
  apply extract_elem in Hpg as (i & page & _ & Hpage).
  unfold extract_page in Hpage.
  destruct (foldl _ [] (rp_visits page)) as [|run runs]; [discriminate|].
  injection Hpage as <-. cbn [p_content].
  change (StronglySorted reading_order
            (sorted extract_key_lt (run :: runs))).
  apply (sorted_sorted extract_key_lt reading_order).
  - intros a b. apply extract_key_lt_order.
  - intros a b. apply extract_key_lt_order.
  - apply reading_order_trans.
Qed.

(** X13.  In exact arithmetic the runs of every extracted page are in
    reading order: each run is higher on the page than every run after it,
    or as high and not further right. *)
Theorem extracted_content_in_reading_order (pdf : PdfFile Q) :
  Forall (fun pg => StronglySorted reading_order (p_content pg))
    (extract_text_with_positions pdf).
Proof.
  apply Forall_forall. intros pg Hpg. now apply (extracted_pages_sorted pdf).
Qed.

Lemma StronglySorted_Sorted_impl {A} (R R' : A -> A -> Prop) (l : list A) :
  (forall a b, R a b -> R' a b) -> StronglySorted R l -> Sorted R' l.
Proof.
  intros Himpl Hl. induction Hl as [|a l Hl IH Ha]; [constructor|].
  constructor; [assumption|].
  destruct l as [|b l]; constructor. apply Himpl.
  now apply Forall_cons in Ha as [? _].
Qed.

(** X14.  In exact arithmetic the sort at the head of the renderer's page
    loop changes nothing on a page that comes from the extractor: the runs
    are drawn in the order in which they were extracted. *)
Theorem renderer_keeps_extracted_order (pdf : PdfFile Q) :
  Forall (fun pg => sorted render_key_lt (p_content pg) = p_content pg)
    (extract_text_with_positions pdf).
Proof.
  apply Forall_forall. intros pg Hpg.
  apply (extracted_pages_sorted pdf) in Hpg.
  apply sorted_already.
  eapply StronglySorted_Sorted_impl; [|exact Hpg].
  intros a b Hab. unfold render_key_lt. cbn [fltb fneg exact].
  apply Qltb_false. unfold reading_order in Hab. destruct Hab; lra.
Qed.

(** ** More on [create_pdf_with_layout] *)

Section PageBreaks.
Context {F : Type} {num : PyFloat F} (env : Env F).
Context (font_name : pystr) (translations : gmap pystr pystr).

Lemma page_breaks_app (c1 c2 : Canvas F) :
  page_breaks (c1 ++ c2) = (page_breaks c1 + page_breaks c2)%nat.
Proof. unfold page_breaks. now rewrite List.filter_app, length_app. Qed.

Lemma draw_loop_page_breaks (runs : list (TextRun F)) (c : Canvas F)
    (last_y : option F) :
  page_breaks
    (state_of (for_each (draw_run env font_name translations) runs
                 (c, last_y))).1
  = page_breaks c.
Proof.
  apply (for_each_inv (draw_run env font_name translations)
           (fun st => page_breaks st.1 = page_breaks c)); [reflexivity|].
  intros [c0 ly] run _ Hc. cbn [fst] in Hc.
  destruct (draw_run_adds env font_name translations c0 ly run)
    as [H|[H|[H _]]]; rewrite H; cbn [fst];
    rewrite ?page_breaks_app, Hc; cbn; lia.
Qed.

(** On a canvas that accepts every call, with a console that can show
    the runs, the loop over the runs runs to its end. *)
Lemma draw_loop_completes (runs : list (TextRun F)) (c : Canvas F)
    (last_y : option F) :
  (forall c0 op, canvas_raises env c0 op = false) ->
  Forall (fun run => shows env translations run = true) runs ->
  exists st,
    for_each (draw_run env font_name translations) runs (c, last_y)
    = Completed st.
Proof.
  intros Hcalm. revert c last_y.
  induction runs as [|run runs IH]; intros c last_y Hshown; [now eexists|].
  apply Forall_cons in Hshown as [Hrun Hshown]. cbn [for_each].
  rewrite (draw_run_calm env font_name translations c last_y run Hcalm Hrun).
  destruct (drawable translations run); now apply IH.
Qed.

(** One page adds at most one [showPage], and exactly one when the canvas
    accepts every call and the console can show the runs of the page. *)
Lemma render_page_page_breaks (c : Canvas F) (page : Page F) :
  (page_breaks (render_page env font_name translations c page)
   <= page_breaks c + 1)%nat /\
  ((forall c0 op, canvas_raises env c0 op = false) ->
   Forall (fun run => shows env translations run = true) (p_content page) ->
   page_breaks (render_page env font_name translations c page)
   = (page_breaks c + 1)%nat).
Proof.
  split.
  - destruct (render_page_cases env font_name translations c page)
      as [->|[->|(c0 & Hc0 & [-> | ->])]];
      rewrite ?page_breaks_app, ?draw_loop_page_breaks;
      try (destruct Hc0 as [-> | ->]; rewrite ?page_breaks_app);
      cbn; lia.
  - intros Hcalm Hshown.
    assert (Hsorted : Forall (fun run => shows env translations run = true)
                        (sorted render_key_lt (p_content page))).
    { rewrite Forall_forall in Hshown. apply Forall_forall.
      intros run Hrun. now apply sorted_elem, Hshown in Hrun. }
    unfold render_page, canvas_call. rewrite Hcalm.
    destruct (negb (p_rotation page =? of_int 0)%py); rewrite ?Hcalm;
      match goal with
      | |- context [for_each ?f ?runs (?c0, None)] =>
          pose proof (draw_loop_page_breaks runs c0 None) as Hb;
          destruct (draw_loop_completes runs c0 None Hcalm Hsorted)
            as [[c1 ly] Hloop]
      end;
      rewrite Hloop in Hb |- *; rewrite Hcalm; cbn [state_of fst] in Hb;
      rewrite page_breaks_app, Hb, !page_breaks_app; cbn; lia.
Qed.

Lemma render_pages_page_breaks (pages : list (Page F)) (c : Canvas F) :
  (page_breaks (foldl (render_page env font_name translations) c pages)
   <= page_breaks c + length pages)%nat /\
  ((forall c0 op, canvas_raises env c0 op = false) ->
   Forall (fun run => shows env translations run = true) (all_runs pages) ->
   page_breaks (foldl (render_page env font_name translations) c pages)
   = (page_breaks c + length pages)%nat).
Proof.
  revert c. induction pages as [|page pages IH]; intros c; cbn [foldl length].
  - split; [lia|intros _ _; lia].
  - destruct (IH (render_page env font_name translations c page))
      as [Hle Heq].
    destruct (render_page_page_breaks c page) as [Hle1 Heq1].
    split; [lia|]. intros Hcalm Hshown.
    rewrite all_runs_cons in Hshown. apply Forall_app in Hshown as [H1 H2].
    rewrite Heq, Heq1 by assumption. lia.
Qed.

End PageBreaks.

Section TextPages.
Context {F : Type} {num : PyFloat F}.

Lemma has_text_blank (page : RawPage F) :
  has_text page = false <->
  Forall (fun v => strip (v_text v) = []) (rp_visits page).
Proof.
  unfold has_text. induction (rp_visits page) as [|v visits IH]; cbn.
  - split; [constructor|reflexivity].
  - rewrite orb_false_iff, IH, Forall_cons, negb_false_iff,
      bool_decide_eq_true. tauto.
Qed.

Lemma visits_fold_nil (rotation w h : F) (visits : list (VisitorCall F))
    (acc : list (TextRun F)) :
  foldl (visitor_body rotation w h) acc visits = [] ->
  Forall (fun v => strip (v_text v) = []) visits.
Proof.
  revert acc. induction visits as [|v visits IH]; intros acc Hnil;
    [constructor|]. cbn [foldl] in Hnil.
  constructor; [|now apply (IH _ Hnil)].
  destruct (visits_fold rotation w h visits (visitor_body rotation w h acc v))
    as (runs & Hruns & _).
  rewrite Hruns in Hnil. apply app_eq_nil in Hnil as [Hnil _].
  destruct (strip (v_text v)) as [|c s] eqn:Hs; [reflexivity|].
  destruct (visitor_body_text rotation w h acc v) as (run & Hrun & _);
    [congruence|].
  rewrite Hrun in Hnil. apply app_eq_nil in Hnil as [_ ?]. discriminate.
Qed.

(** A page is kept exactly when it has text. *)
Lemma extract_page_has_text (page_num : Z) (page : RawPage F) :
  is_Some (extract_page page_num page) <-> has_text page = true.
Proof.
  split.
  - intros [pg Hpg]. destruct (has_text page) eqn:Htext; [reflexivity|].
    apply has_text_blank in Htext.
    rewrite extract_page_blank in Hpg by assumption. discriminate.
  - intros Htext. unfold extract_page.
    destruct (foldl _ [] (rp_visits page)) as [|run runs] eqn:Hfold; [|eauto].
    apply visits_fold_nil, has_text_blank in Hfold. congruence.
Qed.

(** Without a failing page, as many pages are extracted as have text. *)
Lemma extracted_count (pages : list (RawPage F)) (first : Z) :
  length (omap id (imap (fun i page =>
                           extract_page (first + Z.of_nat i) page) pages))
  = length (List.filter has_text pages).
Proof.
  revert first. induction pages as [|page pages IH]; intros first;
    [reflexivity|]. cbn [imap omap list_omap List.filter].
  assert (Himap : imap ((fun i page0 =>
                           extract_page (first + Z.of_nat i) page0) ∘ S)
                    pages
                  = imap (fun i page0 =>
                            extract_page (first + 1 + Z.of_nat i) page0)
                      pages).
  { apply imap_ext. intros i page' _. cbn. f_equal. lia. }
  rewrite Himap.
  pose proof (extract_page_has_text (first + Z.of_nat 0) page) as Hkept.
  destruct (has_text page).
  - destruct Hkept as [_ [pg Hpg]]; [reflexivity|].
    rewrite Hpg. cbn [id length]. now rewrite IH.
  - destruct (extract_page (first + Z.of_nat 0) page) as [pg|] eqn:Hpg.
    + destruct Hkept as [Hkept _]. discriminate Hkept. eauto.
    + cbn [id]. apply IH.
Qed.

End TextPages.

(** X15.  The document [create_pdf_with_layout] saves has at most one page
    for each entry of [pages_content], and exactly one when the canvas
    accepts every call and the console can show the text and the
    translation of every run; and [pages_content], when it comes from a
    document the reader goes through without raising, has one entry for
    each page with text.  So a page without extractable text has no
    counterpart in the translated document. *)
Theorem one_page_per_page_with_text {F} {num : PyFloat F} (env : Env F)
    (translations : gmap pystr pystr) (pages_content : list (Page F))
    (c : Canvas F) :
  render_document env pages_content translations = Some c ->
  (page_breaks c <= length pages_content)%nat /\
  ((forall c0 op, canvas_raises env c0 op = false) ->
   Forall (fun run => shows env translations run = true)
     (all_runs pages_content) ->
   page_breaks c = length pages_content) /\
  (forall raw,
     Forall (fun page => rp_raises page = false) raw ->
     pages_content = extract_text_with_positions (Parsed raw) ->
     length pages_content = length (List.filter has_text raw)).
Proof.
  intros Hdoc.
  assert (Hshape : exists c0,
             page_breaks c0 = 0%nat /\
             c = foldl (render_page env (choose_font env) translations) c0
                   pages_content ++ [OpSave]).
  { unfold render_document, canvas_call in Hdoc.
    destruct pages_content as [|first_page rest]; [discriminate|].
    remember (first_page :: rest) as pgs eqn:Hpgs.
    cbn [mbind option_bind] in Hdoc.
    repeat (destruct (canvas_raises env _ _); [discriminate|];
            cbn [mbind option_bind] in Hdoc).
    injection Hdoc as <-. eexists. split; [|reflexivity].
    reflexivity. }
  destruct Hshape as (c0 & Hc0 & ->).
  destruct (render_pages_page_breaks env (choose_font env) translations
              pages_content c0) as [Hle Heq].
  rewrite page_breaks_app, Hc0 in *.
  change (page_breaks [OpSave]) with 0%nat.
  split; [lia|].
  split; [intros Hcalm Hshown; rewrite Heq by assumption; lia|].
  intros raw Hraw ->. cbn [extract_text_with_positions].
  rewrite (extract_loop_closed raw 0 [] Hraw). cbn [app].
  apply extracted_count.
Qed.

Lemma one_page_per_page_with_text_witness :
  let pages_content := extract_text_with_positions gappy_pdf in
  let c := default [] (render_document (calm_env gappy_pdf) pages_content ∅) in
  (page_breaks c <= length pages_content)%nat /\
  ((forall c0 op, canvas_raises (calm_env gappy_pdf) c0 op = false) ->
   Forall (fun run => shows (calm_env gappy_pdf) ∅ run = true)
     (all_runs pages_content) ->
   page_breaks c = length pages_content) /\
  (forall raw,
     Forall (fun page => rp_raises page = false) raw ->
     pages_content = extract_text_with_positions (Parsed raw) ->
     length pages_content = length (List.filter has_text raw)).
Proof.
  cbv zeta.
  apply (one_page_per_page_with_text (calm_env gappy_pdf) ∅
           (extract_text_with_positions gappy_pdf)).
  vm_compute. reflexivity.
Defined.

(** Of the four pages of [gappy_pdf] the two with text are rendered. *)
Example gappy_pdf_pages :
  page_breaks <$>
    render_document (calm_env gappy_pdf)
      (extract_text_with_positions gappy_pdf) ∅ = Some 2%nat.
Proof. vm_compute. reflexivity. Qed.

(** A page given up: the translation of [bad] cannot be encoded, so the
    run is not drawn and the loop prints it.  On a UTF-8 console that
    [print] raises: the rest of the first page, [good] included, is
    skipped and the page is not ended, so that the string of the second
    page lands in the one page the document has.  With the output
    redirected to a [StringIO] both pages are there, with [good]. *)
Example page_given_up :
  let pages_content := extract_text_with_positions bad_good_pdf in
  let translations : gmap pystr pystr := {[ py "bad" := [0xD800%N] ]} in
  let pages env :=
    page_breaks <$> render_document env pages_content translations in
  let strings env :=
    (fun c => (drawn_strings c).*2)
      <$> render_document env pages_content translations in
  length pages_content = 2%nat /\
  pages (calm_env bad_good_pdf) = Some 1%nat /\
  strings (calm_env bad_good_pdf) = Some [py "next"] /\
  pages (redirected_env bad_good_pdf) = Some 2%nat /\
  strings (redirected_env bad_good_pdf) = Some [py "good"; py "next"].
Proof. vm_compute. repeat split. Qed.

(** ** The spacing of the lines, in exact arithmetic *)

Lemma min_y_spacing_pos : (0 < @min_y_spacing Q exact)%Q.
Proof. vm_compute. reflexivity. Qed.

Lemma adjusted_font_size_nonneg (size : Q) :
  (0 <= size)%Q -> (0 <= (size * lit 12 1)%py)%Q.
Proof.
  intros Hsize. cbn [fmul exact].
  assert (H12 : (0 <= @lit Q exact 12 1)%Q) by (vm_compute; discriminate).
  now apply Qmult_le_0_compat.
Qed.

(** Where [place_y] puts a run, [min_y_spacing] or more away from the
    line drawn before it. *)
Lemma place_y_spaced (last adjusted y : Q) :
  (0 <= adjusted)%Q ->
  (@min_y_spacing Q exact
   <= Qabs (place_y (Some last) adjusted y - last))%Q.
Proof.
  intros Hadj. pose proof min_y_spacing_pos as Hmin. unfold place_y.
  cbn [fltb fabs fsub exact].
  destruct (Qltb (Qabs (y - last)) min_y_spacing) eqn:Hclose.
  - assert (Heq : (last - adjusted - min_y_spacing - last
                   == - (adjusted + min_y_spacing))%Q) by ring.
    rewrite Heq, Qabs_opp, Qabs_pos by lra. lra.
  - now apply Qltb_false in Hclose.
Qed.

Section Spacing.
Context (env : Env Q) (font_name : pystr) (translations : gmap pystr pystr).

Lemma drawn_ys_app (c1 c2 : Canvas Q) :
  drawn_ys (c1 ++ c2) = drawn_ys c1 ++ drawn_ys c2.
Proof. unfold drawn_ys, drawn_strings. now rewrite omap_app, fmap_app. Qed.

(** The lines drawn by a stretch of the page loop are spaced from one
    another, and the first of them from the line drawn before the
    stretch. *)
Lemma draw_loop_spaced (runs : list (TextRun Q)) (c : Canvas Q)
    (last_y : option Q) :
  Forall (fun run => (0 <= r_fontSize run)%Q) runs ->
  exists ops,
    (state_of (for_each (draw_run env font_name translations) runs
                 (c, last_y))).1
      = c ++ ops /\
    Sorted (fun a b => (min_y_spacing <= Qabs (b - a))%Q)
      (from_option (fun last => [last]) [] last_y ++ drawn_ys ops).
Proof.
  revert c last_y. induction runs as [|run runs IH]; intros c last_y Hsizes.
  - exists []. rewrite !app_nil_r. split; [reflexivity|].
    destruct last_y; repeat constructor.
  - apply Forall_cons in Hsizes as [Hsize Hsizes]. cbn [for_each].
    destruct (draw_run_cases env font_name translations c last_y run)
      as [H|[[H _]|[H _]]].
    + destruct (draw_run _ _ _ _ run) as [st|st]; cbn [state_of] in H;
        subst st; [now apply IH|].
      exists []. rewrite !app_nil_r. split; [reflexivity|].
      destruct last_y; repeat constructor.
    + destruct (draw_run _ _ _ _ run) as [st|st]; cbn [state_of] in H;
        subst st.
      * destruct (IH (c ++ [OpSetFont font_name
                              (r_fontSize run * lit 12 1)%py]) last_y Hsizes)
          as (ops & -> & Hsorted).
        eexists. rewrite <- app_assoc. split; [reflexivity|].
        now rewrite drawn_ys_app.
      * eexists. split; [reflexivity|].
        change (drawn_ys [OpSetFont _ _]) with (@nil Q).
        rewrite app_nil_r. destruct last_y; repeat constructor.
    + rewrite H.
      match type of H with
      | _ = Completed (_, Some ?y) =>
          destruct (IH (c ++ [OpSetFont font_name
                                (r_fontSize run * lit 12 1)%py;
                              OpDrawString (r_x run) y
                                (resolved translations run)])
                      (Some y) Hsizes) as (ops & -> & Hsorted)
      end.
      eexists. rewrite <- app_assoc. split; [reflexivity|].
      rewrite drawn_ys_app. cbn [from_option app] in Hsorted.
      change (drawn_ys [OpSetFont _ _; OpDrawString _ ?y _]) with [y].
      destruct last_y as [last|]; cbn [from_option app]; [|assumption].
      constructor; [assumption|]. constructor.
      apply place_y_spaced. now apply adjusted_font_size_nonneg.
Qed.

End Spacing.

(** X16.  In exact arithmetic, when no run of a page has a negative font
    size, any two strings the page loop draws one after the other are at
    least [2 * mm] apart vertically. *)
Theorem drawn_lines_are_spaced (env : Env Q) (font_name : pystr)
    (translations : gmap pystr pystr) (runs : list (TextRun Q))
    (c : Canvas Q) (i : nat) (y y' : Q) :
  Forall (fun run => (0 <= r_fontSize run)%Q) runs ->
  let after :=
    (state_of (for_each (draw_run env font_name translations) runs
                 (c, None))).1 in
  drawn_ys (drop (length c) after) !! i = Some y ->
  drawn_ys (drop (length c) after) !! S i = Some y' ->
  (of_int 2 * mm <= Qabs (y' - y))%Q.
Proof.
  intros Hsizes after Hy Hy'. subst after.
  destruct (draw_loop_spaced env font_name translations runs c None Hsizes)
    as (ops & Hops & Hsorted).
  rewrite Hops, drop_app_length in Hy, Hy'. cbn [from_option app] in Hsorted.
  exact (Sorted_lookup _ _ _ _ _ Hsorted Hy Hy').
Qed.

Lemma drawn_lines_are_spaced_witness :
  drawn_ys
    (state_of
       (for_each (draw_run plain_env (py "Helvetica") ∅)
          [line_at (py "first") 751%Q; line_at (py "second") 750%Q]
          ([], None))).1
  = [751%Q; (751%Q - 12%Q * lit 12 1 - of_int 2 * mm)%py] /\
  (of_int 2 * mm
   <= Qabs ((751%Q - 12%Q * lit 12 1 - of_int 2 * mm)%py - 751%Q))%Q.
Proof.
  split; [vm_compute; reflexivity|].
  apply (drawn_lines_are_spaced plain_env (py "Helvetica") ∅
           [line_at (py "first") 751%Q; line_at (py "second") 750%Q] [] 0).
  - repeat constructor; vm_compute; discriminate.
  - vm_compute. reflexivity.
  - vm_compute. reflexivity.
Defined.

(** ** The trace of the mapping stage *)

Section Trace.
Context {F : Type} {num : PyFloat F}.
Context {TS : Type} (translate : TS -> pystr -> (exn + pystr) * TS).
Context (has_callback : bool) (total_items : Z).

(** One run of the loop, with the event it reports. *)
Lemma translate_run_trace (page : Page F) (translations : gmap pystr pystr)
    (items_processed : Z) (content : TextRun F) (s s' : Eff F TS)
    (res : exn + gmap pystr pystr * Z) :
  translate_run translate has_callback total_items page
    (translations, items_processed) content s = (res, s') ->
  let text := r_text content in
  let ev : list (F * pystr) :=
    if has_callback
    then [(mapping_progress (items_processed + 1) total_items,
           page_message (p_page_number page))]
    else [] in
  files s' = files s /\
  (((text = [] \/ is_Some (translations !! text)) /\
    res = inr (translations, items_processed + 1) /\
    calls s' = calls s /\ progress s' = progress s ++ ev)
   \/
   (text <> [] /\ translations !! text = None /\
    exists r,
      translate (tstate s) text = (inr r, tstate s') /\
      res = inr (<[text := r]> translations, items_processed + 1) /\
      calls s' = calls s ++ [(text, inr r)] /\
      progress s' = progress s ++ ev)
   \/
   (text <> [] /\ translations !! text = None /\
    exists e,
      translate (tstate s) text = (inl e, tstate s') /\
      res = inl (py "Translation failed: " ++ e) /\
      calls s' = calls s ++ [(text, inl e)] /\
      progress s' = progress s)).
Proof.
  cbv zeta. unfold translate_run, page_message.
  unfold mbind, M_bind, bind, mret, M_ret, ret, raise, try_except,
    progress_callback, call_translate.
  destruct (r_text content) as [|ch text] eqn:Htext.
  - intros Hrun.
    destruct has_callback; cbv beta iota zeta in Hrun;
      injection Hrun as <- <-; cbn [files calls tstate progress];
      (split; [reflexivity|]); left; (split; [now left|]);
      repeat (split; [reflexivity|]); [reflexivity|now rewrite app_nil_r].
  - destruct (translations !! (ch :: text)) as [r0|] eqn:Hlook.
    + intros Hrun.
      destruct has_callback; cbv beta iota zeta in Hrun;
        injection Hrun as <- <-; cbn [files calls tstate progress];
        (split; [reflexivity|]); left; (split; [right; eauto|]);
        repeat (split; [reflexivity|]); [reflexivity|now rewrite app_nil_r].
    + destruct (translate (tstate s) (ch :: text)) as [[e|r] ts] eqn:Htr.
      * intros [= <- <-]. cbn [files calls tstate progress].
        split; [reflexivity|]. right. right.
        repeat (split; [discriminate || reflexivity|]).
        exists e. repeat split.
      * intros Hrun.
        destruct has_callback; cbv beta iota zeta in Hrun;
          injection Hrun as <- <-; cbn [files calls tstate progress];
          (split; [reflexivity|]); right; left;
          repeat (split; [discriminate || reflexivity|]);
          exists r; repeat (split; [reflexivity|]);
          [reflexivity|now rewrite app_nil_r].
Qed.

Lemma foldM_cons {A B} (f : B -> A -> M (F:=F) (TS:=TS) B) (a : A)
    (l : list A) (b : B) (s : Eff F TS) :
  foldM f (a :: l) b s
  = match f b a s with
    | (inr b', s') => foldM f l b' s'
    | (inl e, s') => (inl e, s')
    end.
Proof. reflexivity. Qed.

Lemma foldM_app {A B} (f : B -> A -> M (F:=F) (TS:=TS) B) (l1 l2 : list A)
    (b : B) (s : Eff F TS) :
  foldM f (l1 ++ l2) b s
  = match foldM f l1 b s with
    | (inr b', s') => foldM f l2 b' s'
    | (inl e, s') => (inl e, s')
    end.
Proof.
  revert b s. induction l1 as [|a l1 IH]; intros b s; [reflexivity|].
  cbn [app]. rewrite !foldM_cons.
  destruct (f b a s) as [[e|b'] s']; [reflexivity|apply IH].
Qed.

Lemma foldM_fmap {A A' B} (g : A' -> A) (f : B -> A -> M (F:=F) (TS:=TS) B)
    (l : list A') (b : B) (s : Eff F TS) :
  foldM f (g <$> l) b s = foldM (fun b a => f b (g a)) l b s.
Proof.
  revert b s. induction l as [|a l IH]; intros b s; [reflexivity|].
  rewrite fmap_cons, !foldM_cons.
  destruct (f b (g a) s) as [[e|b'] s']; [reflexivity|apply IH].
Qed.

Lemma runs_with_pages_cons (page : Page F) (pages : list (Page F)) :
  runs_with_pages (page :: pages)
  = ((fun run => (page, run)) <$> p_content page) ++ runs_with_pages pages.
Proof. reflexivity. Qed.

(** The two nested loops are one loop over the runs with their pages. *)
Lemma translate_pages_flat (pages : list (Page F))
    (st : gmap pystr pystr * Z) (s : Eff F TS) :
  foldM (translate_page translate has_callback total_items) pages st s
  = foldM (fun st pr =>
             translate_run translate has_callback total_items pr.1 st pr.2)
      (runs_with_pages pages) st s.
Proof.
  revert st s. induction pages as [|page pages IH]; intros st s;
    [reflexivity|].
  rewrite runs_with_pages_cons, foldM_cons, foldM_app, foldM_fmap.
  cbn [fst snd]. unfold translate_page at 1.
  destruct (foldM _ (p_content page) st s) as [[e|st'] s'];
    [reflexivity|apply IH].
Qed.

End Trace.

Section TraceLoop.
Context {F : Type} {num : PyFloat F}.
Context {TS : Type} (translate : TS -> pystr -> (exn + pystr) * TS).
Context (has_callback : bool) (total_items : Z).

Lemma map_inv_known (seen : list pystr)
    (new : list (pystr * (exn + pystr))) (translations : gmap pystr pystr)
    (text : pystr) :
  map_inv seen new translations ->
  (is_Some (translations !! text) <-> text ∈ new.*1).
Proof.
  intros (_ & Hreturned & Hmap & _). split.
  - intros [r Hr]. apply Hmap in Hr. apply list_elem_of_fmap.
    now exists (text, inr r).
  - intros Hin. apply list_elem_of_fmap in Hin as ([t o] & -> & Hin).
    destruct (Hreturned _ _ Hin) as (_ & _ & r & ->).
    exists r. now apply Hmap.
Qed.

Lemma genuine_nil {TS'} (tr : TS' -> pystr -> (exn + pystr) * TS') :
  genuine tr [].
Proof. intros text outcome Hin. inversion Hin. Qed.

Lemma genuine_cons {TS'} (tr : TS' -> pystr -> (exn + pystr) * TS')
    (ts ts' : TS') (text : pystr) (outcome : exn + pystr)
    (new : list (pystr * (exn + pystr))) :
  tr ts text = (outcome, ts') -> genuine tr new ->
  genuine tr ((text, outcome) :: new).
Proof.
  intros Htr Hnew t o Hin. apply elem_of_cons in Hin as [[= -> ->]|Hin];
    eauto.
Qed.

Lemma all_returned_nil : all_returned [].
Proof. intros text outcome Hin. inversion Hin. Qed.

Lemma all_returned_cons (text r : pystr)
    (new : list (pystr * (exn + pystr))) :
  all_returned new -> all_returned ((text, inr r) :: new).
Proof.
  intros Hall t o Hin. apply elem_of_cons in Hin as [[= -> ->]|Hin]; eauto.
Qed.

(** What the loop over the runs does from a state in which the calls
    [new] have filled [translations]: the calls it makes, in order, and
    the events it reports. *)
Lemma mapping_trace (runs : list (Page F * TextRun F))
    (translations : gmap pystr pystr) (k : Z) (s s' : Eff F TS)
    (res : exn + gmap pystr pystr * Z)
    (new : list (pystr * (exn + pystr))) (seen : list pystr) :
  foldM (fun st pr =>
           translate_run translate has_callback total_items pr.1 st pr.2)
    runs (translations, k) s = (res, s') ->
  map_inv seen new translations ->
  let texts := (fun pr : Page F * TextRun F => r_text pr.2) <$> runs in
  let numbers := (fun pr : Page F * TextRun F => p_page_number pr.1)
                   <$> runs in
  files s' = files s /\
  exists made evs,
    calls s' = calls s ++ made /\
    genuine translate made /\
    progress s' = progress s ++ evs /\
    match res with
    | inr (translations', k') =>
        made.*1 = distinct_from new.*1 texts /\
        all_returned made /\
        evs = (if has_callback
               then mapping_events total_items k numbers
               else []) /\
        map_inv (seen ++ texts) (new ++ made) translations'
    | inl e =>
        exists ok text e0 done,
          made = ok ++ [(text, inl e0)] /\
          all_returned ok /\
          e = py "Translation failed: " ++ e0 /\
          (ok.*1 ++ [text]) `prefix_of` distinct_from new.*1 texts /\
          evs = (if has_callback
                 then mapping_events total_items k (take done numbers)
                 else [])
    end.
Proof.
  cbv zeta. revert translations k s new seen.
  induction runs as [|[page run] runs IH]; intros translations k s new seen.
  - intros [= <- <-] Hinv. split; [reflexivity|]. exists [], [].
    rewrite !app_nil_r. split; [reflexivity|]. split; [apply genuine_nil|].
    split; [reflexivity|].
    split; [reflexivity|]. split; [apply all_returned_nil|].
    split; [now destruct has_callback|assumption].
  - rewrite foldM_cons. cbn [fst snd].
    destruct (translate_run translate has_callback total_items page
                (translations, k) run s) as [[e|[translations1 k1]] s1]
      eqn:Hrun;
      apply translate_run_trace in Hrun as (Hfiles1 & Hcases);
      cbv zeta in Hcases;
      destruct Hcases as [(Hskip & Hres & Hcalls1 & Hprog1)
                         |[(Hne & Hnone & r & Htr & Hres & Hcalls1 & Hprog1)
                          |(Hne & Hnone & e0 & Htr & Hres & Hcalls1
                              & Hprog1)]];
      try discriminate Hres.
    + (* the call raises *)
      injection Hres as ->. intros [= <- <-] Hinv.
      split; [assumption|]. exists [(r_text run, inl e0)], [].
      split; [assumption|].
      split; [exact (genuine_cons _ _ _ _ _ _ Htr (genuine_nil _))|].
      split; [now rewrite app_nil_r|].
      exists [], (r_text run), e0, 0%nat.
      split; [reflexivity|]. split; [apply all_returned_nil|].
      split; [reflexivity|]. split; [|now destruct has_callback].
      rewrite fmap_cons. cbn [fst snd distinct_from app fmap list_fmap].
      pose proof (map_inv_not_called _ _ _ _ Hinv Hnone) as Hnew.
      rewrite (bool_decide_eq_false_2 _ Hne), (bool_decide_eq_false_2 _ Hnew).
      cbn [orb]. eexists. reflexivity.
    + (* nothing to translate *)
      injection Hres as -> ->. intros Hfold Hinv.
      pose proof (map_inv_skip _ _ _ (r_text run) Hinv Hskip) as Hinv1.
      destruct (IH _ _ _ _ _ Hfold Hinv1) as (Hfiles & made & evs & Hcalls
                                                & Hgen & Hprog & Hres).
      split; [congruence|].
      exists made,
        ((if has_callback
          then [(mapping_progress (k + 1) total_items,
                 page_message (p_page_number page))]
          else []) ++ evs).
      split; [congruence|]. split; [assumption|].
      split; [now rewrite Hprog, Hprog1, <- app_assoc|].
      assert (Hdistinct :
                distinct_from new.*1
                  (r_text run
                     :: ((fun pr : Page F * TextRun F => r_text pr.2)
                           <$> runs))
                = distinct_from new.*1
                    ((fun pr : Page F * TextRun F => r_text pr.2) <$> runs)).
      { cbn [distinct_from].
        destruct Hskip as [Hnil|Hknown].
        - now rewrite (bool_decide_eq_true_2 _ Hnil).
        - apply (map_inv_known _ _ _ _ Hinv) in Hknown.
          rewrite (bool_decide_eq_true_2 _ Hknown). now rewrite orb_true_r. }
      rewrite !fmap_cons. cbn [fst snd]. rewrite Hdistinct.
      destruct res as [e|[translations' k']].
      * destruct Hres as (ok & text & e1 & done & -> & Hok & -> & Hpre & ->).
        exists ok, text, e1, (S done).
        split; [reflexivity|]. split; [assumption|]. split; [reflexivity|].
        split; [assumption|now destruct has_callback].
      * destruct Hres as (Hmade & Hreturned & -> & Hinv').
        rewrite <- app_assoc in Hinv'.
        split; [assumption|]. split; [assumption|].
        split; [now destruct has_callback|assumption].
    + (* the call returns *)
      injection Hres as -> ->. intros Hfold Hinv.
      pose proof (map_inv_call _ _ _ (r_text run) r Hinv Hne Hnone) as Hinv1.
      destruct (IH _ _ _ _ _ Hfold Hinv1) as (Hfiles & made & evs & Hcalls
                                                & Hgen & Hprog & Hres).
      split; [congruence|].
      exists ((r_text run, inr r) :: made),
        ((if has_callback
          then [(mapping_progress (k + 1) total_items,
                 page_message (p_page_number page))]
          else []) ++ evs).
      split; [rewrite Hcalls, Hcalls1, <- app_assoc; reflexivity|].
      split; [exact (genuine_cons _ _ _ _ _ _ Htr Hgen)|].
      split; [now rewrite Hprog, Hprog1, <- app_assoc|].
      pose proof (map_inv_not_called _ _ _ _ Hinv Hnone) as Hnew.
      assert (Hdistinct :
                distinct_from new.*1
                  (r_text run
                     :: ((fun pr : Page F * TextRun F => r_text pr.2)
                           <$> runs))
                = r_text run
                    :: distinct_from (new ++ [(r_text run, inr r)]).*1
                         ((fun pr : Page F * TextRun F => r_text pr.2)
                            <$> runs)).
      { cbn [distinct_from].
        rewrite (bool_decide_eq_false_2 _ Hne),
          (bool_decide_eq_false_2 _ Hnew). cbn [orb].
        now rewrite fmap_app. }
      rewrite !fmap_cons. cbn [fst snd]. rewrite Hdistinct.
      destruct res as [e|[translations' k']].
      * destruct Hres as (ok & text & e1 & done & -> & Hok & -> & Hpre & ->).
        exists ((r_text run, inr r) :: ok), text, e1, (S done).
        split; [reflexivity|]. split; [now apply all_returned_cons|].
        split; [reflexivity|]. split; [|now destruct has_callback].
        rewrite ?fmap_cons. cbn [fst app]. now apply prefix_cons.
      * destruct Hres as (Hmade & Hreturned & -> & Hinv').
        rewrite <- !app_assoc in Hinv'. cbn [app] in Hinv'.
        split; [rewrite ?fmap_cons; cbn [fst]; now rewrite Hmade|].
        split; [now apply all_returned_cons|].
        split; [now destruct has_callback|assumption].
Qed.

End TraceLoop.

Section TraceStages.
Context {F : Type} {num : PyFloat F} (env : Env F).
Context {TS : Type} (translate : TS -> pystr -> (exn + pystr) * TS).
Context (upload_dir : pystr).

Lemma runs_with_pages_texts (pages : list (Page F)) :
  (fun pr : Page F * TextRun F => r_text pr.2) <$> runs_with_pages pages
  = r_text <$> all_runs pages.
Proof.
  induction pages as [|page pages IH]; [reflexivity|].
  rewrite runs_with_pages_cons, all_runs_cons, !fmap_app, IH.
  f_equal. rewrite <- list_fmap_compose. reflexivity.
Qed.

Lemma map_inv_empty : map_inv [] [] (∅ : gmap pystr pystr).
Proof.
  split; [constructor|]. split; [intros ? ? Hin; inversion Hin|].
  split; [|intros ? Hin; inversion Hin].
  intros text r. rewrite lookup_empty. split; [discriminate|].
  intros Hin. inversion Hin.
Qed.

(** The mapping stage: the calls it makes and the events it reports. *)
Lemma build_translations_trace (has_callback : bool)
    (pages : list (Page F)) (s s' : Eff F TS)
    (res : exn + gmap pystr pystr) :
  build_translations translate has_callback pages s = (res, s') ->
  let total := len (all_runs pages) in
  let texts := r_text <$> all_runs pages in
  let numbers := (fun pr : Page F * TextRun F => p_page_number pr.1)
                   <$> runs_with_pages pages in
  let reported (evs : list (F * pystr)) :=
    progress s' = progress s ++ (if has_callback then evs else []) in
  files s' = files s /\
  exists made,
    calls s' = calls s ++ made /\
    genuine translate made /\
    match res with
    | inr translations =>
        made.*1 = first_occurrences texts /\
        all_returned made /\
        map_inv texts made translations /\
        reported ((lit 2 1, py "Translating text...")
                    :: mapping_events total 0 numbers)
    | inl e =>
        exists ok text e0 done,
          made = ok ++ [(text, inl e0)] /\
          all_returned ok /\
          e = py "Translation failed: " ++ e0 /\
          (ok.*1 ++ [text]) `prefix_of` first_occurrences texts /\
          reported ((lit 2 1, py "Translating text...")
                      :: mapping_events total 0 (take done numbers))
    end.
Proof.
  cbv zeta. unfold build_translations, mbind, M_bind, bind.
  rewrite total_items_of_len.
  destruct (progress_callback_spec has_callback (lit 2 1)
              (py "Translating text...") s)
    as (s0 & -> & Hprog0 & Hcalls0 & _ & Hfiles0).
  rewrite translate_pages_flat.
  destruct (foldM _ (runs_with_pages pages) _ s0) as [[e|[translations k]] s1]
    eqn:Hfold; intros [= <- <-];
    apply (mapping_trace _ _ _ _ _ _ _ _ _ [] []) in Hfold;
    try apply map_inv_empty;
    cbv zeta in Hfold; rewrite runs_with_pages_texts in Hfold;
    destruct Hfold as (Hfiles & made & evs & Hcalls & Hgen & Hprog & Hres);
    (split; [congruence|]); exists made; (split; [congruence|]);
    (split; [assumption|]).
  - destruct Hres as (ok & text & e0 & done & -> & Hok & -> & Hpre & ->).
    exists ok, text, e0, done. repeat (split; [assumption || reflexivity|]).
    rewrite Hprog, Hprog0, <- app_assoc. now destruct has_callback.
  - destruct Hres as (Hmade & Hreturned & -> & Hinv).
    repeat (split; [assumption|]).
    rewrite Hprog, Hprog0, <- app_assoc. now destruct has_callback.
Qed.

(** Every way through the [try] block of [translate_pdf], with the calls
    in order, the events with their messages and the files written. *)
Lemma translate_pdf_body_trace (pdf_path : pystr) (has_callback : bool)
    (s s1 : Eff F TS) (res : exn + pystr) :
  translate_pdf_body env translate upload_dir pdf_path has_callback s
    = (res, s1) ->
  let reported (evs : list (F * pystr)) :=
    progress s1 = progress s ++ (if has_callback then evs else []) in
  let extracting := (lit 1 1, py "Extracting text from PDF...") in
  let output_path :=
    path_join upload_dir (py "translated_" ++ basename pdf_path) in
  exists made,
    calls s1 = calls s ++ made /\
    genuine translate made /\
    match open_rb env pdf_path with
    | inl e =>
        res = inl e /\ made = [] /\ files s1 = files s /\
        reported [extracting]
    | inr pdf =>
        let pages := extract_text_with_positions pdf in
        let total := len (all_runs pages) in
        let texts := r_text <$> all_runs pages in
        let numbers := (fun pr : Page F * TextRun F => p_page_number pr.1)
                         <$> runs_with_pages pages in
        (pages = [] /\ res = inl no_text_message /\ made = [] /\
         files s1 = files s /\ reported [extracting])
        \/
        (pages <> [] /\
         exists ok text e0 done,
           made = ok ++ [(text, inl e0)] /\
           all_returned ok /\
           res = inl (py "Translation failed: " ++ e0) /\
           (ok.*1 ++ [text]) `prefix_of` first_occurrences texts /\
           files s1 = files s /\
           reported (extracting :: (lit 2 1, py "Translating text...")
                       :: mapping_events total 0 (take done numbers)))
        \/
        (pages <> [] /\
         made.*1 = first_occurrences texts /\
         all_returned made /\
         exists translations,
           map_inv texts made translations /\
           let pdf_content := create_pdf_with_layout env pages translations in
           let mapped :=
             extracting :: (lit 2 1, py "Translating text...")
               :: mapping_events total 0 numbers
               ++ [(lit 8 1, py "Creating translated PDF...")] in
           (pdf_content = [] /\ res = inl create_failed_message /\
            files s1 = files s /\ reported mapped)
           \/
           (pdf_content <> [] /\
            (exists e, write_wb env output_path pdf_content = Some e /\
                       res = inl e) /\
            files s1 = files s
                         ++ match left_wb env output_path pdf_content with
                            | Some n => [(output_path, take n pdf_content)]
                            | None => []
                            end /\
            reported (mapped ++ [(lit 9 1, py "Saving translated PDF...")]))
           \/
           (pdf_content <> [] /\
            write_wb env output_path pdf_content = None /\
            res = inr output_path /\
            files s1 = files s ++ [(output_path, pdf_content)] /\
            reported (success_events pages)))
    end.
Proof.
  cbv zeta. unfold translate_pdf_body, mbind, M_bind, bind.
  destruct (progress_callback_spec has_callback (lit 1 1)
              (py "Extracting text from PDF...") s)
    as (s0 & -> & Hprog0 & Hcalls0 & _ & Hfiles0).
  unfold open_pdf. destruct (open_rb env pdf_path) as [e|pdf] eqn:Hopen.
  { intros [= <- <-]. exists []. rewrite app_nil_r.
    split; [assumption|]. split; [apply genuine_nil|].
    repeat (split; [assumption || reflexivity|]). assumption. }
  destruct (extract_text_with_positions pdf) as [|pg pgs] eqn:Hpages.
  { unfold raise. intros [= <- <-]. exists []. rewrite app_nil_r.
    split; [assumption|]. split; [apply genuine_nil|]. left.
    repeat (split; [assumption || reflexivity|]). assumption. }
  unfold ret at 1.
  destruct (build_translations translate has_callback (pg :: pgs) s0)
    as [[e|translations] s2] eqn:Hbuild;
    apply build_translations_trace in Hbuild
      as (Hfiles2 & made & Hcalls2 & Hgen & Hres); cbv zeta in Hres.
  { intros [= <- <-]. exists made. split; [congruence|].
    split; [assumption|]. right. left.
    split; [discriminate|].
    destruct Hres as (ok & text & e0 & done & -> & Hok & -> & Hpre & Hprog2).
    exists ok, text, e0, done. repeat (split; [assumption || reflexivity|]).
    split; [congruence|].
    rewrite Hprog2, Hprog0, <- app_assoc. now destruct has_callback. }
  destruct Hres as (Hmade & Hreturned & Hinv & Hprog2).
  destruct (progress_callback_spec has_callback (lit 8 1)
              (py "Creating translated PDF...") s2)
    as (s3 & -> & Hprog3 & Hcalls3 & _ & Hfiles3).
  assert (Hmapped :
            progress s3
            = progress s ++
                (if has_callback
                 then (lit 1 1, py "Extracting text from PDF...")
                        :: (lit 2 1, py "Translating text...")
                        :: mapping_events (len (all_runs (pg :: pgs))) 0
                             ((fun pr : Page F * TextRun F =>
                                 p_page_number pr.1)
                                <$> runs_with_pages (pg :: pgs))
                        ++ [(lit 8 1, py "Creating translated PDF...")]
                 else [])).
  { rewrite Hprog3, Hprog2, Hprog0, <- !app_assoc.
    now destruct has_callback. }
  destruct (create_pdf_with_layout env (pg :: pgs) translations)
    as [|b bs] eqn:Hcreate.
  { unfold raise. intros [= <- <-]. exists made. split; [congruence|].
    split; [assumption|]. right. right. split; [discriminate|].
    split; [assumption|].
    split; [assumption|]. exists translations. split; [assumption|].
    rewrite Hcreate. left.
    split; [reflexivity|]. split; [reflexivity|].
    split; [congruence|assumption]. }
  unfold ret at 1.
  destruct (progress_callback_spec has_callback (lit 9 1)
              (py "Saving translated PDF...") s3)
    as (s4 & -> & Hprog4 & Hcalls4 & _ & Hfiles4).
  match goal with
  | |- context [write_file env ?path ?content s4] =>
      destruct (write_file_spec env path content s4)
        as (s4' & Hprog4' & Hcalls4' & _ & Hwritten)
  end.
  rewrite <- Hprog4' in Hprog4.
  destruct (write_wb env _ _) as [e|] eqn:Hwrite;
    destruct Hwritten as [-> Hfiles4'].
  { intros [= <- <-]. exists made. split; [congruence|].
    split; [assumption|]. right. right. split; [discriminate|].
    split; [assumption|].
    split; [assumption|]. exists translations. split; [assumption|].
    rewrite Hcreate. right. left.
    split; [discriminate|]. split; [eauto|]. split; [congruence|].
    rewrite Hprog4, Hmapped, <- app_assoc. now destruct has_callback. }
  match goal with
  | |- context [progress_callback has_callback ?f ?msg ?st] =>
      destruct (progress_callback_spec has_callback f msg st)
        as (s5 & -> & Hprog5 & Hcalls5 & _ & Hfiles5)
  end.
  cbn [progress calls files] in Hprog5, Hcalls5, Hfiles5.
  unfold ret. intros [= <- <-]. exists made. split; [congruence|].
  split; [assumption|]. right. right. split; [discriminate|].
  split; [assumption|].
  split; [assumption|]. exists translations. split; [assumption|].
  rewrite Hcreate. right. right.
  split; [discriminate|]. split; [assumption|]. split; [reflexivity|].
  split; [congruence|].
  rewrite Hprog5, Hprog4, Hmapped, <- !app_assoc. unfold success_events.
  destruct has_callback; [|reflexivity]. cbn [app]. rewrite <- !app_assoc.
  reflexivity.
Qed.

End TraceStages.

(** What [translate_pdf] returns and leaves behind, from what its [try]
    block does, with the event of the [except] clause. *)
Lemma translate_pdf_outcome {F} {num : PyFloat F} (env : Env F) {TS}
    (translate : TS -> pystr -> (exn + pystr) * TS)
    (upload_dir pdf_path : pystr) (has_callback : bool) (s s' : Eff F TS)
    (r : exn + pystr) :
  translate_pdf env translate upload_dir pdf_path has_callback s = (r, s') ->
  exists res s1,
    translate_pdf_body env translate upload_dir pdf_path has_callback s
      = (res, s1) /\
    calls s' = calls s1 /\ files s' = files s1 /\
    match res with
    | inr output_path => r = inr output_path /\ progress s' = progress s1
    | inl e =>
        r = inr [] /\
        progress s' = progress s1 ++
                        (if has_callback
                         then [(of_int (-1), error_message e)]
                         else [])
    end.
Proof.
  unfold translate_pdf, try_except.
  destruct (translate_pdf_body _ _ _ _ _ s) as [[e|p] s1] eqn:Hbody.
  - unfold translate_pdf_except, mbind, M_bind, bind, ret.
    destruct (progress_callback_spec has_callback (of_int (-1))
                (error_message e) s1)
      as (s2 & -> & Hprog & Hcalls & _ & Hfiles).
    intros [= <- <-]. exists (inl e), s1. now repeat split.
  - intros [= <- <-]. exists (inr p), s1. now repeat split.
Qed.



(** A write that fails once the file is open: [translate_pdf] returns the
    empty string and reports the failure, and the output file is there,
    empty. *)
Example failed_write_leaves_file :
  let run :=
    translate_pdf (full_disk_env ab_pdf) shout (py "uploads")
      (py "docs/in.pdf") true fresh in
  run.1 = inr [] /\
  files run.2 = [(py "uploads/translated_in.pdf", [])] /\
  last (progress run.2)
  = Some ((-1)%float,
          py "PDF translation error: [Errno 28] No space left on device").
Proof. vm_compute. repeat split. Qed.

(** ** The output path *)

Lemma basename_snoc (p : pystr) (c : N) :
  basename (p ++ [c])
  = if (c =? slash)%N then [] else basename p ++ [c].
Proof. unfold basename. now rewrite foldl_snoc. Qed.

Lemma basename_spec (p : pystr) :
  (slash ∉ basename p) /\
  (exists dir, p = dir ++ basename p /\ (dir = [] \/ last dir = Some slash)).
Proof.
  induction p as [|c p (Hno & dir & Hp & Hdir)] using rev_ind.
  - split; [intros Hin; inversion Hin|]. exists []. now split; [|left].
  - rewrite basename_snoc. destruct (c =? slash)%N eqn:Hc.
    + apply N.eqb_eq in Hc. subst c.
      split; [intros Hin; inversion Hin|].
      exists (p ++ [slash]). rewrite app_nil_r. split; [reflexivity|].
      right. apply last_snoc.
    + apply N.eqb_neq in Hc. split.
      * rewrite elem_of_app, list_elem_of_singleton. intros [?|?]; congruence.
      * exists dir. split; [|assumption].
        rewrite app_assoc. now f_equal.
Qed.

(** X18.  The path [translate_pdf] writes to lies directly in
    [upload_dir]: it is [upload_dir], a slash unless [upload_dir] is empty
    or ends with one, and [translated_] followed by the base name of the
    input path, a name that holds no slash and is what follows the last
    slash of the input path. *)
Theorem output_path_in_upload_dir (upload_dir pdf_path : pystr) :
  let name := basename pdf_path in
  (slash ∉ py "translated_" ++ name) /\
  (exists dir,
     pdf_path = dir ++ name /\ (dir = [] \/ last dir = Some slash)) /\
  path_join upload_dir (py "translated_" ++ name)
  = upload_dir
      ++ match last upload_dir with
         | Some c => if (c =? slash)%N then [] else [slash]
         | None => []
         end
      ++ py "translated_" ++ name.
Proof.
  cbv zeta. destruct (basename_spec pdf_path) as (Hno & Hdir).
  split; [|split; [assumption|]].
  - rewrite elem_of_app. intros [Hin|Hin]; [|contradiction].
    vm_compute in Hin.
    repeat (apply elem_of_cons in Hin as [Hin|Hin]; [discriminate|]).
    inversion Hin.
  - unfold path_join.
    change (startswith (py "translated_" ++ basename pdf_path) [slash])
      with false. cbv iota.
    destruct (last upload_dir) as [c|] eqn:Hlast.
    + now destruct (c =? slash)%N.
    + apply last_None in Hlast. now subst.
Qed.

(** ** Failures of the translator *)

Lemma contains_cons_ne (p0 c : N) (p s : pystr) :
  (p0 =? c)%N = false -> contains (p0 :: p) (c :: s) = contains (p0 :: p) s.
Proof. intros Hne. cbn [contains startswith]. now rewrite Hne. Qed.

Lemma startswith_app (p s : pystr) : startswith (p ++ s) p = true.
Proof.
  induction p as [|c p IH]; [now destruct s|].
  cbn. now rewrite N.eqb_refl.
Qed.

Lemma contains_prefix (p s : pystr) : contains p (p ++ s) = true.
Proof.
  destruct p as [|c p]; [now destruct s|].
  cbn [app contains]. change (c :: p ++ s) with ((c :: p) ++ s).
  now rewrite startswith_app.
Qed.

(** The message reported for a failure of [translate] whose own message
    is [e]. *)
Lemma error_message_translation (e : exn) :
  error_message (py "Translation failed: " ++ e)
  = if contains (py "No extractable text") e
    then py "Could not extract text from PDF. Please ensure the PDF contains text and not just images."
    else py "Translation failed. Please try again or check your internet connection.".
Proof.
  unfold error_message.
  assert (H1 : contains (py "No extractable text")
                 (py "Translation failed: " ++ e)
               = contains (py "No extractable text") e).
  { change (py "No extractable text")
      with (78%N :: py "o extractable text").
    change (py "Translation failed: " ++ e)
      with (List.map N_of_ascii
              (list_ascii_of_string "Translation failed: ") ++ e).
    cbn [list_ascii_of_string List.map app].
    repeat (rewrite contains_cons_ne by reflexivity). reflexivity. }
  assert (H2 : contains (py "Translation failed")
                 (py "Translation failed: " ++ e) = true).
  { change (py "Translation failed: " ++ e)
      with (py "Translation failed" ++ (py ": " ++ e)).
    apply contains_prefix. }
  rewrite H1, H2. reflexivity.
Qed.

Lemma all_returned_not_raised (new : list (pystr * (exn + pystr))) :
  all_returned new -> ~ raised new.
Proof.
  intros Hall (text & e & Hin). now destruct (Hall _ _ Hin) as [r [=]].
Qed.

(** What a failing call of [translate] leaves of a run of
    [translate_pdf]. *)
Lemma translate_pdf_translator_failure {F} {num : PyFloat F}
    (env : Env F) {TS} (translate : TS -> pystr -> (exn + pystr) * TS)
    (upload_dir pdf_path : pystr) (has_callback : bool) (s s' : Eff F TS)
    (r : exn + pystr) :
  translate_pdf env translate upload_dir pdf_path has_callback s = (r, s') ->
  raised (new_calls s s') ->
  exists ok text e,
    new_calls s s' = ok ++ [(text, inl e)] /\
    all_returned ok /\
    r = inr [] /\
    files s' = files s /\
    (exists ts ts', translate ts text = (inl e, ts')) /\
    (has_callback = true ->
     last (progress s')
     = Some (of_int (-1), error_message (py "Translation failed: " ++ e))).
Proof.
  intros Hrun Hraised.
  apply translate_pdf_outcome in Hrun
    as (res & s1 & Hbody & Hcalls & Hfiles & Hres).
  apply translate_pdf_body_trace in Hbody as (made & Hmade & Hgen & Hcases).
  cbv zeta in Hcases.
  assert (Hnew : new_calls s s' = made).
  { apply new_calls_app. congruence. }
  rewrite Hnew in *. rewrite Hfiles.
  assert (Hnone : ~ raised []).
  { intros (text & e & Hin). inversion Hin. }
  destruct (open_rb env pdf_path) as [e|pdf].
  { destruct Hcases as (_ & -> & _). contradiction. }
  destruct Hcases as [(_ & _ & -> & _)
                     |[(_ & ok & text & e0 & done & -> & Hok & -> & _
                          & Hfiles1 & _)
                      |(_ & _ & Hall & _)]];
    [contradiction| |now apply all_returned_not_raised in Hall].
  destruct Hres as [-> Hprog].
  exists ok, text, e0. repeat (split; [assumption || reflexivity|]).
  split; [apply (Hgen text (inl e0)), elem_of_app; right; left|].
  intros ->. now rewrite Hprog, last_snoc.
Qed.

(** X19.  If a call of [translate] raises during [translate_pdf], it is
    the last call made: [translate_pdf] stops there, writes nothing and
    returns the empty string.  With a callback, the last event is the
    sentinel [-1] with the translation-failure message, or with the
    extraction-failure message when the text of the translator's exception
    contains [No extractable text]. *)
Theorem translator_failure_stops_translation {F} {num : PyFloat F}
    (env : Env F) {TS} (translate : TS -> pystr -> (exn + pystr) * TS)
    (upload_dir pdf_path : pystr) (has_callback : bool) (s s' : Eff F TS)
    (r : exn + pystr) :
  translate_pdf env translate upload_dir pdf_path has_callback s = (r, s') ->
  raised (new_calls s s') ->
  exists ok text e,
    new_calls s s' = ok ++ [(text, inl e)] /\
    all_returned ok /\
    r = inr [] /\
    files s' = files s /\
    (has_callback = true ->
     last (progress s')
     = Some (of_int (-1),
             if contains (py "No extractable text") e
             then py "Could not extract text from PDF. Please ensure the PDF contains text and not just images."
             else py "Translation failed. Please try again or check your internet connection.")).
Proof.
  intros Hrun Hraised.
  destruct (translate_pdf_translator_failure _ _ _ _ _ _ _ _ Hrun Hraised)
    as (ok & text & e & Hnew & Hok & Hr & Hfiles & _ & Hlast).
  exists ok, text, e. repeat (split; [assumption|]).
  intros Hcb. now rewrite (Hlast Hcb), error_message_translation.
Qed.

Lemma translator_failure_stops_translation_witness :
  let run :=
    translate_pdf (calm_env ab_pdf) broken (py "uploads") (py "in.pdf")
      true fresh in
  exists ok text e,
    new_calls fresh run.2 = ok ++ [(text, inl e)] /\
    all_returned ok /\
    run.1 = inr [] /\
    files run.2 = files fresh /\
    (true = true ->
     last (progress run.2)
     = Some (of_int (-1),
             if contains (py "No extractable text") e
             then py "Could not extract text from PDF. Please ensure the PDF contains text and not just images."
             else py "Translation failed. Please try again or check your internet connection.")).
Proof.
  cbv zeta.
  apply (translator_failure_stops_translation (calm_env ab_pdf) broken
           (py "uploads") (py "in.pdf") true fresh).
  - apply surjective_pairing.
  - exists (py "a"), (py "model not loaded"). vm_compute. left.
Defined.

(** A translator whose exception mentions [No extractable text] has its
    failure reported as a failure of the extraction. *)
Example translator_failure_misreported :
  let confused (ts : unit) (text : pystr) : (exn + pystr) * unit :=
    (inl (py "No extractable text in the model output"), ts) in
  last (progress
          (translate_pdf (calm_env ab_pdf) confused (py "uploads")
             (py "in.pdf") true fresh).2)
  = Some ((-1)%float,
          py "Could not extract text from PDF. Please ensure the PDF contains text and not just images.").
Proof. vm_compute. reflexivity. Qed.

(** ** The order of the calls and the messages of the events *)

Example first_occurrences_example :
  first_occurrences [py "a"; py "b"; py "a"; []; py "c"; py "b"]
  = [py "a"; py "b"; py "c"].
Proof. vm_compute. reflexivity. Qed.

(** X20.  [translate_pdf] calls [translate] on the texts of the runs in
    document order, each text that is not empty once, where it first
    occurs: the texts of the calls made are always a prefix of that list,
    and the whole list when the document has text and no call raises. *)
Theorem translate_calls_in_document_order {F} {num : PyFloat F}
    (env : Env F) {TS} (translate : TS -> pystr -> (exn + pystr) * TS)
    (upload_dir pdf_path : pystr) (has_callback : bool) (s s' : Eff F TS)
    (r : exn + pystr) (pdf : PdfFile F) :
  translate_pdf env translate upload_dir pdf_path has_callback s = (r, s') ->
  open_rb env pdf_path = inr pdf ->
  let pages := extract_text_with_positions pdf in
  let texts := r_text <$> all_runs pages in
  (new_calls s s').*1 `prefix_of` first_occurrences texts /\
  (pages <> [] -> all_returned (new_calls s s') ->
   (new_calls s s').*1 = first_occurrences texts).
Proof.
  intros Hrun Hopen pages texts.
  apply translate_pdf_outcome in Hrun
    as (res & s1 & Hbody & Hcalls & _ & _).
  apply translate_pdf_body_trace in Hbody as (made & Hmade & Hgen & Hcases).
  cbv zeta in Hcases. rewrite Hopen in Hcases.
  fold pages in Hcases. fold texts in Hcases.
  assert (Hnew : new_calls s s' = made).
  { apply new_calls_app. congruence. }
  rewrite Hnew.
  destruct Hcases as [(Hnil & _ & -> & _)
                     |[(_ & ok & text & e0 & done & -> & Hok & _ & Hpre & _)
                      |(_ & Hall & _)]].
  - split; [apply prefix_nil|]. congruence.
  - rewrite fmap_app. split; [exact Hpre|].
    intros _ Hreturned.
    destruct (Hreturned text (inl e0)) as [r0 [=]].
    apply elem_of_app. right. left.
  - rewrite Hall. split; [reflexivity|auto].
Qed.

Lemma translate_calls_in_document_order_witness :
  let run :=
    translate_pdf (calm_env abac_pdf) shout (py "uploads") (py "in.pdf") true
      fresh in
  let texts := r_text <$> all_runs (extract_text_with_positions abac_pdf) in
  texts = [py "a"; py "b"; py "a"; py "c"] /\
  (new_calls fresh run.2).*1 = [py "a"; py "b"; py "c"] /\
  (new_calls fresh run.2).*1 `prefix_of` first_occurrences texts /\
  (extract_text_with_positions abac_pdf <> [] ->
   all_returned (new_calls fresh run.2) ->
   (new_calls fresh run.2).*1 = first_occurrences texts).
Proof.
  cbv zeta. split; [vm_compute; reflexivity|].
  split; [vm_compute; reflexivity|].
  apply (translate_calls_in_document_order (calm_env abac_pdf) shout
           (py "uploads") (py "in.pdf") true fresh _
           (translate_pdf (calm_env abac_pdf) shout (py "uploads")
              (py "in.pdf") true fresh).1 abac_pdf).
  - apply surjective_pairing.
  - reflexivity.
Defined.

(** X21.  When [translate_pdf] succeeds with a callback, the events it
    reports are, in order: [0.1] with [Extracting text from PDF...]; [0.2]
    with [Translating text...]; for the [k]-th run of the document,
    [0.2 + (0.6 * k / total)] with [Translating page n...], [n] being the
    number of the page the run is on; then [0.8], [0.9] and [1.0] with
    their messages. *)
Theorem progress_events_on_success {F} {num : PyFloat F} (env : Env F) {TS}
    (translate : TS -> pystr -> (exn + pystr) * TS)
    (upload_dir pdf_path : pystr) (s s' : Eff F TS) (r : pystr)
    (pdf : PdfFile F) :
  translate_pdf env translate upload_dir pdf_path true s = (inr r, s') ->
  r <> [] ->
  open_rb env pdf_path = inr pdf ->
  new_progress s s' = success_events (extract_text_with_positions pdf).
Proof.
  intros Hrun Hr Hopen.
  apply translate_pdf_outcome in Hrun
    as (res & s1 & Hbody & _ & _ & Hres).
  apply translate_pdf_body_trace in Hbody as (made & _ & _ & Hcases).
  cbv zeta in Hcases. rewrite Hopen in Hcases.
  destruct res as [e|p]; [destruct Hres as [[= ->] _]; congruence|].
  destruct Hres as [_ Hprog]. apply new_progress_app. rewrite Hprog.
  destruct Hcases as [(_ & [=] & _)
                     |[(_ & ok & text & e0 & done & _ & _ & [=] & _)
                      |(_ & _ & _ & translations & _ & Hrender)]].
  now destruct Hrender as [(_ & [=] & _)
                          |[(_ & [e [_ [=]]] & _)|(_ & _ & _ & _ & ->)]].
Qed.

Lemma progress_events_on_success_witness :
  let pdf := Parsed [hello_page; blank_page; hello_page] in
  let after :=
    (translate_pdf (calm_env pdf) shout (py "uploads") (py "in.pdf") true
       fresh).2 in
  new_progress fresh after = success_events (extract_text_with_positions pdf)
  /\
  (new_progress fresh after).*2
  = [py "Extracting text from PDF..."; py "Translating text...";
     py "Translating page 1..."; py "Translating page 3...";
     py "Creating translated PDF..."; py "Saving translated PDF...";
     py "Translation complete!"].
Proof.
  cbv zeta. split; [|vm_compute; reflexivity].
  apply (progress_events_on_success
           (calm_env (Parsed [hello_page; blank_page; hello_page])) shout
           (py "uploads") (py "in.pdf") fresh _
           (py "uploads/translated_in.pdf")).
  - vm_compute. reflexivity.
  - discriminate.
  - reflexivity.
Defined.

(** ** The translator of [app/translator.py] in [translate_pdf] *)

Lemma translator_raises_wrapped {TS}
    (run_model : TS -> pystr -> Z -> (exn + pystr) * TS) (ts ts' : TS)
    (text : pystr) (e : exn) :
  Translator.translate_default run_model ts text = (inl e, ts') ->
  exists e0,
    run_model ts text 512 = (inl e0, ts') /\
    e = py "Translation error: " ++ e0.
Proof.
  unfold Translator.translate_default, Translator.translate.
  destruct (run_model ts text 512) as [[e0|r] ts1]; [|discriminate].
  intros [= <- <-]. eauto.
Qed.

Lemma contains_wrapped (e : exn) :
  contains (py "No extractable text") (py "Translation error: " ++ e)
  = contains (py "No extractable text") e.
Proof.
  change (py "No extractable text") with (78%N :: py "o extractable text").
  change (py "Translation error: " ++ e)
    with (List.map N_of_ascii
            (list_ascii_of_string "Translation error: ") ++ e).
  cbn [list_ascii_of_string List.map app].
  repeat (rewrite contains_cons_ne by reflexivity). reflexivity.
Qed.

(** X22.  With the translator of [app/translator.py], a failure of the
    model or of the tokenizer during [translate_pdf] ends the run: the
    call that failed is the last one, nothing is written, the empty string
    is returned, and the callback's last event is the sentinel [-1] with
    the translation-failure message, unless the text of the library's
    exception contains [No extractable text], in which case the failure
    is reported as one of the extraction. *)
Theorem model_failure_is_reported {F} {num : PyFloat F} (env : Env F) {TS}
    (run_model : TS -> pystr -> Z -> (exn + pystr) * TS)
    (upload_dir pdf_path : pystr) (s s' : Eff F TS) (r : exn + pystr) :
  translate_pdf env (Translator.translate_default run_model) upload_dir
    pdf_path true s = (r, s') ->
  raised (new_calls s s') ->
  exists ok text e0 ts ts',
    run_model ts text 512 = (inl e0, ts') /\
    new_calls s s' = ok ++ [(text, inl (py "Translation error: " ++ e0))] /\
    all_returned ok /\
    r = inr [] /\
    files s' = files s /\
    last (progress s')
    = Some (of_int (-1),
            if contains (py "No extractable text") e0
            then py "Could not extract text from PDF. Please ensure the PDF contains text and not just images."
            else py "Translation failed. Please try again or check your internet connection.").
Proof.
  intros Hrun Hraised.
  destruct (translate_pdf_translator_failure _ _ _ _ _ _ _ _ Hrun Hraised)
    as (ok & text & e & Hnew & Hok & Hr & Hfiles & (ts & ts' & Htr) & Hlast).
  apply translator_raises_wrapped in Htr as (e0 & Hmodel & ->).
  exists ok, text, e0, ts, ts'. repeat (split; [assumption|]).
  rewrite (Hlast eq_refl), error_message_translation, contains_wrapped.
  reflexivity.
Qed.

Lemma model_failure_is_reported_witness :
  let run :=
    translate_pdf (calm_env ab_pdf)
      (Translator.translate_default out_of_memory) (py "uploads")
      (py "in.pdf") true fresh in
  exists ok text e0 ts ts',
    out_of_memory ts text 512 = (inl e0, ts') /\
    new_calls fresh run.2
    = ok ++ [(text, inl (py "Translation error: " ++ e0))] /\
    all_returned ok /\
    run.1 = inr [] /\
    files run.2 = files fresh /\
    last (progress run.2)
    = Some (of_int (-1),
            if contains (py "No extractable text") e0
            then py "Could not extract text from PDF. Please ensure the PDF contains text and not just images."
            else py "Translation failed. Please try again or check your internet connection.").
Proof.
  cbv zeta.
  apply (model_failure_is_reported (calm_env ab_pdf) out_of_memory
           (py "uploads") (py "in.pdf") fresh).
  - apply surjective_pairing.
  - exists (py "a"), (py "Translation error: CUDA out of memory").
    vm_compute. left.
Defined.

(** ** The text tab of [app/main.py] *)

Section TextTab.
Context {F : Type} {num : PyFloat F}.
Context {TS : Type} (translate : TS -> pystr -> (exn + pystr) * TS).

(** The loop over the chunks: the calls it makes and what it returns. *)
Lemma translate_chunks_spec (total : Z) (chunks : list pystr) (i : Z)
    (done : list pystr) (st st' : Main.Session F TS)
    (res : exn + list pystr) :
  Main.translate_chunks translate total i chunks done st = (res, st') ->
  Main.last_translation st' = Main.last_translation st /\
  exists made,
    Main.translated st' = Main.translated st ++ made /\
    genuine translate made /\
    made.*1 `prefix_of` chunks /\
    match res with
    | inr results =>
        exists new,
          results = done ++ new /\
          made = zip chunks (inr <$> new) /\
          length new = length chunks /\
          Main.screen st'
          = Main.screen st
              ++ ((fun k => Main.BarFraction (of_int k / of_int total)%py)
                    <$> seqZ (i + 1) (len chunks))
    | inl e =>
        exists ok chunk,
          made = ok ++ [(chunk, inl e)] /\ all_returned ok
    end.
Proof.
  revert i done st. induction chunks as [|chunk chunks IH]; intros i done st.
  - intros [= <- <-]. split; [reflexivity|]. exists [].
    rewrite app_nil_r. split; [reflexivity|]. split; [apply genuine_nil|].
    split; [reflexivity|]. exists []. rewrite !app_nil_r. now repeat split.
  - cbn [Main.translate_chunks].
    destruct (translate (Main.translator st) chunk) as [[e|r] ts] eqn:Htr.
    + intros [= <- <-]. cbn [Main.last_translation Main.translated].
      split; [reflexivity|]. exists [(chunk, inl e)].
      split; [reflexivity|].
      split; [exact (genuine_cons _ _ _ _ _ _ Htr (genuine_nil _))|].
      split; [now apply prefix_cons, prefix_nil|].
      exists [], chunk. split; [reflexivity|apply all_returned_nil].
    + intros Hloop. apply IH in Hloop as (Hlast & made & Hmade & Hgen & Hpre
                                            & Hres).
      cbn [Main.show_event Main.last_translation Main.translated
             Main.screen] in Hlast, Hmade, Hres.
      split; [assumption|]. exists ((chunk, inr r) :: made).
      split; [now rewrite Hmade, <- app_assoc|].
      split; [exact (genuine_cons _ _ _ _ _ _ Htr Hgen)|].
      split; [rewrite fmap_cons; now apply prefix_cons|].
      destruct res as [e|results].
      * destruct Hres as (ok & c & -> & Hok).
        exists ((chunk, inr r) :: ok), c.
        split; [reflexivity|now apply all_returned_cons].
      * destruct Hres as (new & -> & -> & Hlen & Hscreen).
        exists (r :: new). rewrite <- app_assoc.
        split; [reflexivity|]. split; [reflexivity|].
        split; [cbn [length]; now rewrite Hlen|].
        rewrite Hscreen, <- app_assoc. f_equal.
        replace (len (chunk :: chunks)) with (Z.succ (len chunks))
          by (unfold len; cbn [length]; lia).
        rewrite (seqZ_cons (i + 1) (Z.succ (len chunks)))
          by (unfold len; lia).
        rewrite fmap_cons, Z.pred_succ, <- Z.add_1_r. reflexivity.
Qed.

End TextTab.

Lemma split_text_clean (t : pystr) (max_length : Z) :
  Utils.split_text (Utils.clean_text t) max_length
  = Utils.split_text t max_length.
Proof.
  unfold Utils.split_text, Utils.clean_text.
  now rewrite split_join by apply split_words.
Qed.

(** X23.  Pressing [Translate Text] on a text that is not the empty
    string, when no call of the translator raises: [translate] is called
    once on each chunk of [split_text] of the text as typed (cleaning it
    first changes nothing), in order; the stored translation is the
    results of these calls joined by single spaces; and the bar goes from
    0 through [k / n] after the [k]-th of the [n] chunks to 100.  For a
    text of whitespace only there is no chunk: nothing is translated and
    the stored translation is the empty string. *)
Theorem text_tab_translates_chunks {F} {num : PyFloat F} {TS}
    (translate : TS -> pystr -> (exn + pystr) * TS) (input_text : pystr)
    (st st' : Main.Session F TS) :
  input_text <> [] ->
  Main.translate_text translate input_text st = (inr tt, st') ->
  let chunks := Utils.split_text input_text 512 in
  exists results,
    length results = length chunks /\
    Main.translated st'
    = Main.translated st ++ zip chunks (inr <$> results) /\
    genuine translate (zip chunks (inr <$> results)) /\
    Main.last_translation st' = Some (join [space] results) /\
    Main.screen st'
    = Main.screen st
        ++ [Main.BarPercent 0]
        ++ ((fun k => Main.BarFraction (of_int k / of_int (len chunks))%py)
              <$> seqZ 1 (len chunks))
        ++ [Main.BarPercent 100] /\
    (blank input_text = true -> chunks = [] /\ results = []).
Proof.
  intros Hne Hrun chunks. unfold Main.translate_text in Hrun.
  destruct input_text as [|c input_text]; [congruence|].
  rewrite split_text_clean in Hrun. fold chunks in Hrun.
  destruct (Main.translate_chunks _ _ _ _ _ _) as [[e|results] st1]
    eqn:Hloop; [discriminate|].
  injection Hrun as <-.
  apply translate_chunks_spec in Hloop
    as (_ & made & Hmade & Hgen & _ & new & -> & -> & Hlen & Hscreen).
  cbn [Main.show_event Main.translated Main.screen] in Hmade, Hscreen.
  exists new. cbn [app Main.show_event Main.translated Main.screen
                     Main.last_translation].
  split; [assumption|]. split; [assumption|]. split; [assumption|].
  split; [reflexivity|]. split.
  - rewrite Hscreen, <- !app_assoc. reflexivity.
  - intros Hblank.
    assert (Hnil : chunks = []).
    { unfold chunks, Utils.split_text.
      apply split_from_blank in Hblank. unfold split. now rewrite Hblank. }
    split; [assumption|]. rewrite Hnil in Hlen. now destruct new.
Qed.

Lemma text_tab_translates_chunks_witness :
  let st' := (Main.translate_text shout (py " Hello,   World! ")
                fresh_session).2 in
  exists results,
    length results
    = length (Utils.split_text (py " Hello,   World! ") 512) /\
    Main.translated st'
    = Main.translated fresh_session
        ++ zip (Utils.split_text (py " Hello,   World! ") 512)
             (inr <$> results) /\
    genuine shout
      (zip (Utils.split_text (py " Hello,   World! ") 512)
         (inr <$> results)) /\
    Main.last_translation st' = Some (join [space] results) /\
    Main.screen st'
    = Main.screen fresh_session
        ++ [Main.BarPercent 0]
        ++ ((fun k =>
               Main.BarFraction
                 (of_int k
                  / of_int (len (Utils.split_text (py " Hello,   World! ")
                                   512)))%py)
              <$> seqZ 1 (len (Utils.split_text (py " Hello,   World! ")
                                 512)))
        ++ [Main.BarPercent 100] /\
    (blank (py " Hello,   World! ") = true ->
     Utils.split_text (py " Hello,   World! ") 512 = [] /\ results = []).
Proof.
  cbv zeta.
  apply (text_tab_translates_chunks shout (py " Hello,   World! ")
           fresh_session).
  - discriminate.
  - vm_compute. reflexivity.
Defined.

Example text_tab_example :
  Main.last_translation
    (Main.translate_text shout (py " Hello,   World! ") fresh_session).2
  = Some (py "Hello, World!!") /\
  Main.last_translation (Main.translate_text shout (py "   ") fresh_session).2
  = Some [] /\
  Main.translate_text shout [] fresh_session
  = (inr tt,
     Main.show_event
       (Main.WarningBox (py "Please enter some text to translate"))
       fresh_session).
Proof. repeat split; vm_compute; reflexivity. Qed.

(** X24.  When a call of the translator raises while the text tab
    translates, the exception leaves [handle_text_translation] as it is,
    the calls made are on the first chunks of the text in order, the one
    that raised being the last, the stored translation is what it was
    before the button was pressed, and the bar is not set to 100. *)
Theorem text_tab_failure_keeps_translation {F} {num : PyFloat F} {TS}
    (translate : TS -> pystr -> (exn + pystr) * TS) (input_text : pystr)
    (st st' : Main.Session F TS) (e : exn) :
  Main.translate_text translate input_text st = (inl e, st') ->
  Main.last_translation st' = Main.last_translation st /\
  exists ok chunk ts ts',
    Main.translated st' = Main.translated st ++ ok ++ [(chunk, inl e)] /\
    all_returned ok /\
    translate ts chunk = (inl e, ts') /\
    (ok.*1 ++ [chunk]) `prefix_of` Utils.split_text input_text 512 /\
    last (Main.screen st') <> Some (Main.BarPercent 100).
Proof.
  unfold Main.translate_text.
  destruct input_text as [|c input_text]; [discriminate|].
  rewrite split_text_clean.
  destruct (Main.translate_chunks _ _ _ _ _ _) as [[e'|results] st1]
    eqn:Hloop; [|discriminate].
  intros [= -> ->].
  pose proof Hloop as Hshape.
  apply translate_chunks_spec in Hloop
    as (Hlast & made & Hmade & Hgen & Hpre & ok & chunk & -> & Hok).
  cbn [Main.show_event Main.translated Main.last_translation] in Hlast, Hmade.
  split; [assumption|].
  destruct (Hgen chunk (inl e)) as (ts & ts' & Htr);
    [apply elem_of_app; right; left|].
  exists ok, chunk, ts, ts'. split; [assumption|]. split; [assumption|].
  split; [assumption|]. split; [now rewrite fmap_app in Hpre|].
  clear -Hshape.
  assert (Hbar : forall chunks total i done (s0 s1 : Main.Session F TS) res,
             Main.translate_chunks translate total i chunks done s0
             = (res, s1) ->
             last (Main.screen s0) <> Some (Main.BarPercent 100) ->
             last (Main.screen s1) <> Some (Main.BarPercent 100)).
  { induction chunks as [|ch chunks IH]; intros total i done s0 s1 res.
    - now intros [= <- <-].
    - cbn [Main.translate_chunks].
      destruct (translate (Main.translator s0) ch) as [[e0|r] ts].
      + now intros [= <- <-].
      + intros Hloop _. apply IH in Hloop; [assumption|].
        cbn [Main.show_event Main.screen]. rewrite last_snoc. discriminate. }
  apply Hbar in Hshape; [assumption|].
  cbn [Main.show_event Main.screen]. rewrite last_snoc. discriminate.
Qed.

Lemma text_tab_failure_keeps_translation_witness :
  let st' := (Main.translate_text broken (py "Hello, World!")
                fresh_session).2 in
  Main.last_translation st' = Main.last_translation fresh_session /\
  exists ok chunk ts ts',
    Main.translated st'
    = Main.translated fresh_session
        ++ ok ++ [(chunk, inl (py "model not loaded"))] /\
    all_returned ok /\
    broken ts chunk = (inl (py "model not loaded"), ts') /\
    (ok.*1 ++ [chunk]) `prefix_of` Utils.split_text (py "Hello, World!") 512
    /\
    last (Main.screen st') <> Some (Main.BarPercent 100).
Proof.
  cbv zeta.
  apply (text_tab_failure_keeps_translation broken (py "Hello, World!")
           fresh_session).
  vm_compute. reflexivity.
Defined.

(** The results of an echoing translator are the chunks themselves. *)
Lemma echo_results (chunks results : list pystr) :
  length results = length chunks ->
  genuine echo (zip chunks (inr <$> results)) -> results = chunks.
Proof.
  revert results. induction chunks as [|chunk chunks IH];
    intros [|r results] Hlen Hgen; try discriminate; [reflexivity|].
  cbn in Hgen. f_equal.
  - destruct (Hgen chunk (inr r)) as (ts & ts' & [= ->]); [left|reflexivity].
  - apply IH; [now injection Hlen|].
    intros text outcome Hin. apply (Hgen text outcome). now right.
Qed.

(** X25.  The text tab loses no text: with a translator that returns what
    it is given, and a text whose first word is not longer than 512
    characters, the stored translation is the cleaned text. *)
Theorem text_tab_echo_round_trip {F} {num : PyFloat F} (input_text : pystr)
    (st st' : Main.Session F unit) :
  input_text <> [] ->
  match split input_text with
  | [] => True
  | w :: _ => len w <= 512
  end ->
  Main.translate_text echo input_text st = (inr tt, st') ->
  Main.last_translation st' = Some (Utils.clean_text input_text).
Proof.
  intros Hne Hfirst Hrun.
  unfold Main.translate_text in Hrun.
  destruct input_text as [|c input_text]; [congruence|].
  rewrite split_text_clean in Hrun.
  destruct (Main.translate_chunks _ _ _ _ _ _) as [[e|results] st1]
    eqn:Hloop; [discriminate|].
  injection Hrun as <-.
  apply translate_chunks_spec in Hloop
    as (_ & made & _ & Hgen & _ & new & -> & -> & Hlen & _).
  cbn [Main.show_event Main.last_translation app].
  rewrite (echo_results _ _ Hlen Hgen).
  now rewrite split_text_roundtrip_head.
Qed.

Lemma text_tab_echo_round_trip_witness :
  Main.last_translation
    (Main.translate_text echo (py " Hello,   World! ") fresh_session).2
  = Some (Utils.clean_text (py " Hello,   World! ")).
Proof.
  apply (text_tab_echo_round_trip (py " Hello,   World! ") fresh_session).
  - discriminate.
  - vm_compute. discriminate.
  - vm_compute. reflexivity.
Defined.

(** ** The callback of the PDF tab *)

Lemma shown_app {F} {num : PyFloat F} (evs1 evs2 : list (F * pystr)) :
  Main.shown (evs1 ++ evs2) = Main.shown evs1 ++ Main.shown evs2.
Proof. unfold Main.shown. now rewrite fmap_app, concat_app. Qed.

(** Events whose fractions are not below zero show no error. *)
Lemma shown_without_error {F} {num : PyFloat F} (evs : list (F * pystr))
    (message : pystr) :
  Forall (fun f => (f <? of_int 0)%py = false) evs.*1 ->
  Main.ErrorBox message ∉ Main.shown evs.
Proof.
  induction evs as [|[f msg] evs IH]; intros Hall Hin; [inversion Hin|].
  rewrite fmap_cons in Hall. apply Forall_cons in Hall as [Hf Hall].
  unfold Main.shown in Hin. rewrite fmap_cons in Hin. cbn [concat] in Hin.
  apply elem_of_app in Hin as [Hin|Hin]; [|now apply IH].
  unfold Main.update_progress in Hin. cbn [fst snd] in Hin, Hf.
  rewrite Hf in Hin.
  repeat (apply elem_of_cons in Hin as [Hin|Hin]; [discriminate|]).
  inversion Hin.
Qed.

(** X26.  With [update_progress] as the callback, at binary64: the page
    shows an error box for a run of [translate_pdf] exactly when the run
    fails.  A run that returns the empty string shows one error box, as
    the last thing before the bar is emptied, with a message that is not
    empty; a run that returns a path shows none. *)
Theorem error_box_iff_failure (env : Env float) {TS}
    (translate : TS -> pystr -> (exn + pystr) * TS)
    (upload_dir pdf_path : pystr) (s s' : Eff float TS) (r : pystr) :
  translate_pdf env translate upload_dir pdf_path true s = (inr r, s') ->
  let page := Main.shown (new_progress s s') in
  (r = [] ->
   exists before message,
     page = before ++ [Main.ErrorBox message; Main.BarEmpty] /\
     message <> [] /\
     forall m, Main.ErrorBox m ∉ before) /\
  (r <> [] -> forall m, Main.ErrorBox m ∉ page).
Proof.
  intros Hrun page. subst page.
  apply translate_pdf_outcome in Hrun
    as (res & s1 & Hbody & _ & _ & Hres).
  pose proof (translate_pdf_body_stages _ _ _ _ _ _ _ _ Hbody)
    as [[total Hstages] Hpath].
  apply translate_pdf_body_post in Hbody as (evs & new & Hprog & _ & _).
  rewrite (new_progress_app _ _ _ Hprog) in Hstages.
  assert (Hclean : forall m, Main.ErrorBox m ∉ Main.shown evs).
  { intros m. apply shown_without_error.
    eapply Forall_impl; [exact Hstages|]. intros f Hf.
    now apply (stage_fraction_binary64_nonneg total). }
  destruct res as [e|p].
  - destruct Hres as [[= ->] Hprog']. split; [intros _|congruence].
    exists (Main.shown evs), (error_message e).
    split; [|split; [apply error_message_nonempty|assumption]].
    rewrite (new_progress_app s s' (evs ++ [(of_int (-1), error_message e)])).
    + now rewrite shown_app.
    + now rewrite Hprog', Hprog, <- app_assoc.
  - destruct Hres as [[= <-] Hprog']. split.
    + intros ->. now specialize (Hpath [] eq_refl).
    + intros _ m. rewrite (new_progress_app s s' evs); [apply Hclean|].
      congruence.
Qed.

Lemma error_box_iff_failure_witness :
  let page :=
    Main.shown
      (new_progress fresh
         (translate_pdf (calm_env (Parsed [blank_page])) shout (py "uploads")
            (py "scan.pdf") true fresh).2) in
  (@nil N = [] ->
   exists before message,
     page = before ++ [Main.ErrorBox message; Main.BarEmpty] /\
     message <> [] /\
     forall m, Main.ErrorBox m ∉ before) /\
  (@nil N <> [] -> forall m, Main.ErrorBox m ∉ page).
Proof.
  cbv zeta.
  apply (error_box_iff_failure (calm_env (Parsed [blank_page])) shout
           (py "uploads") (py "scan.pdf") fresh).
  vm_compute. reflexivity.
Defined.

Example error_box_example :
  Main.shown
    (new_progress fresh
       (translate_pdf (calm_env (Parsed [blank_page])) shout (py "uploads")
          (py "scan.pdf") true fresh).2)
  = [Main.BarFraction (lit 1 1);
     Main.StatusText (py "Extracting text from PDF...");
     Main.ErrorBox
       (py "Could not extract text from PDF. Please ensure the PDF contains text and not just images.");
     Main.BarEmpty].
Proof. vm_compute. reflexivity. Qed.

(** ** What is drawn when the canvas accepts every call *)

Section CalmCanvas.
Context {F : Type} {num : PyFloat F} (env : Env F).
Context (font_name : pystr) (translations : gmap pystr pystr).
Hypothesis calm : forall c op, canvas_raises env c op = false.

Lemma drawn_strings_app (c1 c2 : Canvas F) :
  drawn_strings (c1 ++ c2) = drawn_strings c1 ++ drawn_strings c2.
Proof. unfold drawn_strings. apply omap_app. Qed.

Lemma draw_loop_calm (runs : list (TextRun F)) (c : Canvas F)
    (last_y : option F) :
  Forall (fun run => shows env translations run = true) runs ->
  exists ops ly,
    for_each (draw_run env font_name translations) runs (c, last_y)
    = Completed (c ++ ops, ly) /\
    (drawn_strings ops).*2
    = resolved translations <$> List.filter (drawable translations) runs.
Proof.
  revert c last_y. induction runs as [|run runs IH]; intros c last_y Hshown.
  - exists [], last_y. now rewrite app_nil_r.
  - apply Forall_cons in Hshown as [Hrun Hshown].
    cbn [for_each List.filter].
    rewrite (draw_run_calm env font_name translations c last_y run calm Hrun).
    destruct (drawable translations run).
    + match goal with
      | |- context [for_each _ runs (c ++ ?new, ?ly)] =>
          destruct (IH (c ++ new) ly Hshown) as (ops & ly' & -> & Hops);
          exists (new ++ ops), ly'
      end.
      rewrite <- app_assoc. split; [reflexivity|].
      rewrite drawn_strings_app, fmap_app, Hops. reflexivity.
    + now apply IH.
Qed.

Lemma render_page_calm (c : Canvas F) (page : Page F) :
  Forall (fun run => shows env translations run = true) (p_content page) ->
  exists ops,
    render_page env font_name translations c page = c ++ ops /\
    (drawn_strings ops).*2
    = resolved translations
        <$> List.filter (drawable translations)
              (sorted render_key_lt (p_content page)).
Proof.
  intros Hshown.
  assert (Hsorted : Forall (fun run => shows env translations run = true)
                      (sorted render_key_lt (p_content page))).
  { rewrite Forall_forall in Hshown. apply Forall_forall.
    intros run Hrun. now apply sorted_elem, Hshown in Hrun. }
  unfold render_page, canvas_call. rewrite calm.
  destruct (negb (p_rotation page =? of_int 0)%py); rewrite ?calm;
    match goal with
    | |- context [for_each ?f ?runs (?c0, None)] =>
        destruct (draw_loop_calm runs c0 None Hsorted)
          as (ops & ly & -> & Hops)
    end;
    rewrite calm, <- !app_assoc;
    eexists; (split; [reflexivity|]);
    rewrite !drawn_strings_app, !fmap_app, Hops; cbn [drawn_strings omap
      list_omap fmap list_fmap app]; now rewrite app_nil_r.
Qed.

Lemma render_pages_calm (pages : list (Page F)) (c : Canvas F) :
  Forall (fun run => shows env translations run = true) (all_runs pages) ->
  exists ops,
    foldl (render_page env font_name translations) c pages = c ++ ops /\
    (drawn_strings ops).*2
    = resolved translations
        <$> List.filter (drawable translations) (render_order pages).
Proof.
  revert c. induction pages as [|page pages IH]; intros c Hshown.
  - exists []. now rewrite app_nil_r.
  - rewrite all_runs_cons in Hshown. apply Forall_app in Hshown as [H1 H2].
    cbn [foldl]. destruct (render_page_calm c page H1) as (ops1 & -> & Hops1).
    destruct (IH (c ++ ops1) H2) as (ops2 & -> & Hops2).
    exists (ops1 ++ ops2). rewrite <- app_assoc. split; [reflexivity|].
    rewrite drawn_strings_app, fmap_app, Hops1, Hops2.
    unfold render_order. cbn [mbind list_bind].
    now rewrite List.filter_app, fmap_app.
Qed.

End CalmCanvas.

(** X27.  When the canvas accepts every call and the console can show the
    text and the translation of every run, [create_pdf_with_layout] draws
    each run exactly once whose text is not empty and whose translation
    (or, without one, the text itself) is not empty and can be encoded as
    UTF-8, page after page and within a page by descending y; and it draws
    nothing else. *)
Theorem every_drawable_run_is_drawn {F} {num : PyFloat F} (env : Env F)
    (pages_content : list (Page F)) (translations : gmap pystr pystr)
    (c : Canvas F) :
  (forall c0 op, canvas_raises env c0 op = false) ->
  Forall (fun run => shows env translations run = true)
    (all_runs pages_content) ->
  render_document env pages_content translations = Some c ->
  (drawn_strings c).*2
  = resolved translations
      <$> List.filter (drawable translations) (render_order pages_content).
Proof.
  intros Hcalm Hshown Hdoc. unfold render_document, canvas_call in Hdoc.
  destruct pages_content as [|first_page rest]; [discriminate|].
  remember (first_page :: rest) as pages eqn:Hpages.
  repeat (cbn [mbind option_bind] in Hdoc; rewrite ?Hcalm in Hdoc).
  injection Hdoc as <-.
  match goal with
  | |- context [foldl (render_page env ?font translations) ?c0 pages] =>
      destruct (render_pages_calm env font translations Hcalm pages c0
                  Hshown)
        as (ops & -> & Hops)
  end.
  rewrite !drawn_strings_app, !fmap_app, Hops.
  cbn [drawn_strings omap list_omap fmap list_fmap app].
  now rewrite app_nil_r.
Qed.

Lemma every_drawable_run_is_drawn_witness :
  let pages_content := extract_text_with_positions close_pdf in
  let translations : gmap pystr pystr := {[ py "first" := py "1st" ]} in
  (drawn_strings
     (default [] (render_document (calm_env close_pdf) pages_content
                    translations))).*2
  = resolved translations
      <$> List.filter (drawable translations) (render_order pages_content).
Proof.
  cbv zeta.
  apply (every_drawable_run_is_drawn (calm_env close_pdf)).
  - reflexivity.
  - repeat constructor.
  - vm_compute. reflexivity.
Defined.

Example drawn_texts_example :
  (drawn_strings
     (default [] (render_document (calm_env close_pdf)
                    (extract_text_with_positions close_pdf)
                    {[ py "first" := py "1st"; py "second" := [] ]}))).*2
  = [py "1st"].
Proof. vm_compute. reflexivity. Qed.

(** ** When nothing fails *)

Lemma render_document_calm {F} {num : PyFloat F} (env : Env F)
    (pages_content : list (Page F)) (translations : gmap pystr pystr) :
  (forall c op, canvas_raises env c op = false) ->
  pages_content <> [] ->
  is_Some (render_document env pages_content translations).
Proof.
  intros Hcalm Hne. unfold render_document, canvas_call.
  destruct pages_content as [|first_page rest]; [congruence|].
  remember (first_page :: rest) as pages eqn:Hpages.
  repeat (cbn [mbind option_bind]; rewrite ?Hcalm). eauto.
Qed.

(** X28.  [translate_pdf] fails only when something it relies on fails:
    if the file opens to a document with text, no call of the translator
    raises, the canvas accepts every call, the buffer it fills is not
    empty and the output file can be written, then [translate_pdf] returns
    the output path and has written that file. *)
Theorem translate_pdf_succeeds {F} {num : PyFloat F} (env : Env F) {TS}
    (translate : TS -> pystr -> (exn + pystr) * TS)
    (upload_dir pdf_path : pystr) (has_callback : bool) (s : Eff F TS)
    (pdf : PdfFile F) :
  open_rb env pdf_path = inr pdf ->
  extract_text_with_positions pdf <> [] ->
  (forall ts text e ts', translate ts text <> (inl e, ts')) ->
  (forall c op, canvas_raises env c op = false) ->
  (forall c, getvalue env c <> []) ->
  (forall path content, write_wb env path content = None) ->
  let output_path :=
    path_join upload_dir (py "translated_" ++ basename pdf_path) in
  exists s' pdf_content,
    translate_pdf env translate upload_dir pdf_path has_callback s
      = (inr output_path, s') /\
    pdf_content <> [] /\
    files s' = files s ++ [(output_path, pdf_content)].
Proof.
  intros Hopen Hpages Htranslate Hcalm Hbuffer Hwrite output_path.
  destruct (translate_pdf env translate upload_dir pdf_path has_callback s)
    as [r s'] eqn:Hrun.
  apply translate_pdf_outcome in Hrun
    as (res & s1 & Hbody & _ & Hfiles & Hres).
  apply translate_pdf_body_trace in Hbody as (made & _ & Hgen & Hcases).
  cbv zeta in Hcases. rewrite Hopen in Hcases.
  destruct Hcases as [(Hnil & _)
                     |[(_ & ok & text & e0 & done & -> & _)
                      |(_ & _ & _ & translations & _ & Hrender)]].
  - congruence.
  - destruct (Hgen text (inl e0)) as (ts & ts' & Htr);
      [apply elem_of_app; right; left|].
    now apply Htranslate in Htr.
  - assert (Hcontent : create_pdf_with_layout env
                         (extract_text_with_positions pdf) translations
                       <> []).
    { unfold create_pdf_with_layout.
      destruct (render_document_calm env (extract_text_with_positions pdf)
                  translations Hcalm Hpages) as [c ->].
      apply Hbuffer. }
    destruct Hrender as [(Hnil & _)
                        |[(_ & [e [Hfail _]] & _)
                         |(_ & _ & -> & Hwritten & _)]].
    + congruence.
    + now rewrite Hwrite in Hfail.
    + destruct Hres as [-> _].
      exists s', (create_pdf_with_layout env
                    (extract_text_with_positions pdf) translations).
      split; [reflexivity|]. split; [assumption|].
      rewrite Hfiles. exact Hwritten.
Qed.

Lemma translate_pdf_succeeds_witness :
  exists s' pdf_content,
    translate_pdf (calm_env ab_pdf) shout (py "uploads") (py "docs/in.pdf")
      false fresh
    = (inr (path_join (py "uploads")
              (py "translated_" ++ basename (py "docs/in.pdf"))), s') /\
    pdf_content <> [] /\
    files s' = files fresh
                 ++ [(path_join (py "uploads")
                        (py "translated_" ++ basename (py "docs/in.pdf")),
                      pdf_content)].
Proof.
  apply (translate_pdf_succeeds (calm_env ab_pdf) shout (py "uploads")
           (py "docs/in.pdf") false fresh ab_pdf).
  - reflexivity.
  - vm_compute. discriminate.
  - discriminate.
  - reflexivity.
  - discriminate.
  - reflexivity.
Defined.

(** ** The callback only observes *)

Section Alike.
Context {F : Type} {num : PyFloat F} (env : Env F).
Context {TS : Type} (translate : TS -> pystr -> (exn + pystr) * TS).

Lemma alike_ret {A} (a : A) : alike (F:=F) (TS:=TS) (ret a) (ret a).
Proof. intros s1 s2 Hs. now split. Qed.

Lemma alike_raise {A} (e : exn) :
  alike (F:=F) (TS:=TS) (A:=A) (raise e) (raise e).
Proof. intros s1 s2 Hs. now split. Qed.

Lemma alike_bind {A B} (m1 m2 : M (F:=F) (TS:=TS) A)
    (k1 k2 : A -> M (F:=F) (TS:=TS) B) :
  alike m1 m2 -> (forall a, alike (k1 a) (k2 a)) ->
  alike (bind m1 k1) (bind m2 k2).
Proof.
  intros Hm Hk s1 s2 Hs. unfold bind.
  destruct (Hm s1 s2 Hs) as [Hres Hs'].
  destruct (m1 s1) as [[e1|a1] s1'], (m2 s2) as [[e2|a2] s2'];
    cbn [fst snd] in *; try discriminate.
  - injection Hres as ->. now split.
  - injection Hres as ->. now apply Hk.
Qed.

Lemma alike_try_except {A} (m1 m2 : M (F:=F) (TS:=TS) A)
    (h1 h2 : exn -> M (F:=F) (TS:=TS) A) :
  alike m1 m2 -> (forall e, alike (h1 e) (h2 e)) ->
  alike (try_except m1 h1) (try_except m2 h2).
Proof.
  intros Hm Hh s1 s2 Hs. unfold try_except.
  destruct (Hm s1 s2 Hs) as [Hres Hs'].
  destruct (m1 s1) as [[e1|a1] s1'], (m2 s2) as [[e2|a2] s2'];
    cbn [fst snd] in *; try discriminate.
  - injection Hres as ->. now apply Hh.
  - now split.
Qed.

Lemma alike_progress_callback (h1 h2 : bool) (f1 f2 : F)
    (msg1 msg2 : pystr) :
  alike (TS:=TS) (progress_callback h1 f1 msg1)
    (progress_callback h2 f2 msg2).
Proof.
  intros s1 s2 Hs. unfold progress_callback.
  destruct h1, h2; cbn [fst snd]; (split; [reflexivity|exact Hs]).
Qed.

Lemma alike_call_translate (text : pystr) :
  alike (F:=F) (call_translate translate text) (call_translate translate text).
Proof.
  intros s1 s2 (Hcalls & Hts & Hfiles). unfold call_translate.
  rewrite Hts. destruct (translate (tstate s2) text) as [r ts].
  cbn [fst snd]. split; [reflexivity|].
  repeat split; cbn [calls tstate files]; congruence.
Qed.

Lemma alike_open_pdf (pdf_path : pystr) :
  alike (TS:=TS) (open_pdf env pdf_path) (open_pdf env pdf_path).
Proof. intros s1 s2 Hs. now split. Qed.

Lemma alike_write_file (output_path : pystr) (pdf_content : bytes) :
  alike (TS:=TS) (write_file env output_path pdf_content)
    (write_file env output_path pdf_content).
Proof.
  intros s1 s2 (Hcalls & Hts & Hfiles). unfold write_file.
  destruct (write_wb env output_path pdf_content);
    [destruct (left_wb env output_path pdf_content)|];
    cbn [fst snd]; (split; [reflexivity|]);
    repeat split; cbn [calls tstate files]; congruence.
Qed.

Lemma alike_foldM {A B} (f1 f2 : B -> A -> M (F:=F) (TS:=TS) B)
    (l : list A) (b : B) :
  (forall b a, alike (f1 b a) (f2 b a)) ->
  alike (foldM f1 l b) (foldM f2 l b).
Proof.
  intros Hf. revert b. induction l as [|a l IH]; intros b.
  - apply alike_ret.
  - cbn [foldM]. apply alike_bind; [apply Hf|apply IH].
Qed.

Lemma alike_translate_run (h1 h2 : bool) (total_items : Z) (page : Page F)
    (st : gmap pystr pystr * Z) (content : TextRun F) :
  alike (translate_run translate h1 total_items page st content)
    (translate_run translate h2 total_items page st content).
Proof.
  unfold translate_run. destruct st as [translations items_processed].
  apply alike_bind.
  - destruct (r_text content) as [|ch text]; [apply alike_ret|].
    destruct (translations !! (ch :: text)); [apply alike_ret|].
    apply alike_bind; [|intros; apply alike_ret].
    apply alike_try_except; [apply alike_call_translate|].
    intros e. apply alike_raise.
  - intros translations'. apply alike_bind;
      [apply alike_progress_callback|intros; apply alike_ret].
Qed.

Lemma alike_build_translations (h1 h2 : bool) (pages : list (Page F)) :
  alike (build_translations translate h1 pages)
    (build_translations translate h2 pages).
Proof.
  unfold build_translations.
  apply alike_bind; [apply alike_progress_callback|]. intros _.
  apply alike_bind.
  - apply alike_foldM. intros st page. unfold translate_page.
    apply alike_foldM. intros st' content. apply alike_translate_run.
  - intros [translations k]. apply alike_ret.
Qed.

Lemma alike_translate_pdf (upload_dir pdf_path : pystr) (h1 h2 : bool) :
  alike (translate_pdf env translate upload_dir pdf_path h1)
    (translate_pdf env translate upload_dir pdf_path h2).
Proof.
  unfold translate_pdf. apply alike_try_except.
  - unfold translate_pdf_body.
    apply alike_bind; [apply alike_progress_callback|]. intros _.
    apply alike_bind; [apply alike_open_pdf|]. intros file.
    apply alike_bind.
    { destruct (extract_text_with_positions file);
        [apply alike_raise|apply alike_ret]. }
    intros _. apply alike_bind; [apply alike_build_translations|].
    intros translations.
    apply alike_bind; [apply alike_progress_callback|]. intros _.
    apply alike_bind.
    { destruct (create_pdf_with_layout env _ translations);
        [apply alike_raise|apply alike_ret]. }
    intros _. apply alike_bind; [apply alike_progress_callback|]. intros _.
    apply alike_bind; [apply alike_write_file|]. intros _.
    apply alike_bind; [apply alike_progress_callback|]. intros _.
    apply alike_ret.
  - intros e. unfold translate_pdf_except.
    apply alike_bind; [apply alike_progress_callback|]. intros _.
    apply alike_ret.
Qed.

End Alike.

(** X29.  The progress callback only observes: [translate_pdf] called
    without a callback returns the same value, makes the same calls of the
    translator, leaves the translator in the same state and writes the
    same files as with one, and reports nothing. *)
Theorem callback_only_observes {F} {num : PyFloat F} (env : Env F) {TS}
    (translate : TS -> pystr -> (exn + pystr) * TS)
    (upload_dir pdf_path : pystr) (s : Eff F TS) :
  let with_callback :=
    translate_pdf env translate upload_dir pdf_path true s in
  let without :=
    translate_pdf env translate upload_dir pdf_path false s in
  without.1 = with_callback.1 /\
  calls without.2 = calls with_callback.2 /\
  tstate without.2 = tstate with_callback.2 /\
  files without.2 = files with_callback.2 /\
  progress without.2 = progress s.
Proof.
  cbv zeta.
  destruct (alike_translate_pdf env translate upload_dir pdf_path false true
              s s) as (Hres & Hcalls & Hts & Hfiles); [now repeat split|].
  repeat (split; [assumption|]).
  destruct (translate_pdf env translate upload_dir pdf_path false s)
    as [r s'] eqn:Hrun. cbn [snd].
  apply translate_pdf_outcome in Hrun as (res & s1 & Hbody & _ & _ & Hout).
  apply translate_pdf_body_post in Hbody as (evs & new & Hprog & _ & Hcases).
  assert (Hquiet : evs = []).
  { cbv zeta in Hcases. destruct (open_rb env pdf_path) as [e|pdf].
    - destruct Hcases as (_ & _ & Hev). now apply fmap_nil_inv in Hev.
    - destruct Hcases as (_ & m & _ & [(_ & _ & _ & Hev)
                                      |[(_ & _ & _ & Hev)
                                       |(_ & _ & tr & _ & Hrender)]]);
        try (now apply fmap_nil_inv in Hev).
      cbv zeta in Hrender.
      destruct Hrender as [(_ & _ & Hev)|[(_ & _ & Hev)|(_ & _ & _ & Hev)]];
        now apply fmap_nil_inv in Hev. }
  subst evs. rewrite app_nil_r in Hprog.
  destruct res as [e|p]; destruct Hout as [_ ->]; rewrite ?app_nil_r;
    assumption.
Qed.

(** ** The fonts of the rendered document *)

Section Fonts.
Context {F : Type} {num : PyFloat F} (env : Env F).
Context (font_name : pystr) (translations : gmap pystr pystr).

Lemma fonts_from_mono (runs runs' : list (TextRun F))
    (ops : list (CanvasOp F)) :
  (forall run, run ∈ runs -> run ∈ runs') ->
  fonts_from font_name runs ops -> fonts_from font_name runs' ops.
Proof.
  intros Hsub Hops name size Hin.
  destruct (Hops name size Hin) as (-> & run & Hrun & ->). eauto.
Qed.

Lemma fonts_from_app (runs : list (TextRun F))
    (ops1 ops2 : list (CanvasOp F)) :
  fonts_from font_name runs ops1 -> fonts_from font_name runs ops2 ->
  fonts_from font_name runs (ops1 ++ ops2).
Proof.
  intros H1 H2 name size Hin. apply elem_of_app in Hin as [Hin|Hin]; auto.
Qed.

Lemma fonts_from_other (runs : list (TextRun F)) (ops : list (CanvasOp F)) :
  (forall name size, OpSetFont name size ∉ ops) ->
  fonts_from font_name runs ops.
Proof. intros Hno name size Hin. now apply Hno in Hin. Qed.

Lemma draw_loop_fonts (runs : list (TextRun F)) (c : Canvas F)
    (last_y : option F) :
  exists ops,
    (state_of (for_each (draw_run env font_name translations) runs
                 (c, last_y))).1
      = c ++ ops /\
    fonts_from font_name runs ops.
Proof.
  apply (for_each_inv (draw_run env font_name translations)
           (fun st => exists ops,
              st.1 = c ++ ops /\ fonts_from font_name runs ops)).
  - exists []. rewrite app_nil_r. split; [reflexivity|].
    intros name size Hin. inversion Hin.
  - intros [c0 ly] run Hrun (ops & Hc & Hops). cbn [fst] in Hc. subst c0.
    assert (Hset : fonts_from font_name runs
                     [OpSetFont font_name (r_fontSize run * lit 12 1)%py]).
    { intros name size Hin. apply list_elem_of_singleton in Hin.
      injection Hin as -> ->. split; [reflexivity|]. now exists run. }
    destruct (draw_run_adds env font_name translations (c ++ ops) ly run)
      as [H|[H|[H _]]]; rewrite H; cbn [fst].
    + now exists ops.
    + eexists. rewrite <- app_assoc. split; [reflexivity|].
      now apply fonts_from_app.
    + eexists. rewrite <- app_assoc. split; [reflexivity|].
      apply fonts_from_app; [assumption|].
      change [OpSetFont font_name (r_fontSize run * lit 12 1)%py;
              OpDrawString (r_x run)
                (place_y ly (r_fontSize run * lit 12 1)%py (r_y run))
                (resolved translations run)]
        with ([OpSetFont font_name (r_fontSize run * lit 12 1)%py]
                ++ [OpDrawString (r_x run)
                      (place_y ly (r_fontSize run * lit 12 1)%py
                         (r_y run))
                      (resolved translations run)]).
      apply fonts_from_app; [assumption|]. apply fonts_from_other.
      intros name size Hin. apply list_elem_of_singleton in Hin.
      discriminate.
Qed.

Lemma render_page_fonts (c : Canvas F) (page : Page F) :
  exists ops,
    render_page env font_name translations c page = c ++ ops /\
    fonts_from font_name (p_content page) ops.
Proof.
  assert (Hother : forall ops : list (CanvasOp F),
             Forall (fun op => match op with
                               | OpSetFont _ _ => False
                               | _ => True
                               end) ops ->
             fonts_from font_name (p_content page) ops).
  { intros ops Hops. apply fonts_from_other. intros name size Hin.
    rewrite Forall_forall in Hops. now apply Hops in Hin. }
  destruct (render_page_cases env font_name translations c page)
    as [->|[->|(c0 & Hc0 & Hr)]].
  - exists []. rewrite app_nil_r. split; [reflexivity|].
    apply Hother. constructor.
  - eexists. split; [reflexivity|]. apply Hother. now repeat constructor.
  - destruct (draw_loop_fonts (sorted render_key_lt (p_content page))
                c0 None) as (ops & Hloop & Hops).
    apply (fonts_from_mono _ (p_content page)) in Hops;
      [|intros r Hsorted; now apply sorted_elem in Hsorted].
    destruct Hc0 as [-> | ->], Hr as [-> | ->]; rewrite Hloop,
      <- ?app_assoc; eexists; (split; [reflexivity|]);
      repeat (apply fonts_from_app);
      try assumption; apply Hother; now repeat constructor.
Qed.

Lemma render_pages_fonts (pages : list (Page F)) (c : Canvas F) :
  exists ops,
    foldl (render_page env font_name translations) c pages = c ++ ops /\
    fonts_from font_name (all_runs pages) ops.
Proof.
  revert c. induction pages as [|page pages IH]; intros c.
  - exists []. rewrite app_nil_r. split; [reflexivity|].
    intros name size Hin. inversion Hin.
  - cbn [foldl].
    destruct (render_page_fonts c page) as (ops1 & -> & Hops1).
    destruct (IH (c ++ ops1)) as (ops2 & -> & Hops2).
    exists (ops1 ++ ops2). rewrite <- app_assoc. split; [reflexivity|].
    rewrite all_runs_cons. apply fonts_from_app.
    + eapply fonts_from_mono; [|exact Hops1].
      intros r Hr. apply elem_of_app. now left.
    + eapply fonts_from_mono; [|exact Hops2].
      intros r Hr. apply elem_of_app. now right.
Qed.

End Fonts.

(** X30.  Every font [create_pdf_with_layout] sets is [Nyala] when the
    font file under [fonts/] is there and registers, and [Helvetica]
    otherwise, whatever font the run had in the source; and its size is
    1.2 times the font size of a run of the document. *)
Theorem fonts_of_rendered_document {F} {num : PyFloat F} (env : Env F)
    (pages_content : list (Page F)) (translations : gmap pystr pystr)
    (c : Canvas F) (name : pystr) (size : F) :
  render_document env pages_content translations = Some c ->
  OpSetFont name size ∈ c ->
  name = match nyala env with
         | FontLoads => py "Nyala"
         | FontMissing | FontBroken => py "Helvetica"
         end /\
  exists run,
    run ∈ all_runs pages_content /\ size = (r_fontSize run * lit 12 1)%py.
Proof.
  unfold render_document, canvas_call.
  destruct pages_content as [|first_page rest]; [discriminate|].
  remember (first_page :: rest) as pages eqn:Hpages.
  cbn [mbind option_bind].
  repeat (destruct (canvas_raises env _ _); [discriminate|];
          cbn [mbind option_bind]).
  lazymatch goal with
  | |- context [foldl (render_page env ?font translations) ?c0 pages] =>
      destruct (render_pages_fonts env font translations pages c0)
        as (ops & -> & Hops)
  end.
  intros [= <-] Hin.
  repeat (apply elem_of_cons in Hin as [Hin|Hin]; [discriminate|]).
  apply elem_of_app in Hin as [Hin|Hin].
  - destruct (Hops name size Hin) as (-> & Hrun).
    split; [|assumption]. unfold choose_font. now destruct (nyala env).
  - apply list_elem_of_singleton in Hin. discriminate.
Qed.

Lemma fonts_of_rendered_document_witness :
  let pages_content := extract_text_with_positions hello_page_pdf in
  let size := (of_int 12 * lit 12 1)%py in
  py "Helvetica"
  = match nyala (calm_env hello_page_pdf) with
    | FontLoads => py "Nyala"
    | FontMissing | FontBroken => py "Helvetica"
    end /\
  exists run,
    run ∈ all_runs pages_content /\ size = (r_fontSize run * lit 12 1)%py.
Proof.
  cbv zeta.
  apply (fonts_of_rendered_document (calm_env hello_page_pdf)
           (extract_text_with_positions hello_page_pdf) ∅
           (default [] (render_document (calm_env hello_page_pdf)
                          (extract_text_with_positions hello_page_pdf) ∅))).
  - vm_compute. reflexivity.
  - vm_compute. do 5 right. left.
Defined.
